(** * msgp: the byte-slice decoder, the JSON transcoder and the size generator

    A shallow embedding of [msgp/read_bytes.go], of the JSON transcoder that
    follows it in the same source file, and of the size generator of package
    [gen], together with the properties of these programs that the
    specification states.

    Conventions of the embedding.
    - A Go [[]byte] is a [list byte]; the nil slice and the empty slice are
      both [[]] (they agree on [len], which is all the code looks at).
    - Go integers are [Z]; every conversion that can wrap ([int8(..)],
      [int64(..)], ...) is written out.  [int] and [uintptr] are 64 bits wide.
    - A Go function returning [(v, o, err)] returns the same triple here, the
      error being an [option error] ([None] is Go's [nil] error): the values
      that accompany a non-nil error are part of the behaviour of the code and
      are kept. *)

From Stdlib Require Import ZArith List Bool Ascii String DecimalString Lia.
From Stdlib.Strings Require Import Byte.
From stdpp Require Import base option list gmap.
Import ListNotations.

Local Open Scope Z_scope.

(** ** Bytes and slices *)

Abbreviation bytes := (list byte).

Definition b2z (b : byte) : Z := Z.of_N (Byte.to_N b).

(** [z2b z] is Go's [byte(z)] / [uint8(z)]: the low eight bits. *)
Definition z2b (z : Z) : byte :=
  match Byte.of_N (Z.to_N (z mod 256)) with
  | Some b => b
  | None => x00
  end.

(** [len(b)] as a Go [int]. *)
Definition len {A} (b : list A) : Z := Z.of_nat (length b).

(** [b[i]], for an index the code has already checked against [len(b)]. *)
Definition idx (b : bytes) (i : nat) : Z := b2z (nth i b x00).

(** [b[n:]] and [b[:n]] (in range: every use below is guarded). *)
Definition from (n : Z) (b : bytes) : bytes := drop (Z.to_nat n) b.
Definition upto (n : Z) (b : bytes) : bytes := take (Z.to_nat n) b.

(** Fixed-width conversions. *)
Definition to_uint (w : Z) (z : Z) : Z := z mod 2 ^ w.
Definition to_int (w : Z) (z : Z) : Z :=
  let u := z mod 2 ^ w in
  if u <? 2 ^ (w - 1) then u else u - 2 ^ w.

Definition MaxInt8 : Z := 127.
Definition MinInt8 : Z := -128.
Definition MaxInt16 : Z := 32767.
Definition MinInt16 : Z := -32768.
Definition MaxInt32 : Z := 2147483647.
Definition MinInt32 : Z := -2147483648.
Definition MaxInt64 : Z := 9223372036854775807.
Definition MaxUint8 : Z := 255.
Definition MaxUint16 : Z := 65535.
Definition MaxUint32 : Z := 4294967295.

(** ** The wire grammar *)

Module Wire.

(** The logical types ([Type] in package msgp). *)
Inductive Type_ : Set :=
| InvalidType | StrType | BinType | MapType | ArrayType
| Float64Type | Float32Type | BoolType | IntType | UintType
| NilType | ExtensionType | Complex64Type | Complex128Type | TimeType.

Definition Type_eqb (a b : Type_) : bool :=
  match a, b with
  | InvalidType, InvalidType | StrType, StrType | BinType, BinType
  | MapType, MapType | ArrayType, ArrayType | Float64Type, Float64Type
  | Float32Type, Float32Type | BoolType, BoolType | IntType, IntType
  | UintType, UintType | NilType, NilType | ExtensionType, ExtensionType
  | Complex64Type, Complex64Type | Complex128Type, Complex128Type
  | TimeType, TimeType => true
  | _, _ => false
  end.

(** Prefix bytes. *)
Definition mfixint : Z := 0x00.
Definition mnfixint : Z := 0xe0.
Definition mfixmap : Z := 0x80.
Definition mfixarray : Z := 0x90.
Definition mfixstr : Z := 0xa0.
Definition mnil : Z := 0xc0.
Definition mfalse : Z := 0xc2.
Definition mtrue : Z := 0xc3.
Definition mbin8 : Z := 0xc4.
Definition mbin16 : Z := 0xc5.
Definition mbin32 : Z := 0xc6.
Definition mext8 : Z := 0xc7.
Definition mext16 : Z := 0xc8.
Definition mext32 : Z := 0xc9.
Definition mfloat32 : Z := 0xca.
Definition mfloat64 : Z := 0xcb.
Definition muint8 : Z := 0xcc.
Definition muint16 : Z := 0xcd.
Definition muint32 : Z := 0xce.
Definition muint64 : Z := 0xcf.
Definition mint8 : Z := 0xd0.
Definition mint16 : Z := 0xd1.
Definition mint32 : Z := 0xd2.
Definition mint64 : Z := 0xd3.
Definition mfixext1 : Z := 0xd4.
Definition mfixext2 : Z := 0xd5.
Definition mfixext4 : Z := 0xd6.
Definition mfixext8 : Z := 0xd7.
Definition mfixext16 : Z := 0xd8.
Definition mstr8 : Z := 0xd9.
Definition mstr16 : Z := 0xda.
Definition mstr32 : Z := 0xdb.
Definition marray16 : Z := 0xdc.
Definition marray32 : Z := 0xdd.
Definition mmap16 : Z := 0xde.
Definition mmap32 : Z := 0xdf.

(** Modelled from the spec: the prefix predicates and their value
    extractors ("isFixInt, isNegFixInt, isFixStr, isFixMap, isFixArray and
    their inverse value extractors (low-bit masks)"), whose Go definitions
    are not in the source files at hand.  The masks are those of the ranges
    the specification lists: positive fixint [0x00..0x7f], negative fixint
    [0xe0..0xff], fixstr [0xa0..0xbf], fixarray [0x90..0x9f], fixmap
    [0x80..0x8f]. *)
Definition isfixint (b : Z) : bool := Z.shiftr b 7 =? 0.
Definition isnfixint (b : Z) : bool := Z.land b 0xe0 =? mnfixint.
Definition isfixmap (b : Z) : bool := Z.land b 0xf0 =? mfixmap.
Definition isfixarray (b : Z) : bool := Z.land b 0xf0 =? mfixarray.
Definition isfixstr (b : Z) : bool := Z.land b 0xe0 =? mfixstr.
Definition rfixint (b : Z) : Z := Z.land b 0x7f.
Definition rnfixint (b : Z) : Z := to_int 8 b.
Definition rfixmap (b : Z) : Z := Z.land b 0x0f.
Definition rfixarray (b : Z) : Z := Z.land b 0x0f.
Definition rfixstr (b : Z) : Z := Z.land b 0x1f.

(** The length modes ([varmode], an [int8]): a non-negative mode is the
    number of further objects that follow a fixed-size prefix. *)
Definition constsize : Z := 0.
Definition extra8 : Z := -1.
Definition extra16 : Z := -2.
Definition extra32 : Z := -3.
Definition map16v : Z := -4.
Definition map32v : Z := -5.
Definition array16v : Z := -6.
Definition array32v : Z := -7.

Record bytespec : Set := mkspec { size : Z; extra : Z; typ : Type_ }.

(** Modelled from the spec: the 256-entry prefix table [sizes], which the
    decoder indexes by the leading byte and which is declared outside the
    source files at hand.  Each entry is [{logical_type, total_prefix_size,
    length_mode}]: a constant size; a size held in the next 1/2/4 bytes; a map
    header with N pairs, which "expands to 2*N nested objects to skip"; an
    array header with N elements; and size 0 with [InvalidType] for the
    unmapped byte [0xc1]. *)
Definition sizes (lead : Z) : bytespec :=
  if isfixint lead then mkspec 1 constsize IntType
  else if isnfixint lead then mkspec 1 constsize IntType
  else if isfixstr lead then mkspec (1 + rfixstr lead) constsize StrType
  else if isfixmap lead then mkspec 1 (2 * rfixmap lead) MapType
  else if isfixarray lead then mkspec 1 (rfixarray lead) ArrayType
  else if lead =? mnil then mkspec 1 constsize NilType
  else if lead =? mfalse then mkspec 1 constsize BoolType
  else if lead =? mtrue then mkspec 1 constsize BoolType
  else if lead =? mbin8 then mkspec 2 extra8 BinType
  else if lead =? mbin16 then mkspec 3 extra16 BinType
  else if lead =? mbin32 then mkspec 5 extra32 BinType
  else if lead =? mext8 then mkspec 3 extra8 ExtensionType
  else if lead =? mext16 then mkspec 4 extra16 ExtensionType
  else if lead =? mext32 then mkspec 6 extra32 ExtensionType
  else if lead =? mfloat32 then mkspec 5 constsize Float32Type
  else if lead =? mfloat64 then mkspec 9 constsize Float64Type
  else if lead =? muint8 then mkspec 2 constsize UintType
  else if lead =? muint16 then mkspec 3 constsize UintType
  else if lead =? muint32 then mkspec 5 constsize UintType
  else if lead =? muint64 then mkspec 9 constsize UintType
  else if lead =? mint8 then mkspec 2 constsize IntType
  else if lead =? mint16 then mkspec 3 constsize IntType
  else if lead =? mint32 then mkspec 5 constsize IntType
  else if lead =? mint64 then mkspec 9 constsize IntType
  else if lead =? mfixext1 then mkspec 3 constsize ExtensionType
  else if lead =? mfixext2 then mkspec 4 constsize ExtensionType
  else if lead =? mfixext4 then mkspec 6 constsize ExtensionType
  else if lead =? mfixext8 then mkspec 10 constsize ExtensionType
  else if lead =? mfixext16 then mkspec 18 constsize ExtensionType
  else if lead =? mstr8 then mkspec 2 extra8 StrType
  else if lead =? mstr16 then mkspec 3 extra16 StrType
  else if lead =? mstr32 then mkspec 5 extra32 StrType
  else if lead =? marray16 then mkspec 3 array16v ArrayType
  else if lead =? marray32 then mkspec 5 array32v ArrayType
  else if lead =? mmap16 then mkspec 3 map16v MapType
  else if lead =? mmap32 then mkspec 5 map32v MapType
  else mkspec 0 constsize InvalidType.

Definition getType (lead : Z) : Type_ := typ (sizes lead).

(** Big-endian reads, [binary.BigEndian.Uint16/32/64]. *)
Definition big_Uint16 (b : bytes) : Z :=
  Z.lor (Z.shiftl (idx b 0) 8) (idx b 1).
Definition big_Uint32 (b : bytes) : Z :=
  Z.lor (Z.lor (Z.lor (Z.shiftl (idx b 0) 24) (Z.shiftl (idx b 1) 16))
               (Z.shiftl (idx b 2) 8)) (idx b 3).
Definition big_Uint64 (b : bytes) : Z :=
  Z.lor (Z.shiftl (big_Uint32 b) 32) (big_Uint32 (from 4 b)).

(** Modelled from the spec: the "integer decoders for 8/16/32/64-bit signed
    and unsigned big-endian values at a given offset" ([getMint8] ...
    [getMuint64]); they read the payload that follows the prefix byte [b[0]].
    Their Go definitions are not in the source files at hand. *)
Definition getMuint8 (b : bytes) : Z := idx b 1.
Definition getMuint16 (b : bytes) : Z := big_Uint16 (from 1 b).
Definition getMuint32 (b : bytes) : Z := big_Uint32 (from 1 b).
Definition getMuint64 (b : bytes) : Z := big_Uint64 (from 1 b).
Definition getMint8 (b : bytes) : Z := to_int 8 (getMuint8 b).
Definition getMint16 (b : bytes) : Z := to_int 16 (getMuint16 b).
Definition getMint32 (b : bytes) : Z := to_int 32 (getMuint32 b).
Definition getMint64 (b : bytes) : Z := to_int 64 (getMuint64 b).

End Wire.

(** ** Errors *)

Inductive error : Set :=
| ErrShortBytes
| TypeError (Method Encoded : Wire.Type_)
| InvalidPrefixError (lead : Z)
| UintOverflow (Value FailedBitsize : Z)
| IntOverflow (Value FailedBitsize : Z)
| ExtensionTypeError (Got Wanted : Z)
| ArrayError (Wanted Got : Z)
| fatal
| EOF
| OtherError (msg : string).

(** Modelled from the spec: [badPrefix], which is declared outside the source
    files at hand: "[TypeError{method, encoded}] - caller asked for type X but
    the wire prefix denotes type Y; [InvalidPrefix(byte)] - prefix byte is
    unmapped". *)
Definition badPrefix (want : Wire.Type_) (lead : Z) : error :=
  let t := Wire.getType lead in
  if Wire.Type_eqb t Wire.InvalidType then InvalidPrefixError lead
  else TypeError want t.

(** ** The byte-slice decoder ([msgp/read_bytes.go]) *)

Module Decoder.
Import Wire.

(** A reader's result [(v, o, err)]. *)
Definition result (A : Type) : Type := (A * bytes * option error)%type.

(** The tail shared by [ReadStringZC] and the zero-copy path of
    [readBytesBytes]: [read] payload bytes are wanted from what remains
    after the header. *)
Definition payload (read : Z) (b : bytes) : result bytes :=
  if len b <? read then ([], [], Some ErrShortBytes)
  else (upto read b, from read b, None).

Definition ReadStringZC (b : bytes) : result bytes :=
  let l := len b in
  if l <? 1 then ([], [], Some ErrShortBytes)
  else
    let lead := idx b 0 in
    if isfixstr lead then payload (rfixstr lead) (from 1 b)
    else if lead =? mstr8 then
      if l <? 2 then ([], [], Some ErrShortBytes)
      else payload (idx b 1) (from 2 b)
    else if lead =? mstr16 then
      if l <? 3 then ([], [], Some ErrShortBytes)
      else payload (big_Uint16 (from 1 b)) (from 3 b)
    else if lead =? mstr32 then
      if l <? 5 then ([], [], Some ErrShortBytes)
      else payload (big_Uint32 (from 1 b)) (from 5 b)
    else ([], [], Some (TypeError StrType (getType lead))).

(** [readBytesBytes(b, scratch, zc)].  With [zc] the value aliases the
    input; without it the payload is copied into [scratch] (when its capacity
    suffices) or into a fresh slice.  Both paths return the same bytes, which
    is all a list can show; [scratch] only decides where they live. *)
Definition readBytesBytes (b scratch : bytes) (zc : bool) : result bytes :=
  let l := len b in
  if l <? 1 then ([], [], Some ErrShortBytes)
  else
    let lead := idx b 0 in
    let body (read : Z) (b : bytes) : result bytes :=
      if len b <? read then ([], [], Some ErrShortBytes)
      else if zc then (upto read b, from read b, None)
      else (upto read b, from (len (upto read b)) b, None) in
    if lead =? mbin8 then
      if l <? 2 then ([], [], Some ErrShortBytes)
      else body (idx b 1) (from 2 b)
    else if lead =? mbin16 then
      if l <? 3 then ([], [], Some ErrShortBytes)
      else body (big_Uint16 (from 1 b)) (from 3 b)
    else if lead =? mbin32 then
      if l <? 5 then ([], [], Some ErrShortBytes)
      else body (big_Uint32 (from 1 b)) (from 5 b)
    else ([], [], Some (badPrefix BinType lead)).

Definition ReadBytesBytes (b scratch : bytes) : result bytes :=
  readBytesBytes b scratch false.

Definition ReadBytesZC (b : bytes) : result bytes :=
  readBytesBytes b [] true.

(** [ReadMapKeyZC].  The first statement is
    [o, b, err := ReadStringZC(b)]: it declares [o] and [err] and assigns the
    parameter [b], so from there on [b] is the tail [ReadStringZC] returned,
    not the input. *)
Definition ReadMapKeyZC (b : bytes) : result bytes :=
  let '(o, b, err) := ReadStringZC b in
  match err with
  | Some e =>
      match e with
      | TypeError _ BinType => ReadBytesZC b
      | _ => ([], b, Some e)
      end
  | None => (o, b, None)
  end.

(** [ReadInt64Bytes]. *)
Definition ReadInt64Bytes (b : bytes) : result Z :=
  let l := len b in
  if l <? 1 then (0, [], Some ErrShortBytes)
  else
    let lead := idx b 0 in
    if isfixint lead then (to_int 64 (rfixint lead), from 1 b, None)
    else if isnfixint lead then (to_int 64 (rnfixint lead), from 1 b, None)
    else if (lead =? mint8) || (lead =? muint8) then
      if l <? 2 then (0, b, Some ErrShortBytes)
      else if lead =? mint8 then (to_int 64 (getMint8 b), from 2 b, None)
      else (to_int 64 (getMuint8 b), from 2 b, None)
    else if (lead =? mint16) || (lead =? muint16) then
      if l <? 3 then (0, b, Some ErrShortBytes)
      else if lead =? mint16 then (to_int 64 (getMint16 b), from 3 b, None)
      else (to_int 64 (getMuint16 b), from 3 b, None)
    else if (lead =? mint32) || (lead =? muint32) then
      if l <? 5 then (0, b, Some ErrShortBytes)
      else if lead =? mint32 then (to_int 64 (getMint32 b), from 5 b, None)
      else (to_int 64 (getMint32 b), from 5 b, None)
    else if (lead =? mint64) || (lead =? muint64) then
      if l <? 9 then (0, b, Some ErrShortBytes)
      else if lead =? mint64 then (getMint64 b, from 9 b, None)
      else
        let num := getMuint64 b in
        if num >? MaxInt64 then (0, b, Some (UintOverflow num 64))
        else (to_int 64 num, from 9 b, None)
    else (0, b, Some (badPrefix IntType lead)).

Definition ReadInt32Bytes (b : bytes) : result Z :=
  let '(i, o, err) := ReadInt64Bytes b in
  if (i >? MaxInt32) || (i <? MinInt32) then (0, o, Some (IntOverflow i 32))
  else (to_int 32 i, o, err).

Definition ReadInt16Bytes (b : bytes) : result Z :=
  let '(i, o, err) := ReadInt64Bytes b in
  if (i >? MaxInt16) || (i <? MinInt16) then (0, o, Some (IntOverflow i 16))
  else (to_int 16 i, o, err).

Definition ReadInt8Bytes (b : bytes) : result Z :=
  let '(i, o, err) := ReadInt64Bytes b in
  if (i >? MaxInt8) || (i <? MinInt8) then (0, o, Some (IntOverflow i 8))
  else (to_int 8 i, o, err).

(** [getSize]: [(skip N bytes, skip M objects, error)]. *)
Definition getSize (b : bytes) : Z * Z * option error :=
  let l := len b in
  if l =? 0 then (0, 0, Some ErrShortBytes)
  else
    let lead := idx b 0 in
    let spec := sizes lead in
    let size := spec.(size) in
    let mode := spec.(extra) in
    if size =? 0 then (0, 0, Some (InvalidPrefixError lead))
    else if mode >=? 0 then (size, mode, None)
    else if l <? size then (0, 0, Some ErrShortBytes)
    else if mode =? extra8 then (size + idx b 1, 0, None)
    else if mode =? extra16 then (size + big_Uint16 (from 1 b), 0, None)
    else if mode =? extra32 then (size + big_Uint32 (from 1 b), 0, None)
    else if mode =? map16v then (size, 2 * big_Uint16 (from 1 b), None)
    else if mode =? map32v then (size, 2 * big_Uint32 (from 1 b), None)
    else if mode =? array16v then (size, big_Uint16 (from 1 b), None)
    else if mode =? array32v then (size, big_Uint32 (from 1 b), None)
    else (0, 0, Some fatal).

(** [Skip].  The Go function calls itself once for each of the [asz]
    objects that follow the header; the recursion is bounded here by [fuel],
    one unit per nesting level, and the [for asz > 0] loop by [k].  [None] is
    "out of fuel", which [Skip_fuel_enough] below excludes as soon as
    [fuel] exceeds [len(b)]. *)
Fixpoint Skip_fuel (fuel : nat) (b : bytes) : option (bytes * option error) :=
  match fuel with
  | O => None
  | S fuel' =>
      let '(sz, asz, err) := getSize b in
      match err with
      | Some e => Some (b, Some e)
      | None =>
          if len b <? sz then Some (b, Some ErrShortBytes)
          else
            (fix loop (k : nat) (asz : Z) (b : bytes) {struct k}
               : option (bytes * option error) :=
               if asz >? 0 then
                 match k with
                 | O => None
                 | S k' =>
                     match Skip_fuel fuel' b with
                     | None => None
                     | Some (b', Some e) => Some (b', Some e)
                     | Some (b', None) => loop k' (asz - 1) b'
                     end
                 end
               else Some (b, None)) fuel' asz (from sz b)
      end
  end.

(** The [for asz > 0] loop of [Skip] on its own: skip [asz] objects. *)
Fixpoint Skip_loop (fuel k : nat) (asz : Z) (b : bytes)
  : option (bytes * option error) :=
  if asz >? 0 then
    match k with
    | O => None
    | S k' =>
        match Skip_fuel fuel b with
        | None => None
        | Some (b', Some e) => Some (b', Some e)
        | Some (b', None) => Skip_loop fuel k' (asz - 1) b'
        end
    end
  else Some (b, None).

(** [Skip(b)], with the fuel that always suffices. *)
Definition Skip (b : bytes) : option (bytes * option error) :=
  Skip_fuel (S (length b)) b.

End Decoder.

Module DecoderExamples.
Import Wire Decoder.

Example ReadStringZC_fixstr :
  ReadStringZC [xa1; x6b; x90] = ([x6b], [x90], None).
Proof. reflexivity. Qed.

Example ReadBytesZC_bin8 :
  ReadBytesZC [xc4; x02; x61; x62; xc0] = ([x61; x62], [xc0], None).
Proof. reflexivity. Qed.

Example ReadMapKeyZC_fixstr :
  ReadMapKeyZC [xa1; x6b; x90] = ([x6b], [x90], None).
Proof. reflexivity. Qed.

Example ReadInt64Bytes_uint16 :
  ReadInt64Bytes [xcd; x01; x00] = (256, [], None).
Proof. reflexivity. Qed.

Example ReadInt64Bytes_int32_neg :
  ReadInt64Bytes [xd2; xff; xff; xff; xfe] = (-2, [], None).
Proof. reflexivity. Qed.

Example Skip_nil : Skip [xc0] = Some ([], None).
Proof. reflexivity. Qed.

Example Skip_array3 : Skip [x93; x01; x02; x03; xc3] = Some ([xc3], None).
Proof. reflexivity. Qed.

Example Skip_short : Skip [x93; x01; x02] = Some ([], Some ErrShortBytes).
Proof. reflexivity. Qed.

End DecoderExamples.

(** ** Map keys: [ReadMapKeyZC] *)

Module MapKey.
Import Wire Decoder.

(** On a type error [ReadStringZC] returns the nil slice as its tail. *)
Lemma ReadStringZC_type_error (b : bytes) (m t : Type_) :
  (ReadStringZC b).2 = Some (TypeError m t) -> (ReadStringZC b).1.2 = [].
Proof.
  unfold ReadStringZC, payload.
  repeat match goal with
         | |- context [if ?c then _ else _] => destruct c
         end; simpl; intros H; congruence.
Qed.

(** Whatever the input, a key that [ReadStringZC] rejects as a bin object is
    not read: [ReadBytesZC] is handed the nil slice and reports
    [ErrShortBytes]. *)
Lemma ReadMapKeyZC_bin (b : bytes) (m : Type_) :
  (ReadStringZC b).2 = Some (TypeError m BinType) ->
  ReadMapKeyZC b = ([], [], Some ErrShortBytes).
Proof.
  intros H. pose proof (ReadStringZC_type_error b m BinType H) as Ho.
  unfold ReadMapKeyZC.
  destruct (ReadStringZC b) as [[v o] err]. simpl in *. subst. reflexivity.
Qed.

(** C1 (the code departs from the claim).  The buffer [c4 01 6b 90] starts
    with the bin8 object of payload [6b], all of it present: [ReadBytesZC]
    returns the payload and the tail [90], [ReadStringZC] fails with
    [TypeError{Method: StrType, Encoded: BinType}], and [ReadMapKeyZC], which
    should fall back to the bin reading, fails with [ErrShortBytes]: the
    fallback reads the nil tail that [ReadStringZC] returned, not the
    input. *)
Theorem ReadMapKeyZC_bin8_key :
  ReadBytesZC [xc4; x01; x6b; x90] = ([x6b], [x90], None) /\
  ReadStringZC [xc4; x01; x6b; x90] = ([], [], Some (TypeError StrType BinType)) /\
  ReadMapKeyZC [xc4; x01; x6b; x90] = ([], [], Some ErrShortBytes).
Proof. repeat split; reflexivity. Qed.

(** The str half of the map-key policy works: where [ReadStringZC] succeeds,
    [ReadMapKeyZC] returns the same key and tail. *)
Lemma ReadMapKeyZC_str (b v o : bytes) :
  ReadStringZC b = (v, o, None) -> ReadMapKeyZC b = (v, o, None).
Proof. intros H. unfold ReadMapKeyZC. rewrite H. reflexivity. Qed.

End MapKey.

(** ** Integers: [ReadInt64Bytes] and the narrower readers *)

Module Integers.
Import Wire Decoder.

Lemma badPrefix_not_overflow (t : Type_) (lead v w : Z) :
  badPrefix t lead <> UintOverflow v w.
Proof. unfold badPrefix. destruct (Type_eqb _ _); discriminate. Qed.

(** [ReadInt64Bytes] reports [UintOverflow] exactly on a complete uint64
    object whose value exceeds [MaxInt64], and the error carries that value
    and the width 64. *)
Lemma ReadInt64Bytes_UintOverflow (b : bytes) (v w : Z) :
  (ReadInt64Bytes b).2 = Some (UintOverflow v w) <->
  idx b 0 = muint64 /\ 9 <= len b /\ v = getMuint64 b /\ w = 64 /\ v > MaxInt64.
Proof.
  unfold ReadInt64Bytes. split.
  - destruct (len b <? 1) eqn:H1; [discriminate|].
    destruct (isfixint _); [discriminate|].
    destruct (isnfixint _); [discriminate|].
    destruct (_ || _).
    { destruct (len b <? 2); [discriminate|]. destruct (_ =? _); discriminate. }
    destruct (_ || _).
    { destruct (len b <? 3); [discriminate|]. destruct (_ =? _); discriminate. }
    destruct (_ || _).
    { destruct (len b <? 5); [discriminate|]. destruct (_ =? _); discriminate. }
    destruct (idx b 0 =? mint64) eqn:Hi; simpl.
    { destruct (len b <? 9); discriminate. }
    destruct (idx b 0 =? muint64) eqn:Hu; simpl.
    + destruct (len b <? 9) eqn:H9; [discriminate|].
      destruct (getMuint64 b >? MaxInt64) eqn:Hgt; [|discriminate].
      simpl. intros [= <- <-]. repeat split; lia.
    + simpl. intros [= H]. exfalso. exact (badPrefix_not_overflow _ _ _ _ H).
  - intros (Hl & H9 & -> & -> & Hgt). rewrite Hl.
    assert ((len b <? 1) = false) as -> by lia.
    assert ((len b <? 9) = false) as -> by lia.
    assert ((getMuint64 b >? MaxInt64) = true) as -> by lia.
    reflexivity.
Qed.

(** The boundary scenario of the narrower readers: [ReadInt8Bytes] on the
    uint16 object 256. *)
Lemma ReadInt8Bytes_256 :
  ReadInt8Bytes [xcd; x01; x00] = (0, [], Some (IntOverflow 256 8)).
Proof. reflexivity. Qed.

(** A uint32 object is read through the signed decoder [getMint32]. *)
Lemma ReadInt64Bytes_uint32 (b : bytes) :
  idx b 0 = muint32 -> 5 <= len b ->
  ReadInt64Bytes b = (to_int 64 (getMint32 b), from 5 b, None).
Proof.
  intros Hl H5. unfold ReadInt64Bytes. rewrite Hl.
  assert ((len b <? 1) = false) as -> by lia.
  assert ((len b <? 5) = false) as -> by lia.
  reflexivity.
Qed.

(** C2 (the code departs from the claim).  The five bytes [ce ff ff ff ff]
    are the uint32 object 4294967295, which fits an int64; [ReadInt64Bytes]
    returns -1 with a nil error, because the uint32 case decodes the payload
    with the signed [getMint32].  Every uint32 value from 2^31 on is read as
    the value minus 2^32. *)
Theorem ReadInt64Bytes_uint32_max :
  getMuint32 [xce; xff; xff; xff; xff] = 4294967295 /\
  ReadInt64Bytes [xce; xff; xff; xff; xff] = (-1, [], None).
Proof. split; reflexivity. Qed.

End Integers.

(** ** Skipping: [Skip] and [getSize] *)

Module Skipping.
Import Wire Decoder.

(** [m] successive calls of [Skip], stopping at the first error. *)
Fixpoint Skip_n (m : nat) (b : bytes) : option (bytes * option error) :=
  match m with
  | O => Some (b, None)
  | S m' =>
      match Skip b with
      | None => None
      | Some (b', Some e) => Some (b', Some e)
      | Some (b', None) => Skip_n m' b'
      end
  end.

(** *** Bounds on what the decoders read *)

Lemma b2z_range (x : byte) : 0 <= b2z x < 256.
Proof. destruct x; vm_compute; split; congruence. Qed.

Lemma idx_range (b : bytes) (i : nat) : 0 <= idx b i < 256.
Proof. apply b2z_range. Qed.

Lemma big_Uint16_nonneg (b : bytes) : 0 <= big_Uint16 b.
Proof.
  unfold big_Uint16. pose proof (idx_range b 0). pose proof (idx_range b 1).
  apply Z.lor_nonneg. split; [apply Z.shiftl_nonneg|]; lia.
Qed.

Lemma big_Uint32_nonneg (b : bytes) : 0 <= big_Uint32 b.
Proof.
  unfold big_Uint32.
  pose proof (idx_range b 0). pose proof (idx_range b 1).
  pose proof (idx_range b 2). pose proof (idx_range b 3).
  repeat (apply Z.lor_nonneg; split); try apply Z.shiftl_nonneg; lia.
Qed.

(** The table never announces a negative size or an unknown mode. *)
Lemma sizes_range (x : byte) :
  0 <= size (sizes (b2z x)) /\ -7 <= extra (sizes (b2z x)).
Proof. destruct x; vm_compute; split; congruence. Qed.

(** [getSize] never returns a zero byte count or a negative object count
    with a nil error. *)
Lemma getSize_ok (b : bytes) (sz asz : Z) :
  getSize b = (sz, asz, None) -> 1 <= sz /\ 0 <= asz.
Proof.
  unfold getSize. destruct (len b =? 0); [discriminate|].
  unfold idx.
  destruct (sizes_range (nth 0 b x00)) as [Hs He].
  set (spec := sizes _) in *.
  destruct (size spec =? 0) eqn:H0; [discriminate|].
  destruct (extra spec >=? 0) eqn:Hm.
  { intros [= <- <-]. lia. }
  destruct (len b <? size spec); [discriminate|].
  pose proof (b2z_range (nth 1 b x00)).
  pose proof (big_Uint16_nonneg (from 1 b)).
  pose proof (big_Uint32_nonneg (from 1 b)).
  repeat match goal with
         | |- context [if ?c then _ else _] => destruct c
         end; intros [= <- <-]; lia.
Qed.

(** *** The recursion of [Skip] *)

(** One level of [Skip]: the header is measured by [getSize], [sz] bytes are
    sliced off, and the loop skips [asz] further objects. *)
Lemma Skip_fuel_S (f : nat) (b : bytes) :
  Skip_fuel (S f) b =
  let '(sz, asz, err) := getSize b in
  match err with
  | Some e => Some (b, Some e)
  | None =>
      if len b <? sz then Some (b, Some ErrShortBytes)
      else Skip_loop f f asz (from sz b)
  end.
Proof.
  simpl. destruct (getSize b) as [[sz asz] [e|]]; [reflexivity|].
  destruct (len b <? sz); [reflexivity|].
  generalize (from sz b). generalize asz. generalize f at 2 4.
  intros k. induction k as [|k IH]; intros a c; simpl.
  - reflexivity.
  - destruct (a >? 0); [|reflexivity].
    destruct (Skip_fuel f c) as [[b' [e|]]|]; try reflexivity. apply IH.
Qed.

Lemma length_from (n : Z) (b : bytes) :
  0 <= n <= len b -> len (from n b) = len b - n.
Proof. unfold from, len. intros H. rewrite length_drop. lia. Qed.

(** [Skip] never gives bytes back, and a successful [Skip] consumes at least
    one. *)
Lemma Skip_fuel_progress (f : nat) :
  forall (b b' : bytes) (e : option error),
    Skip_fuel f b = Some (b', e) ->
    (length b' <= length b)%nat /\ (e = None -> (length b' < length b)%nat).
Proof.
  induction f as [|f IH]; intros b b' e; [discriminate|].
  rewrite Skip_fuel_S.
  destruct (getSize b) as [[sz asz] [e0|]] eqn:Hg.
  { intros [= <- <-]. split; [lia|discriminate]. }
  destruct (len b <? sz) eqn:Hl.
  { intros [= <- <-]. split; [lia|discriminate]. }
  apply getSize_ok in Hg as [Hsz _].
  assert (length (from sz b) < length b)%nat as Hlt.
  { pose proof (length_from sz b). unfold len in *. lia. }
  revert Hlt. generalize (from sz b). generalize asz. generalize f at 2.
  intros k. induction k as [|k IHk]; intros a c Hc; simpl.
  - destruct (a >? 0); [discriminate|]. intros [= <- <-]. split; lia.
  - destruct (a >? 0); [|intros [= <- <-]; split; lia].
    destruct (Skip_fuel f c) as [[c' [e1|]]|] eqn:Hs; [| |discriminate].
    + intros [= <- <-]. apply IH in Hs as [H1 _]. split; [lia|discriminate].
    + apply IH in Hs as [H1 _]. apply IHk. lia.
Qed.

(** Fuel beyond the length of the input is never used up. *)
Lemma Skip_fuel_enough (f : nat) :
  forall b : bytes, (length b < f)%nat -> is_Some (Skip_fuel f b).
Proof.
  induction f as [|f IH]; intros b Hb; [lia|].
  rewrite Skip_fuel_S.
  destruct (getSize b) as [[sz asz] [e0|]] eqn:Hg; [eexists; reflexivity|].
  destruct (len b <? sz) eqn:Hl; [eexists; reflexivity|].
  apply getSize_ok in Hg as [Hsz _].
  assert (length (from sz b) < f)%nat as Hlt.
  { pose proof (length_from sz b). unfold len in *. lia. }
  revert Hlt. generalize (from sz b). generalize asz.
  assert (forall k a (c : bytes), (length c < k)%nat -> (length c < f)%nat ->
            is_Some (Skip_loop f k a c)) as Hloop.
  { induction k as [|k IHk]; intros a c Hk Hf; [lia|]. simpl.
    destruct (a >? 0); [|eexists; reflexivity].
    destruct (IH c Hf) as [[c' e1] Hs]. rewrite Hs.
    destruct e1 as [e1|]; [eexists; reflexivity|].
    apply Skip_fuel_progress in Hs as [_ H2]. specialize (H2 eq_refl).
    apply IHk; lia. }
  intros a c Hc. apply Hloop; assumption.
Qed.

(** More fuel does not change a result. *)
Lemma Skip_fuel_mono (f : nat) :
  forall (f' : nat) (b : bytes) (r : bytes * option error),
    (f <= f')%nat -> Skip_fuel f b = Some r -> Skip_fuel f' b = Some r.
Proof.
  induction f as [|f IH]; intros f' b r Hf; [discriminate|].
  destruct f' as [|f']; [lia|]. rewrite !Skip_fuel_S.
  destruct (getSize b) as [[sz asz] [e0|]]; [trivial|].
  destruct (len b <? sz); [trivial|].
  assert (forall k k' a (c : bytes), (k <= k')%nat ->
            Skip_loop f k a c = Some r -> Skip_loop f' k' a c = Some r) as Hloop.
  { induction k as [|k IHk]; intros k' a c Hk; simpl.
    - destruct k'; simpl; destruct (a >? 0); trivial; discriminate.
    - destruct k' as [|k']; [lia|]. simpl.
      destruct (a >? 0); [|trivial].
      destruct (Skip_fuel f c) as [[c' e1]|] eqn:Hs; [|discriminate].
      rewrite (IH f' c (c', e1)); [|lia|assumption].
      destruct e1; [trivial|]. apply IHk. lia. }
  apply Hloop. lia.
Qed.

(** Hence [Skip] is the fixed point of the recursion: any sufficient fuel
    gives its result, and it always has one. *)
Lemma Skip_fuel_Skip (f : nat) (b : bytes) :
  (length b < f)%nat -> Skip_fuel f b = Skip b.
Proof.
  intros Hf. unfold Skip.
  destruct (Skip_fuel_enough (S (length b)) b) as [r Hr]; [lia|].
  rewrite Hr. apply (Skip_fuel_mono (S (length b))); [lia|assumption].
Qed.

Lemma Skip_total (b : bytes) : is_Some (Skip b).
Proof. apply Skip_fuel_enough. lia. Qed.

Lemma Skip_progress (b b' : bytes) (e : option error) :
  Skip b = Some (b', e) ->
  (length b' <= length b)%nat /\ (e = None -> (length b' < length b)%nat).
Proof. apply Skip_fuel_progress. Qed.

(** The loop of [Skip] is [Skip_n]. *)
Lemma Skip_loop_Skip_n (f : nat) :
  forall (k : nat) (a : Z) (c : bytes),
    (length c < k)%nat -> (length c < f)%nat -> 0 <= a ->
    Skip_loop f k a c = Skip_n (Z.to_nat a) c.
Proof.
  induction k as [|k IHk]; intros a c Hk Hf Ha; [lia|]. simpl.
  destruct (a >? 0) eqn:Hpos.
  - replace (Z.to_nat a) with (S (Z.to_nat (a - 1))) by lia. simpl.
    rewrite (Skip_fuel_Skip f c Hf).
    destruct (Skip c) as [[c' [e|]]|] eqn:Hs; try reflexivity.
    apply Skip_progress in Hs as [_ H2]. specialize (H2 eq_refl).
    apply IHk; lia.
  - replace (Z.to_nat a) with O by lia. reflexivity.
Qed.

(** The defining equation of [Skip], free of fuel. *)
Lemma Skip_eqn (b : bytes) :
  Skip b =
  let '(sz, asz, err) := getSize b in
  match err with
  | Some e => Some (b, Some e)
  | None =>
      if len b <? sz then Some (b, Some ErrShortBytes)
      else Skip_n (Z.to_nat asz) (from sz b)
  end.
Proof.
  unfold Skip at 1. rewrite Skip_fuel_S.
  destruct (getSize b) as [[sz asz] [e0|]] eqn:Hg; [reflexivity|].
  destruct (len b <? sz) eqn:Hl; [reflexivity|].
  apply getSize_ok in Hg as [Hsz Ha].
  assert (length (from sz b) < length b)%nat.
  { pose proof (length_from sz b). unfold len in *. lia. }
  apply Skip_loop_Skip_n; lia.
Qed.

End Skipping.

(** ** One MessagePack object on the wire *)

Module WireObject.
Import Wire Decoder Skipping.

(** The shape of one encoded object, read off the MessagePack format rather
    than off the decoder: a prefix byte followed either by a body of bytes
    (scalars, str, bin, ext) or by a count field and that many encoded
    children (arrays), or twice that many (maps: a key and a value per
    pair). *)
#[local] Unset Elimination Schemes.
Inductive wobj : Type :=
| Leaf (lead : byte) (body : bytes)
| Node (lead : byte) (count : bytes) (children : list wobj).
#[local] Set Elimination Schemes.

(** A big-endian number. *)
Definition be (b : bytes) : Z := fold_left (fun acc x => acc * 256 + b2z x) b 0.

(** Objects of a fixed size: the number of bytes after the prefix. *)
Definition fixed_body (lead : Z) : option Z :=
  if lead <=? 0x7f then Some 0
  else if (0xa0 <=? lead) && (lead <=? 0xbf) then Some (lead - 0xa0)
  else if 0xe0 <=? lead then Some 0
  else if (lead =? 0xc0) || (lead =? 0xc2) || (lead =? 0xc3) then Some 0
  else if (lead =? 0xcc) || (lead =? 0xd0) then Some 1
  else if (lead =? 0xcd) || (lead =? 0xd1) then Some 2
  else if (lead =? 0xce) || (lead =? 0xd2) || (lead =? 0xca) then Some 4
  else if (lead =? 0xcf) || (lead =? 0xd3) || (lead =? 0xcb) then Some 8
  else if lead =? 0xd4 then Some 2
  else if lead =? 0xd5 then Some 3
  else if lead =? 0xd6 then Some 5
  else if lead =? 0xd7 then Some 9
  else if lead =? 0xd8 then Some 17
  else None.

(** Objects that carry their length: the width of the length field and the
    number of header bytes after it (the type tag of an extension). *)
Definition counted_body (lead : Z) : option (nat * Z) :=
  if (lead =? 0xc4) || (lead =? 0xd9) then Some (1%nat, 0)
  else if (lead =? 0xc5) || (lead =? 0xda) then Some (2%nat, 0)
  else if (lead =? 0xc6) || (lead =? 0xdb) then Some (4%nat, 0)
  else if lead =? 0xc7 then Some (1%nat, 1)
  else if lead =? 0xc8 then Some (2%nat, 1)
  else if lead =? 0xc9 then Some (4%nat, 1)
  else None.

(** Containers: the width of the count field (0 when the count sits in the
    low four bits of the prefix) and the number of objects per counted
    item (2 for a map). *)
Definition container (lead : Z) : option (nat * Z) :=
  if (0x80 <=? lead) && (lead <=? 0x8f) then Some (0%nat, 2)
  else if (0x90 <=? lead) && (lead <=? 0x9f) then Some (0%nat, 1)
  else if lead =? 0xdc then Some (2%nat, 1)
  else if lead =? 0xdd then Some (4%nat, 1)
  else if lead =? 0xde then Some (2%nat, 2)
  else if lead =? 0xdf then Some (4%nat, 2)
  else None.

Definition announced (lead : Z) (count : bytes) : Z :=
  match count with
  | [] => lead mod 16
  | _ => be count
  end.

Definition leaf_ok (lead : Z) (body : bytes) : bool :=
  match fixed_body lead with
  | Some n => len body =? n
  | None =>
      match counted_body lead with
      | Some (w, h) =>
          (Z.of_nat w <=? len body) && (len body =? Z.of_nat w + h + be (take w body))
      | None => false
      end
  end.

Definition node_ok (lead : Z) (count : bytes) (n : Z) : bool :=
  match container lead with
  | Some (w, per) => (Nat.eqb (length count) w) && (n =? per * announced lead count)
  | None => false
  end.

Fixpoint wf (o : wobj) : bool :=
  match o with
  | Leaf lead body => leaf_ok (b2z lead) body
  | Node lead count children =>
      node_ok (b2z lead) count (len children) && forallb wf children
  end.

Fixpoint flatten (o : wobj) : bytes :=
  match o with
  | Leaf lead body => lead :: body
  | Node lead count children => lead :: count ++ concat (map flatten children)
  end.

(** Induction on objects, with the children of a container. *)
Lemma wobj_ind' (P : wobj -> Prop)
    (HL : forall lead body, P (Leaf lead body))
    (HN : forall lead count children,
        Forall P children -> P (Node lead count children)) :
  forall o, P o.
Proof.
  fix IH 1. intros [lead body|lead count children].
  - apply HL.
  - apply HN. induction children as [|c cs IHcs]; constructor.
    + apply IH.
    + exact IHcs.
Qed.

(** *** Big-endian fields as the decoder reads them *)

Lemma lor_shiftl (hi lo n : Z) :
  0 <= n -> 0 <= lo < 2 ^ n -> Z.lor (Z.shiftl hi n) lo = hi * 2 ^ n + lo.
Proof.
  intros Hn Hlo.
  assert (Z.land (Z.shiftl hi n) lo = 0) as Hland.
  { apply Z.bits_inj'. intros i Hi. rewrite Z.land_spec, Z.bits_0.
    destruct (Z.ltb_spec i n).
    - rewrite Z.shiftl_spec_low by assumption. reflexivity.
    - rewrite <- (Z.mod_small lo (2 ^ n)) by assumption.
      rewrite Z.mod_pow2_bits_high by lia. apply andb_false_r. }
  rewrite <- Z.lxor_lor, <- Z.add_nocarry_lxor by assumption.
  rewrite Z.shiftl_mul_pow2 by assumption. reflexivity.
Qed.

Lemma be_1 (x : byte) : be [x] = b2z x.
Proof. reflexivity. Qed.

Lemma lor_mul (k lo n : Z) :
  0 <= n -> 0 <= lo < 2 ^ n -> Z.lor (k * 2 ^ n) lo = k * 2 ^ n + lo.
Proof.
  intros Hn Hlo. rewrite <- Z.shiftl_mul_pow2 by assumption.
  rewrite lor_shiftl by assumption. rewrite Z.shiftl_mul_pow2 by assumption.
  reflexivity.
Qed.

Lemma big_Uint16_be (x y : byte) (r : bytes) :
  big_Uint16 (x :: y :: r) = be [x; y].
Proof.
  unfold big_Uint16, be, idx. simpl.
  pose proof (b2z_range y). rewrite lor_shiftl by lia. lia.
Qed.

Lemma big_Uint32_be (x y z u : byte) (r : bytes) :
  big_Uint32 (x :: y :: z :: u :: r) = be [x; y; z; u].
Proof.
  unfold big_Uint32, be, idx. simpl.
  pose proof (b2z_range x). pose proof (b2z_range y).
  pose proof (b2z_range z). pose proof (b2z_range u).
  rewrite !Z.shiftl_mul_pow2 by lia.
  rewrite (lor_mul (b2z x) (b2z y * 2 ^ 16) 24) by lia.
  replace (b2z x * 2 ^ 24 + b2z y * 2 ^ 16)
    with ((b2z x * 2 ^ 8 + b2z y) * 2 ^ 16) by lia.
  rewrite (lor_mul _ (b2z z * 2 ^ 8) 16) by lia.
  replace ((b2z x * 2 ^ 8 + b2z y) * 2 ^ 16 + b2z z * 2 ^ 8)
    with ((b2z x * 2 ^ 16 + b2z y * 2 ^ 8 + b2z z) * 2 ^ 8) by lia.
  rewrite lor_mul by lia. lia.
Qed.

(** *** The prefix table agrees with the format *)

Definition table_check (lead : Z) : bool :=
  let s := sizes lead in
  match fixed_body lead with
  | Some n => (size s =? 1 + n) && (extra s =? constsize)
  | None => true
  end &&
  match counted_body lead with
  | Some (w, h) =>
      (size s =? 1 + Z.of_nat w + h) && (0 <=? h) &&
      match w with
      | 1%nat => extra s =? extra8
      | 2%nat => extra s =? extra16
      | 4%nat => extra s =? extra32
      | _ => false
      end
  | None => true
  end &&
  match container lead with
  | Some (w, per) =>
      (size s =? 1 + Z.of_nat w) && ((per =? 1) || (per =? 2)) &&
      match w with
      | 0%nat => extra s =? per * (lead mod 16)
      | 2%nat => extra s =? (if per =? 2 then map16v else array16v)
      | 4%nat => extra s =? (if per =? 2 then map32v else array32v)
      | _ => false
      end
  | None => true
  end.

Lemma table_checked (x : byte) : table_check (b2z x) = true.
Proof. destruct x; vm_compute; reflexivity. Qed.

Lemma getSize_cons (lead : byte) (rest : bytes) :
  getSize (lead :: rest) =
  let l := len (lead :: rest) in
  let size := size (sizes (b2z lead)) in
  let mode := extra (sizes (b2z lead)) in
  if size =? 0 then (0, 0, Some (InvalidPrefixError (b2z lead)))
  else if mode >=? 0 then (size, mode, None)
  else if l <? size then (0, 0, Some ErrShortBytes)
  else if mode =? extra8 then (size + idx (lead :: rest) 1, 0, None)
  else if mode =? extra16 then (size + big_Uint16 rest, 0, None)
  else if mode =? extra32 then (size + big_Uint32 rest, 0, None)
  else if mode =? map16v then (size, 2 * big_Uint16 rest, None)
  else if mode =? map32v then (size, 2 * big_Uint32 rest, None)
  else if mode =? array16v then (size, big_Uint16 rest, None)
  else if mode =? array32v then (size, big_Uint32 rest, None)
  else (0, 0, Some fatal).
Proof.
  unfold getSize.
  assert ((len (lead :: rest) =? 0) = false) as -> by (unfold len; simpl; lia).
  reflexivity.
Qed.

Lemma len_cons {A} (x : A) (l : list A) : len (x :: l) = 1 + len l.
Proof. unfold len. simpl length. lia. Qed.

Lemma len_app {A} (l1 l2 : list A) : len (l1 ++ l2) = len l1 + len l2.
Proof. unfold len. rewrite length_app. lia. Qed.

Lemma len_nonneg {A} (l : list A) : 0 <= len l.
Proof. unfold len. lia. Qed.

Lemma from_app_exact (n : Z) (l1 l2 : bytes) :
  n = len l1 -> from n (l1 ++ l2) = l2.
Proof.
  intros ->. unfold from, len. rewrite Nat2Z.id. apply drop_app_length.
Qed.

Lemma be_nonneg (l : bytes) : 0 <= be l.
Proof.
  unfold be.
  enough (forall a, 0 <= a -> 0 <= fold_left (fun acc x => acc * 256 + b2z x) l a)
    as Hf by (apply Hf; lia).
  induction l as [|x l IH]; intros a Ha; simpl; [assumption|].
  apply IH. pose proof (b2z_range x). lia.
Qed.

(** Decide the test of the first conditional of the goal, by evaluation or
    by linear arithmetic. *)
Ltac step_if :=
  match goal with
  | |- context [if ?c then _ else _] =>
      first [ replace c with true by (symmetry; first [reflexivity | lia])
            | replace c with false by (symmetry; first [reflexivity | lia]) ];
      cbv iota
  end.

Ltac split_andb :=
  repeat match goal with
         | H : _ && _ = true |- _ => apply andb_prop in H as [? ?]
         | H : (_ =? _) = true |- _ => apply Z.eqb_eq in H
         | H : (_ <=? _) = true |- _ => apply Z.leb_le in H
         | H : Nat.eqb _ _ = true |- _ => apply Nat.eqb_eq in H
         end.

(** [getSize] on an object without children: the whole object is the
    header, nothing follows. *)
Lemma getSize_leaf (lead : byte) (body t : bytes) :
  leaf_ok (b2z lead) body = true ->
  getSize (lead :: body ++ t) = (1 + len body, 0, None).
Proof.
  intros Hok. pose proof (table_checked lead) as Ht.
  unfold table_check, leaf_ok in *.
  rewrite getSize_cons. cbv zeta.
  pose proof (len_nonneg body) as Hb. pose proof (len_nonneg t) as Htl.
  rewrite len_cons, len_app.
  destruct (fixed_body (b2z lead)) as [n|].
  - split_andb. subst n.
    repeat match goal with H : _ (sizes _) = _ |- _ => rewrite H; clear H end.
    repeat step_if. reflexivity.
  - destruct (counted_body (b2z lead)) as [[w h]|]; [|discriminate].
    pose proof (be_nonneg (take w body)) as Hbe.
    destruct w as [|[|[|[|[|w]]]]]; split_andb; try discriminate;
      repeat match goal with H : _ (sizes _) = _ |- _ => rewrite H; clear H end;
      change (Z.of_nat 1) with 1 in *; change (Z.of_nat 2) with 2 in *;
      change (Z.of_nat 4) with 4 in *.
    + destruct body as [|x body]; [unfold len in *; simpl in *; lia|].
      simpl take in *. rewrite be_1 in *. repeat step_if.
      unfold idx. simpl app. simpl nth. do 2 f_equal. lia.
    + destruct body as [|x [|y body]]; try (unfold len in *; simpl in *; lia).
      change (take 2 (x :: y :: body)) with [x; y] in *.
      simpl app. rewrite big_Uint16_be. repeat step_if.
      do 2 f_equal. lia.
    + destruct body as [|x [|y [|z [|u body]]]];
        try (unfold len in *; simpl in *; lia).
      change (take 4 (x :: y :: z :: u :: body)) with [x; y; z; u] in *.
      simpl app. rewrite big_Uint32_be. repeat step_if.
      do 2 f_equal. lia.
Qed.

(** [getSize] on a container header: the header is the prefix and the
    count field, and one object follows per announced element, two per
    announced pair. *)
Lemma getSize_node (lead : byte) (count rest : bytes) (n : Z) :
  node_ok (b2z lead) count n = true ->
  getSize (lead :: count ++ rest) = (1 + len count, n, None).
Proof.
  intros Hok. pose proof (table_checked lead) as Ht.
  unfold table_check, node_ok in *.
  rewrite getSize_cons. cbv zeta.
  pose proof (len_nonneg rest) as Hr. pose proof (b2z_range lead) as Hlead.
  rewrite len_cons, len_app.
  apply andb_prop in Ht as [_ Ht].
  destruct (container (b2z lead)) as [[w per]|]; [|discriminate].
  apply andb_prop in Hok as [Hw Hn].
  apply Nat.eqb_eq in Hw. apply Z.eqb_eq in Hn. subst n.
  apply andb_prop in Ht as [Ht He]. apply andb_prop in Ht as [Hs Hper].
  apply Z.eqb_eq in Hs. rewrite Hs. clear Hs.
  assert (per = 1 \/ per = 2) as Hp
    by (apply orb_prop in Hper as [H|H]; apply Z.eqb_eq in H; auto).
  destruct w as [|[|[|[|[|w]]]]]; try discriminate;
    apply Z.eqb_eq in He; rewrite He; clear He;
    change (Z.of_nat 0) with 0 in *; change (Z.of_nat 2) with 2 in *;
    change (Z.of_nat 4) with 4 in *.
  - destruct count; [|discriminate]. unfold announced.
    assert (0 <= b2z lead mod 16) by (apply Z.mod_pos_bound; lia).
    change (len (@nil byte)) with 0.
    repeat step_if. reflexivity.
  - destruct count as [|x [|y [|? ?]]]; try discriminate.
    unfold announced. simpl app. rewrite big_Uint16_be.
    change (len [x; y]) with 2.
    destruct Hp as [-> | ->]; simpl; repeat step_if; do 2 f_equal; lia.
  - destruct count as [|x [|y [|z [|u [|? ?]]]]]; try discriminate.
    unfold announced. simpl app. rewrite big_Uint32_be.
    change (len [x; y; z; u]) with 4.
    destruct Hp as [-> | ->]; simpl; repeat step_if; do 2 f_equal; lia.
Qed.

(** *** [Skip] consumes exactly one object *)

Lemma Skip_n_children (children : list wobj) (t : bytes) :
  Forall (fun o => forall t, Skip (flatten o ++ t) = Some (t, None)) children ->
  Skip_n (length children) (concat (map flatten children) ++ t) = Some (t, None).
Proof.
  induction 1 as [|o os Ho _ IH]; simpl; [reflexivity|].
  rewrite <- List.app_assoc, Ho. exact IH.
Qed.

Lemma Skip_object (o : wobj) :
  wf o = true -> forall t : bytes, Skip (flatten o ++ t) = Some (t, None).
Proof.
  induction o as [lead body|lead count children IH] using wobj_ind';
    simpl; intros Hwf t.
  - rewrite Skip_eqn, (getSize_leaf _ _ _ Hwf).
    rewrite len_cons, len_app. pose proof (len_nonneg t).
    step_if. simpl Skip_n. f_equal. f_equal.
    change (lead :: body ++ t) with ((lead :: body) ++ t).
    apply from_app_exact. rewrite len_cons. reflexivity.
  - apply andb_prop in Hwf as [Hok Hall].
    rewrite <- List.app_assoc.
    rewrite Skip_eqn, (getSize_node _ _ _ _ Hok).
    rewrite len_cons, !len_app.
    pose proof (len_nonneg (concat (map flatten children))). pose proof (len_nonneg t).
    step_if.
    change (lead :: count ++ concat (map flatten children) ++ t)
      with ((lead :: count) ++ concat (map flatten children) ++ t).
    rewrite from_app_exact by (rewrite len_cons; reflexivity).
    unfold len. rewrite Nat2Z.id. apply Skip_n_children.
    rewrite List.Forall_forall in *. rewrite forallb_forall in Hall.
    intros c Hc. apply IH; [assumption|]. apply Hall. assumption.
Qed.

(** *** Map headers *)

Lemma getSize_fixmap (lead : byte) (rest : bytes) :
  isfixmap (b2z lead) = true ->
  getSize (lead :: rest) = (1, 2 * rfixmap (b2z lead), None).
Proof.
  intros H. rewrite getSize_cons.
  destruct lead; try (vm_compute in H; discriminate H); reflexivity.
Qed.

Lemma getSize_map16 (x y : byte) (rest : bytes) :
  getSize (xde :: x :: y :: rest) = (3, 2 * be [x; y], None).
Proof.
  apply (getSize_node xde [x; y] rest). unfold node_ok.
  change (container (b2z xde)) with (Some (2%nat, 2)).
  cbn [length Nat.eqb andb announced]. apply Z.eqb_refl.
Qed.

Lemma getSize_map32 (x y z u : byte) (rest : bytes) :
  getSize (xdf :: x :: y :: z :: u :: rest) = (5, 2 * be [x; y; z; u], None).
Proof.
  apply (getSize_node xdf [x; y; z; u] rest). unfold node_ok.
  change (container (b2z xdf)) with (Some (4%nat, 2)).
  cbn [length Nat.eqb andb announced]. apply Z.eqb_refl.
Qed.

(** The map of one pair, key "k", value the empty array. *)
Definition map_k_empty : wobj := Node x81 [] [Leaf xa1 [x6b]; Node x90 [] []].

(** C3.  [Skip] consumes exactly one top-level object.  It obtains
    [(n, m)] from the prefix through [getSize], fails if fewer than [n] bytes
    are there, slices [n] bytes off and skips [m] further objects; a map
    header that announces N pairs (in the prefix, or in a 16- or 32-bit count
    field) yields [m = 2 * N]; hence on every well-formed encoded object
    followed by any tail it returns that tail with a nil error; and on
    [81 a1 6b 90] it returns the empty tail. *)
Theorem Skip_one_object :
  (forall b : bytes,
      Skip b =
      let '(n, m, err) := getSize b in
      match err with
      | Some e => Some (b, Some e)
      | None =>
          if len b <? n then Some (b, Some ErrShortBytes)
          else Skip_n (Z.to_nat m) (from n b)
      end) /\
  (forall (lead : byte) (rest : bytes),
      isfixmap (b2z lead) = true ->
      getSize (lead :: rest) = (1, 2 * rfixmap (b2z lead), None)) /\
  (forall (x y : byte) (rest : bytes),
      getSize (xde :: x :: y :: rest) = (3, 2 * be [x; y], None)) /\
  (forall (x y z u : byte) (rest : bytes),
      getSize (xdf :: x :: y :: z :: u :: rest) = (5, 2 * be [x; y; z; u], None)) /\
  (forall (o : wobj) (t : bytes),
      wf o = true -> Skip (flatten o ++ t) = Some (t, None)) /\
  Skip [x81; xa1; x6b; x90] = Some ([], None).
Proof.
  split; [exact Skip_eqn|].
  split; [exact getSize_fixmap|].
  split; [exact getSize_map16|].
  split; [exact getSize_map32|].
  split; [intros o t H; apply Skip_object; exact H|].
  reflexivity.
Qed.

Lemma Skip_one_object_witness :
  wf map_k_empty = true /\
  flatten map_k_empty = [x81; xa1; x6b; x90] /\
  isfixmap (b2z x81) = true /\
  getSize (x81 :: [xa1; x6b; x90]) = (1, 2 * rfixmap (b2z x81), None) /\
  Skip (flatten map_k_empty ++ [xc0]) = Some ([xc0], None).
Proof.
  split; [reflexivity|]. split; [reflexivity|]. split; [reflexivity|].
  split.
  - apply (proj1 (proj2 Skip_one_object)). reflexivity.
  - apply (proj1 (proj2 (proj2 (proj2 (proj2 Skip_one_object))))). reflexivity.
Defined.

End WireObject.

(** ** The Raw passthrough object *)

Module RawObj.

(** Modelled from the spec: [AppendNil], of the reciprocal encoder, which is
    not in the source files at hand: "marshaling a zero-length Raw emits nil
    (0xc0)". *)
Definition AppendNil (b : bytes) : bytes := b ++ [xc0].

(** Modelled from the spec: the helper [ensure(b, sz)] of the encoder, which
    is not in the source files at hand.  It returns [b] extended by [sz]
    bytes, and the old length; the contents of the extension are whatever
    the (possibly fresh) backing array holds, zeroes here.  [MarshalMsg]
    overwrites all of them. *)
Definition ensure (b : bytes) (sz : Z) : bytes * Z :=
  (b ++ repeat x00 (Z.to_nat sz), len b).

(** Go's [copy(dst, src)]: the first [min(len(dst), len(src))] bytes of
    [dst] are replaced.  The result is [dst] after the copy. *)
Definition copy (dst src : bytes) : bytes :=
  take (length dst) src ++ drop (length src) dst.

(** [Raw.MarshalMsg].  [copy(o[l:], r)] writes through the slice [o[l:]]
    into [o]; the result is [o] with that region replaced. *)
Definition MarshalMsg (r b : bytes) : bytes * option error :=
  let i := len r in
  if i =? 0 then (AppendNil b, None)
  else
    let '(o, l) := ensure b i in
    (upto l o ++ copy (from l o) r, None).

(** [Raw.Msgsize]. *)
Definition Msgsize (r : bytes) : Z :=
  let l := len r in
  if l =? 0 then 1 else l.

Example MarshalMsg_empty : MarshalMsg [] [x01] = ([x01; xc0], None).
Proof. reflexivity. Qed.

Example MarshalMsg_two : MarshalMsg [x93; xc0] [x01] = ([x01; x93; xc0], None).
Proof. reflexivity. Qed.

Lemma copy_same_length (dst src : bytes) :
  length dst = length src -> copy dst src = src.
Proof.
  intros H. unfold copy. rewrite H, firstn_all, <- H, drop_all. apply app_nil_r.
Qed.

(** C10.  For every Raw value [r] and buffer [b], [r.MarshalMsg(b)]
    succeeds and returns [b] followed by exactly [r.Msgsize()] bytes: the nil
    byte [0xc0] when [r] is empty (and [Msgsize] is 1), the bytes of [r]
    otherwise (and [Msgsize] is [len(r)]). *)
Theorem MarshalMsg_exact_size (r b : bytes) :
  let appended := if len r =? 0 then [xc0] else r in
  MarshalMsg r b = (b ++ appended, None) /\
  len appended = Msgsize r /\
  Msgsize r = (if len r =? 0 then 1 else len r).
Proof.
  unfold MarshalMsg, Msgsize, ensure, AppendNil. cbv zeta.
  destruct (len r =? 0) eqn:Hr.
  - repeat split; reflexivity.
  - repeat split. f_equal. unfold upto, from, len.
    rewrite !Nat2Z.id, take_app_length, drop_app_length.
    rewrite copy_same_length by apply repeat_length. reflexivity.
Qed.

End RawObj.

(** ** The size generator (package gen) *)

Module Gen.

Local Open Scope string_scope.

(** The line feed, Go's ["\n"]. *)
Definition nl : string := String (ascii_of_nat 10) "".

(** [strconv.Itoa]. *)
Definition Itoa (z : Z) : string := NilZero.string_of_int (Z.to_int z).

(** [sizeState]. *)
Inductive sizeState : Set :=
| assign   (* need to write "s = ..." *)
| add      (* need to write "s += ..." *)
| expr.    (* can just append "+ ..." *)

(** Modelled from the spec: the [printer] the generator emits into ("an
    external Printer (writer-backed) that exposes print(s), printf(fmt, ...),
    ..."), which is declared outside the source files at hand.  It holds what
    has been written and the first write error; once an error is recorded
    nothing more is written.  The writer is an in-memory buffer. *)
Record printer : Set := mkprinter { out : string; err : option error }.

Definition ok (p : printer) : bool :=
  match err p with
  | None => true
  | Some _ => false
  end.

Definition print (format : string) (p : printer) : printer :=
  if ok p then mkprinter (out p ++ format) None else p.

(** [sizeGen]: the printer, the state, and the number of identifiers
    [randIdent] has handed out. *)
Record sizeGen : Set := mkgen { p : printer; state : sizeState; idents : nat }.

Definition with_p (f : printer -> printer) (s : sizeGen) : sizeGen :=
  mkgen (f (p s)) (state s) (idents s).

Definition set_state (st : sizeState) (s : sizeGen) : sizeGen :=
  mkgen (p s) st (idents s).

(** [sizes(w)]. *)
Definition sizes : sizeGen := mkgen (mkprinter "" None) assign 0.

Definition builtinSize (typ : string) : string := "msgp." ++ typ ++ "Size".

(** [addConstant]: this lets us chain together addition operations where
    possible. *)
Definition addConstant (sz : string) (s : sizeGen) : sizeGen :=
  if negb (ok (p s)) then s
  else
    match state s with
    | assign => set_state expr (with_p (print (nl ++ "s = " ++ sz)) s)
    | add => set_state expr (with_p (print (nl ++ "s += " ++ sz)) s)
    | expr => with_p (print (" + " ++ sz)) s
    end.

(** *** The element tree *)

Module Primitive.
Inductive primitive : Set :=
| Invalid | Bytes | String | Float32 | Float64 | Complex64 | Complex128
| Uint | Uint8 | Uint16 | Uint32 | Uint64 | Byte
| Int | Int8 | Int16 | Int32 | Int64 | Bool | Intf | Time | Ext | IDENT
| Nil.
End Primitive.
Abbreviation primitive := Primitive.primitive.

Inductive shimmode : Set := Cast | Convert.

(** A [BaseElem], with the results of the accessors the generator calls on
    it ([Varname()], [BaseName()], [BaseType()], [toBaseConvert()]) as
    fields, as in the data model of the specification. *)
Record BaseElem : Set := mkbase {
  Value : primitive;
  Varname : string;
  ConvertFlag : bool;
  ShimMode : shimmode;
  BaseName : string;
  BaseType : string;
  toBaseConvert : string
}.

#[local] Unset Elimination Schemes.
Inductive Elem : Set :=
| Struct (Fields : list (string * Elem)) (AsTuple : bool)
| Ptr (Value : Elem) (Varname : string)
| Slice (Els : Elem) (Index Varname : string)
| Array (Els : Elem) (Size Index Varname : string)
| Map (Value : Elem) (KeyIndx ValIndx Varname : string)
| Base (b : BaseElem).
#[local] Set Elimination Schemes.

(** Modelled from the spec: the lengths of the headers the reciprocal
    encoder writes ([len(msgp.AppendMapHeader(nil, n))],
    [len(msgp.AppendArrayHeader(nil, n))], [len(msgp.AppendString(nil, s))]),
    which is not in the source files at hand: fixmap / fixarray hold up to 15
    in the prefix byte, then come the 16-bit and 32-bit forms; fixstr holds up
    to 31 bytes, then str8, str16 and str32. *)
Definition header_len (n : Z) : Z :=
  (if n <=? 15 then 1 else if n <=? 65535 then 3 else 5)%Z.

Definition string_len (s : string) : Z :=
  let l := Z.of_nat (String.length s) in
  (if l <=? 31 then 1 + l
   else if l <=? 255 then 2 + l
   else if l <=? 65535 then 3 + l
   else 5 + l)%Z.

(** Modelled from the spec: the names [arrayHeader] and [mapHeader] of the
    header size constants, declared elsewhere in package gen. *)
Definition arrayHeader : string := "ArrayHeader".
Definition mapHeader : string := "MapHeader".

Definition primitive_eqb (a b : primitive) : bool :=
  match a, b with
  | Primitive.Intf, Primitive.Intf | Primitive.Ext, Primitive.Ext
  | Primitive.IDENT, Primitive.IDENT | Primitive.Bytes, Primitive.Bytes
  | Primitive.String, Primitive.String => true
  | _, _ => false
  end.

(** [fixedSize] says if a given primitive is always the same (max) size on
    the wire. *)
Definition fixedSize (p : primitive) : bool :=
  negb (primitive_eqb p Primitive.Intf) && negb (primitive_eqb p Primitive.Ext)
  && negb (primitive_eqb p Primitive.IDENT) && negb (primitive_eqb p Primitive.Bytes)
  && negb (primitive_eqb p Primitive.String).

(** [stripRef] strips the address operator "&" from s. *)
Definition stripRef (s : string) : string :=
  match s with
  | String "&" rest => rest
  | _ => s
  end.

(** [lenExpr] returns "len(sliceName)". *)
Definition lenExpr (varname : string) : string := "len(" ++ varname ++ ")".

(** [baseSizeExpr]: print size expression of a variable name. *)
Definition baseSizeExpr (value : primitive) (vname basename : string) : string :=
  match value with
  | Primitive.Ext => "msgp.ExtensionPrefixSize + " ++ stripRef vname ++ ".Len()"
  | Primitive.Intf => "msgp.GuessSize(" ++ vname ++ ")"
  | Primitive.IDENT => vname ++ ".Msgsize()"
  | Primitive.Bytes => "msgp.BytesPrefixSize + len(" ++ vname ++ ")"
  | Primitive.String => "msgp.StringPrefixSize + len(" ++ vname ++ ")"
  | _ => builtinSize basename
  end.

Definition string_eqb_empty (s : string) : bool :=
  match s with
  | EmptyString => true
  | _ => false
  end.

(** [fixedSizeExpr]: return a fixed-size expression, if possible. *)
Fixpoint fixedSizeExpr (e : Elem) : string * bool :=
  match e with
  | Array els size _ _ =>
      let '(str, okk) := fixedSizeExpr els in
      if okk then ("(" ++ size ++ " * (" ++ str ++ "))", true) else ("", false)
  | Base b =>
      if fixedSize (Value b) then (builtinSize (BaseName b), true) else ("", false)
  | Struct fields _ =>
      let fix fold (fs : list (string * Elem)) (str : string) : option string :=
        match fs with
        | [] => Some str
        | (_, fe) :: fs' =>
            let '(fstr, okk) := fixedSizeExpr fe in
            if okk then
              fold fs' (if string_eqb_empty str then fstr else str ++ "+" ++ fstr)
            else None
        end in
      match fold fields "" with
      | None => ("", false)
      | Some str =>
          let hdrlen :=
            fold_left (fun h f => h + string_len (fst f)) fields
                      (header_len (to_uint 32 (len fields))) in
          (Itoa hdrlen ++ " + " ++ str, true)
      end
  | _ => ("", false)
  end.

(** *** The visitor *)

Section Visitor.

(** The pieces of package gen that the visitor calls and that are not in the
    source files at hand: the identifiers [randIdent()] hands out, and the
    text that [declare], [closeBlock] and the head of [rangeBlock] print. *)
Variable randIdent : nat -> string.
Variable declareText : string -> string -> string.
Variable closeBlockText : string.
Variable rangeHeadText : string -> string -> string.

Definition closeBlock (s : sizeGen) : sizeGen := with_p (print closeBlockText) s.

(** [gBase]. *)
Definition gBase (b : BaseElem) (s : sizeGen) : sizeGen :=
  if negb (ok (p s)) then s
  else
    match ConvertFlag b, ShimMode b with
    | true, Convert =>
        let s := set_state add s in
        let vname := randIdent (idents s) in
        let s := mkgen (p s) (state s) (S (idents s)) in
        let s := with_p (print (declareText vname (BaseType b))) s in
        let s := with_p (print (nl ++ "_ = " ++ Varname b)) s in
        let s := with_p (print (nl ++ "s += " ++
                                baseSizeExpr (Value b) vname (BaseName b))) s in
        set_state expr s
    | conv, _ =>
        let vname := if conv then toBaseConvert b else Varname b in
        addConstant (baseSizeExpr (Value b) vname (BaseName b)) s
    end.

(** [next] dispatches on the element; the cases are [gStruct], [gPtr],
    [gSlice], [gArray], [gMap] and [gBase]. *)
Fixpoint next (e : Elem) (s : sizeGen) : sizeGen :=
  match e with
  | Struct fields asTuple =>
      (* gStruct *)
      if negb (ok (p s)) then s
      else
        let nfields := to_uint 32 (len fields) in
        if asTuple then
          let s := addConstant (Itoa (header_len nfields)) s in
          (fix loop (fs : list (string * Elem)) (s : sizeGen) : sizeGen :=
             match fs with
             | [] => s
             | (_, fe) :: fs' =>
                 if negb (ok (p s)) then s else loop fs' (next fe s)
             end) fields s
        else
          let s := addConstant (Itoa (header_len nfields)) s in
          (fix loop (fs : list (string * Elem)) (s : sizeGen) : sizeGen :=
             match fs with
             | [] => s
             | (tag, fe) :: fs' =>
                 loop fs' (next fe (addConstant (Itoa (string_len tag)) s))
             end) fields s
  | Ptr value varname =>
      (* gPtr *)
      let s := set_state add s in
      let s := with_p (print (nl ++ "if " ++ varname ++ " == nil {" ++ nl ++
                              "s += msgp.NilSize" ++ nl ++ "} else {")) s in
      let s := next value s in
      let s := set_state add s in
      closeBlock s
  | Slice els index varname =>
      (* gSlice *)
      if negb (ok (p s)) then s
      else
        let s := addConstant (builtinSize arrayHeader) s in
        let '(str, okk) := fixedSizeExpr els in
        if okk then
          addConstant ("(" ++ lenExpr varname ++ " * (" ++ str ++ "))") s
        else
          let s := set_state add s in
          let s := with_p (print (rangeHeadText index varname)) s in
          let s := next els s in
          let s := closeBlock s in
          set_state add s
  | Array els size index varname =>
      (* gArray *)
      if negb (ok (p s)) then s
      else
        let s := addConstant (builtinSize arrayHeader) s in
        let '(str, okk) := fixedSizeExpr (Array els size index varname) in
        if okk then addConstant str s
        else
          let s := set_state add s in
          let s := with_p (print (rangeHeadText index varname)) s in
          let s := next els s in
          let s := closeBlock s in
          set_state add s
  | Map value keyIndx valIndx varname =>
      (* gMap *)
      let s := addConstant (builtinSize mapHeader) s in
      let s := with_p (print (nl ++ "if " ++ varname ++ " != nil {")) s in
      let s := with_p (print (nl ++ "for " ++ keyIndx ++ ", " ++ valIndx ++
                              " := range " ++ varname ++ " {")) s in
      let s := with_p (print (nl ++ "_ = " ++ valIndx)) s in
      let s := with_p (print (nl ++ "s += msgp.StringPrefixSize + len(" ++
                              keyIndx ++ ")")) s in
      let s := set_state expr s in
      let s := next value s in
      let s := closeBlock s in
      let s := closeBlock s in
      set_state add s
  | Base b => gBase b s
  end.

Definition gStruct (fields : list (string * Elem)) (asTuple : bool) :=
  next (Struct fields asTuple).

(** The body that [Execute] emits for [p]: [s.state = assign; next(s, p)]. *)
Definition body (e : Elem) (s : sizeGen) : sizeGen :=
  next e (set_state assign s).

End Visitor.

(** *** Reading an emitted body back *)

(** Modelled from the spec: the size constants "declared in the codec
    library" that a generated body refers to; each is the largest wire form
    of its type, prefix byte included ("5 bytes for the maximum int32 wire
    form", "5 bytes for array32"). *)
Definition msgp_const (name : string) : option Z :=
  if String.eqb name "msgp.NilSize" then Some 1%Z
  else if String.eqb name "msgp.BoolSize" then Some 1%Z
  else if String.eqb name "msgp.Int8Size" then Some 2%Z
  else if String.eqb name "msgp.Int16Size" then Some 3%Z
  else if String.eqb name "msgp.Int32Size" then Some 5%Z
  else if String.eqb name "msgp.Int64Size" then Some 9%Z
  else if String.eqb name "msgp.Uint8Size" then Some 2%Z
  else if String.eqb name "msgp.Uint16Size" then Some 3%Z
  else if String.eqb name "msgp.Uint32Size" then Some 5%Z
  else if String.eqb name "msgp.Uint64Size" then Some 9%Z
  else if String.eqb name "msgp.Float32Size" then Some 5%Z
  else if String.eqb name "msgp.Float64Size" then Some 9%Z
  else if String.eqb name "msgp.ArrayHeaderSize" then Some 5%Z
  else if String.eqb name "msgp.MapHeaderSize" then Some 5%Z
  else None.

(** The value of one term: a codec constant or a decimal literal. *)
Definition term_value (t : string) : option Z :=
  match msgp_const t with
  | Some v => Some v
  | None => option_map Z.of_uint (NilEmpty.uint_of_string t)
  end.

(** The terms of a right-hand side, which " + " separates. *)
Fixpoint terms (s cur : string) : list string :=
  match s with
  | EmptyString => [cur]
  | String " " (String "+" (String " " rest)) => cur :: terms rest ""
  | String c rest => terms rest (cur ++ String c "")
  end.

Fixpoint strip_prefix (pre s : string) : option string :=
  match pre, s with
  | EmptyString, _ => Some s
  | String a pre', String b s' =>
      if Ascii.eqb a b then strip_prefix pre' s' else None
  | _, _ => None
  end.

Fixpoint sum_terms (ts : list string) : option Z :=
  match ts with
  | [] => Some 0%Z
  | t :: ts' =>
      match term_value t, sum_terms ts' with
      | Some v, Some w => Some (v + w)%Z
      | _, _ => None
      end
  end.

(** [constant_body text = Some v]: the emitted body is the single statement
    [s = t1 + ... + tn], every term a constant, and the terms add up to [v].
    Any loop, branch, [len(..)] or second statement makes it [None]. *)
Definition constant_body (text : string) : option Z :=
  match strip_prefix (nl ++ "s = ") text with
  | Some rhs => sum_terms (terms rhs "")
  | None => None
  end.

Example constant_body_slice :
  constant_body (nl ++ "s = msgp.ArrayHeaderSize + (len(z) * (msgp.Int8Size))") = None.
Proof. reflexivity. Qed.

(** *** The three-state rule *)

(** Once the printer has failed, [addConstant] does nothing. *)
Lemma addConstant_failed (sz : string) (s : sizeGen) :
  ok (p s) = false -> addConstant sz s = s.
Proof. intros H. unfold addConstant. rewrite H. reflexivity. Qed.

(** C7.  Every term that [addConstant] emits follows the three-state rule:
    in state [assign] a line feed and [s = <term>] are printed, in state
    [add] a line feed and [s += <term>], in state [expr] the text
    [ + <term>] is appended; the state afterwards is [expr] in all three
    cases. *)
Theorem addConstant_three_state (sz : string) (s : sizeGen) :
  ok (p s) = true ->
  out (p (addConstant sz s)) =
    out (p s) ++
    match state s with
    | assign => nl ++ "s = " ++ sz
    | add => nl ++ "s += " ++ sz
    | expr => " + " ++ sz
    end /\
  state (addConstant sz s) = expr /\
  ok (p (addConstant sz s)) = true.
Proof.
  intros H. unfold addConstant. rewrite H. simpl negb. cbv iota.
  destruct s as [pr st n]. simpl in *.
  destruct st; unfold with_p, set_state, print; simpl; rewrite H; simpl;
    repeat split; reflexivity.
Qed.

Lemma addConstant_three_state_witness :
  ok (p sizes) = true /\
  out (p (addConstant "1" sizes)) = nl ++ "s = 1" /\
  state (addConstant "1" sizes) = expr.
Proof.
  split; [reflexivity|].
  pose proof (addConstant_three_state "1" sizes eq_refl) as [H1 [H2 _]].
  split; [exact H1|exact H2].
Defined.

(** *** The struct with one int32 field *)

(** [Struct{fields: [("x", BaseElem(Int32))]}], not a tuple, the field not
    shimmed. *)
Definition struct_x_int32 (varname baseType : string) : Elem :=
  Struct [("x", Base (mkbase Primitive.Int32 varname false Cast "Int32" baseType ""))]
         false.

(** C6.  For the struct with the single field "x" of primitive Int32 the
    generator emits the one statement [s = 1 + 2 + msgp.Int32Size]: 1 for the
    map header, 2 for the encoded tag "x", and the codec constant of the
    int32 wire form, which is 5; the right-hand side is a sum of constants
    that evaluates to 8, and nothing else (no loop, no branch) is emitted. *)
Theorem struct_x_int32_size
    (randIdent : nat -> string) (declareText : string -> string -> string)
    (closeBlockText : string) (rangeHeadText : string -> string -> string)
    (varname baseType : string) :
  let s := body randIdent declareText closeBlockText rangeHeadText
             (struct_x_int32 varname baseType) sizes in
  out (p s) = nl ++ "s = 1 + 2 + msgp.Int32Size" /\
  err (p s) = None /\
  state s = expr /\
  constant_body (out (p s)) = Some 8%Z /\
  header_len 1 = 1%Z /\ string_len "x" = 2%Z /\
  msgp_const "msgp.Int32Size" = Some 5%Z.
Proof. repeat split; reflexivity. Qed.

End Gen.

(** ** The JSON transcoder *)

Module JSON.

(** *** Writers *)

(** [jsWriter]: [io.Writer], [io.ByteWriter] and [WriteString].  A method
    returns the writer after the call together with Go's results. *)
Class jsWriter (W : Type) : Type := {
  Write : bytes -> W -> W * (Z * option error);
  WriteByte : byte -> W -> W * option error;
  WriteString : bytes -> W -> W * (Z * option error)
}.

(** [bytes.Buffer], the writer of [Raw.MarshalJSON]: it appends, and never
    fails. *)
#[export] Instance Buffer : jsWriter bytes := {
  Write b w := (w ++ b, (len b, None));
  WriteByte c w := (w ++ [c], None);
  WriteString b w := (w ++ b, (len b, None))
}.

(** A writer that accepts [room] more bytes and then fails, as a full
    device would. *)
Record limited : Set := mklimited { written : bytes; room : Z }.

Definition limited_write (b : bytes) (w : limited) : limited * (Z * option error) :=
  if len b <=? room w then
    (mklimited (written w ++ b) (room w - len b), (len b, None))
  else
    (mklimited (written w ++ upto (room w) b) 0,
     (room w, Some (OtherError "short write"))).

#[export] Instance Limited : jsWriter limited := {
  Write := limited_write;
  WriteByte c w := let '(w', (_, e)) := limited_write [c] w in (w', e);
  WriteString := limited_write
}.

(** A Go string literal as bytes. *)
Definition lit (s : string) : bytes := list_byte_of_string s.

Definition hex : bytes := lit "0123456789abcdef".

(** *** [utf8.DecodeRune] *)

Definition RuneSelf : Z := 0x80.
Definition RuneError : Z := 0xFFFD.

(** [utf8.DecodeRune] of the Go standard library: the first rune of [p] and
    its width in bytes; [(RuneError, 0)] on the empty slice and
    [(RuneError, 1)] on an encoding that is invalid (a stray continuation
    byte, a truncated or overlong sequence, a surrogate, a value above
    U+10FFFF). *)
Definition DecodeRune (p : bytes) : Z * Z :=
  let n := len p in
  if n <? 1 then (RuneError, 0)
  else
    let p0 := idx p 0 in
    if p0 <? 0x80 then (p0, 1)
    else if (p0 <? 0xC2) || (0xF4 <? p0) then (RuneError, 1)
    else
      let sz := if p0 <? 0xE0 then 2 else if p0 <? 0xF0 then 3 else 4 in
      let lo := if p0 =? 0xE0 then 0xA0 else if p0 =? 0xF0 then 0x90 else 0x80 in
      let hi := if p0 =? 0xED then 0x9F else if p0 =? 0xF4 then 0x8F else 0xBF in
      if n <? sz then (RuneError, 1)
      else
        let b1 := idx p 1 in
        if (b1 <? lo) || (hi <? b1) then (RuneError, 1)
        else if sz <=? 2 then
          (Z.lor (Z.shiftl (Z.land p0 0x1F) 6) (Z.land b1 0x3F), 2)
        else
          let b2 := idx p 2 in
          if (b2 <? 0x80) || (0xBF <? b2) then (RuneError, 1)
          else if sz <=? 3 then
            (Z.lor (Z.lor (Z.shiftl (Z.land p0 0x0F) 12)
                          (Z.shiftl (Z.land b1 0x3F) 6)) (Z.land b2 0x3F), 3)
          else
            let b3 := idx p 3 in
            if (b3 <? 0x80) || (0xBF <? b3) then (RuneError, 1)
            else
              (Z.lor (Z.lor (Z.lor (Z.shiftl (Z.land p0 0x07) 18)
                                   (Z.shiftl (Z.land b1 0x3F) 12))
                            (Z.shiftl (Z.land b2 0x3F) 6)) (Z.land b3 0x3F), 4).

Example DecodeRune_2028 : DecodeRune [xe2; x80; xa8; x61] = (0x2028, 3).
Proof. reflexivity. Qed.

Example DecodeRune_eacute : DecodeRune [xc3; xa9] = (0xE9, 2).
Proof. reflexivity. Qed.

Example DecodeRune_stray : DecodeRune [x80; x61] = (RuneError, 1).
Proof. reflexivity. Qed.

Example DecodeRune_fffd : DecodeRune [xef; xbf; xbd] = (RuneError, 3).
Proof. reflexivity. Qed.

(** *** [rwQuoted] *)

Section Quoting.
Context {W : Type} `{jsWriter W}.

(** The results [(n, err)] of a transcoding function, with the writer. *)
Definition wres : Type := (W * (Z * option error))%type.

(** [err = dst.WriteByte(c); if err != nil { return }; n++]. *)
Definition byte_then (c : byte) (k : W -> Z -> option wres) (w : W) (n : Z)
  : option wres :=
  match WriteByte c w with
  | (w', Some e) => Some (w', (n, Some e))
  | (w', None) => k w' (n + 1)
  end.

(** [nn, err = dst.Write(b); n += nn; if err != nil { return }], and the same
    with [WriteString]. *)
Definition write_then (b : bytes) (k : W -> Z -> option wres) (w : W) (n : Z)
  : option wres :=
  match Write b w with
  | (w', (nn, Some e)) => Some (w', (n + nn, Some e))
  | (w', (nn, None)) => k w' (n + nn)
  end.

Definition string_then (b : bytes) (k : W -> Z -> option wres) (w : W) (n : Z)
  : option wres :=
  match WriteString b w with
  | (w', (nn, Some e)) => Some (w', (n + nn, Some e))
  | (w', (nn, None)) => k w' (n + nn)
  end.

(** [if start < i { nn, err = dst.Write(s[start:i]); ... }]. *)
Definition flush_then (s : bytes) (start i : Z) (k : W -> Z -> option wres)
  : W -> Z -> option wres :=
  if start <? i then write_then (upto (i - start) (from start s)) k else k.

Definition plain (b : Z) : bool :=
  (0x20 <=? b) && negb (b =? 0x5c) && negb (b =? 0x22) &&
  negb (b =? 0x3c) && negb (b =? 0x3e) && negb (b =? 0x26).

(** The [for i := 0; i < len(s);] loop of [rwQuoted] and what follows it.
    Every iteration advances [i], so [len(s) - i] iterations suffice, which
    is what [fuel] counts; [None] is "out of fuel". *)
Fixpoint rwQuoted_loop (fuel : nat) (s : bytes) (start i : Z) (w : W) (n : Z)
  : option wres :=
  if i <? len s then
    match fuel with
    | O => None
    | S fuel' =>
        let b := idx s (Z.to_nat i) in
        if b <? RuneSelf then
          if plain b then rwQuoted_loop fuel' s start (i + 1) w n
          else
            flush_then s start i
              (fun w n =>
                 let continue := rwQuoted_loop fuel' s (i + 1) (i + 1) in
                 if (b =? 0x5c) || (b =? 0x22) then
                   byte_then x5c (byte_then (z2b b) continue) w n
                 else if b =? 0x0a then
                   byte_then x5c (byte_then x6e continue) w n
                 else if b =? 0x0d then
                   byte_then x5c (byte_then x72 continue) w n
                 else
                   string_then (lit "\u00")
                     (byte_then (nth (Z.to_nat (Z.shiftr b 4)) hex x00)
                        (byte_then (nth (Z.to_nat (Z.land b 0xF)) hex x00)
                           continue)) w n) w n
        else
          let '(c, size) := DecodeRune (from i s) in
          let rest :=
            (* the code after the [RuneError] test *)
            fun w n =>
              if (c =? 0x2028) || (c =? 0x2029) then
                if start <? i then
                  write_then (upto (i - start) (from start s))
                    (string_then (lit "\u202")
                       (byte_then (nth (Z.to_nat (Z.land c 0xF)) hex x00)
                          (rwQuoted_loop fuel' s start (i + size)))) w n
                else rwQuoted_loop fuel' s start (i + size) w n
              else rwQuoted_loop fuel' s start (i + size) w n in
          if (c =? RuneError) && (size =? 1) then
            if start <? i then
              write_then (upto (i - start) (from start s))
                (string_then (lit "\ufffd")
                   (rwQuoted_loop fuel' s (i + size) (i + size))) w n
            else rest w n
          else rest w n
    end
  else
    flush_then s start (len s)
      (byte_then x22 (fun w n => Some (w, (n, None)))) w n.

(** [rwQuoted(dst, s)]. *)
Definition rwQuoted (dst : W) (s : bytes) : option wres :=
  byte_then x22 (rwQuoted_loop (length s) s 0 0) dst 0.

End Quoting.

Example rwQuoted_plain :
  rwQuoted [] (lit "ab") = Some (x22 :: lit "ab" ++ [x22], (4, None)).
Proof. reflexivity. Qed.

Example rwQuoted_escapes :
  rwQuoted [] [x61; x22; x0a; x01; x3c] =
  Some ([x22] ++ lit "a\" ++ [x22] ++ lit "\n\u0001\u003c" ++ [x22], (19, None)).
Proof. reflexivity. Qed.

Example rwQuoted_limited :
  rwQuoted (mklimited [] 2) (lit "abc") =
  Some (mklimited (x22 :: lit "a") 0, (2, Some (OtherError "short write"))).
Proof. reflexivity. Qed.

(** C4.  The claim is that U+2028 and U+2029 always come out as their
    escapes and never as raw bytes.  In [rwQuoted] the escape of U+2028 /
    U+2029 sits inside [if start < i], and [start] is not moved past the rune.
    A separator at the start of the pending run is therefore copied through
    raw (first equation: the output holds [E2 80 A8] and no escape), and one
    that follows pending text is escaped and then written again, raw and
    with the text before it, by the next flush (second and third
    equations). *)
Theorem rwQuoted_line_separator :
  rwQuoted [] [xe2; x80; xa8] = Some ([x22; xe2; x80; xa8; x22], (5, None)) /\
  rwQuoted [] (lit "a" ++ [xe2; x80; xa8]) =
    Some ([x22] ++ lit "a\u2028a" ++ [xe2; x80; xa8] ++ [x22], (13, None)) /\
  rwQuoted [] (lit "a" ++ [xe2; x80; xa9] ++ lit "b") =
    Some ([x22] ++ lit "a\u2029a" ++ [xe2; x80; xa9] ++ lit "b" ++ [x22], (14, None)).
Proof. repeat split; reflexivity. Qed.

(** *** [rwQuoted] returns *)

Section QuotingTotal.
Context {W : Type} `{jsWriter W}.

Lemma byte_then_Some (c : byte) (k : W -> Z -> option wres) :
  (forall w n, is_Some (k w n)) -> forall w n, is_Some (byte_then c k w n).
Proof.
  intros Hk w n. unfold byte_then.
  destruct (WriteByte c w) as [w' [e|]]; [eexists; reflexivity|apply Hk].
Qed.

Lemma write_then_Some (b : bytes) (k : W -> Z -> option wres) :
  (forall w n, is_Some (k w n)) -> forall w n, is_Some (write_then b k w n).
Proof.
  intros Hk w n. unfold write_then.
  destruct (Write b w) as [w' [nn [e|]]]; [eexists; reflexivity|apply Hk].
Qed.

Lemma string_then_Some (b : bytes) (k : W -> Z -> option wres) :
  (forall w n, is_Some (k w n)) -> forall w n, is_Some (string_then b k w n).
Proof.
  intros Hk w n. unfold string_then.
  destruct (WriteString b w) as [w' [nn [e|]]]; [eexists; reflexivity|apply Hk].
Qed.

Lemma flush_then_Some (s : bytes) (start i : Z) (k : W -> Z -> option wres) :
  (forall w n, is_Some (k w n)) -> forall w n, is_Some (flush_then s start i k w n).
Proof.
  intros Hk. unfold flush_then.
  destruct (start <? i); [apply write_then_Some|]; assumption.
Qed.

(** A rune of a non-empty slice is at least one byte wide. *)
Lemma DecodeRune_size (p : bytes) : 1 <= len p -> 1 <= (DecodeRune p).2.
Proof.
  intros Hp. unfold DecodeRune.
  assert ((len p <? 1) = false) as -> by lia.
  repeat match goal with
         | |- context [if ?c then _ else _] => destruct c
         end; simpl; lia.
Qed.

Lemma rwQuoted_loop_Some (fuel : nat) :
  forall (s : bytes) (start i : Z) (w : W) (n : Z),
    0 <= i -> len s - i <= Z.of_nat fuel ->
    is_Some (rwQuoted_loop fuel s start i w n).
Proof.
  induction fuel as [|fuel IH]; intros s start i w n Hi Hf.
  - simpl. assert ((i <? len s) = false) as -> by lia.
    apply flush_then_Some. apply byte_then_Some. intros; eexists; reflexivity.
  - simpl. destruct (i <? len s) eqn:Hlt.
    2: { apply flush_then_Some. apply byte_then_Some.
         intros; eexists; reflexivity. }
    assert (forall st j, i + 1 <= j -> forall w n,
               is_Some (rwQuoted_loop fuel s st j w n)) as Hnext
      by (intros st j Hj w0 n0; apply IH; lia).
    destruct (idx s (Z.to_nat i) <? RuneSelf).
    + destruct (plain _); [apply Hnext; lia|].
      apply flush_then_Some. intros w0 n0.
      repeat match goal with
             | |- context [if ?c then _ else _] => destruct c
             end;
        repeat first [apply byte_then_Some | apply string_then_Some];
        apply Hnext; lia.
    + pose proof (DecodeRune_size (from i s)) as Hsz.
      assert (1 <= len (from i s)) as Hlen.
      { rewrite Skipping.length_from; lia. }
      specialize (Hsz Hlen).
      destruct (DecodeRune (from i s)) as [c size]. simpl in Hsz.
      repeat match goal with
             | |- context [if ?c then _ else _] => destruct c
             end;
        repeat first [apply write_then_Some | apply byte_then_Some
                     | apply string_then_Some];
        apply Hnext; lia.
Qed.

(** [rwQuoted] always returns: the fuel it is given is never used up. *)
Lemma rwQuoted_total (dst : W) (s : bytes) : is_Some (rwQuoted dst s).
Proof.
  unfold rwQuoted. apply byte_then_Some. intros w n.
  apply rwQuoted_loop_Some; unfold len; lia.
Qed.

End QuotingTotal.

(** *** Base64 *)

Definition encodeStd : bytes :=
  lit "ABCDEFGHIJKLMNOPQRSTUVWXYZabcdefghijklmnopqrstuvwxyz0123456789+/".

Definition b64 (v : Z) : byte := nth (Z.to_nat (Z.land v 0x3F)) encodeStd x00.

(** The encoding of the complete 3-byte groups of [p]; a trailing fringe of
    one or two bytes is left out. *)
Fixpoint b64_groups (p : bytes) : bytes :=
  match p with
  | a :: b :: c :: rest =>
      let v := Z.lor (Z.lor (Z.shiftl (b2z a) 16) (Z.shiftl (b2z b) 8)) (b2z c) in
      b64 (Z.shiftr v 18) :: b64 (Z.shiftr v 12) :: b64 (Z.shiftr v 6) :: b64 v
        :: b64_groups rest
  | _ => []
  end.

(** The final quantum, padded with ['=']. *)
Definition b64_fringe (p : bytes) : bytes :=
  match p with
  | [a] =>
      let v := Z.shiftl (b2z a) 16 in
      [b64 (Z.shiftr v 18); b64 (Z.shiftr v 12); x3d; x3d]
  | [a; b] =>
      let v := Z.lor (Z.shiftl (b2z a) 16) (Z.shiftl (b2z b) 8) in
      [b64 (Z.shiftr v 18); b64 (Z.shiftr v 12); b64 (Z.shiftr v 6); x3d]
  | _ => []
  end.

Definition fringe (p : bytes) : bytes :=
  drop (3 * (length p / 3))%nat p.

(** [base64.StdEncoding]: the standard alphabet, with padding. *)
Definition base64_std (p : bytes) : bytes := b64_groups p ++ b64_fringe (fringe p).

Example base64_f : base64_std (lit "f") = lit "Zg==".
Proof. reflexivity. Qed.
Example base64_fo : base64_std (lit "fo") = lit "Zm8=".
Proof. reflexivity. Qed.
Example base64_foo : base64_std (lit "foo") = lit "Zm9v".
Proof. reflexivity. Qed.
Example base64_foobar : base64_std (lit "foobar") = lit "Zm9vYmFy".
Proof. reflexivity. Qed.
Example base64_high : base64_std [xfb; xff] = lit "+/8=".
Proof. reflexivity. Qed.

Section Base64Encoder.
Context {W : Type} `{jsWriter W}.

(** [base64.NewEncoder(base64.StdEncoding, dst)], an [io.WriteCloser] of the
    Go standard library.  [Write(p)] encodes the complete groups of [p] and
    hands them to [dst] in chunks of at most 1024 characters (768 bytes of
    input), keeps the fringe, and reports [len(p)] bytes taken; [Close]
    writes the padded fringe.  (The encoder starts empty here, as in
    [rwExtension], which writes once and closes.) *)
Fixpoint enc_chunks (fuel : nat) (p : bytes) (w : W) (n : Z)
  : W * (Z * option error) :=
  if 3 <=? len p then
    match fuel with
    | O => (w, (n, None))
    | S fuel' =>
        let nn := if 768 <? len p then 768 else len p - len p mod 3 in
        match Write (b64_groups (upto nn p)) w with
        | (w', (_, Some e)) => (w', (n, Some e))
        | (w', (_, None)) => enc_chunks fuel' (from nn p) w' (n + nn)
        end
    end
  else (w, (n + len p, None)).

Definition enc_Write (p : bytes) (w : W) : W * (Z * option error) :=
  enc_chunks (length p) p w 0.

Definition enc_Close (p : bytes) (w : W) : W * option error :=
  match fringe p with
  | [] => (w, None)
  | f => let '(w', (_, e)) := Write (b64_fringe f) w in (w', e)
  end.

End Base64Encoder.

(** On a buffer the encoder leaves exactly the standard encoding. *)
Lemma b64_groups_short (p : bytes) : len p < 3 -> b64_groups p = [].
Proof.
  destruct p as [|a [|b [|c rest]]]; try reflexivity.
  unfold len; simpl; lia.
Qed.

Lemma b64_groups_split (k : nat) :
  forall p : bytes, (3 * k <= length p)%nat ->
    b64_groups (take (3 * k) p) ++ b64_groups (drop (3 * k) p) = b64_groups p.
Proof.
  induction k as [|k IH]; intros p Hp; [reflexivity|].
  destruct p as [|a [|b [|c rest]]]; try (simpl in Hp; lia).
  replace (3 * S k)%nat with (S (S (S (3 * k)))) by lia.
  simpl. do 4 f_equal. apply IH. simpl in Hp. lia.
Qed.

Lemma enc_chunks_Buffer (fuel : nat) :
  forall (p w : bytes) (n : Z), (length p <= fuel)%nat ->
    enc_chunks fuel p w n = (w ++ b64_groups p, (n + len p, None)).
Proof.
  induction fuel as [|fuel IH]; intros p w n Hf.
  - destruct p; [|simpl in Hf; lia]. simpl. rewrite app_nil_r. reflexivity.
  - simpl. destruct (3 <=? len p) eqn:H3.
    2: { rewrite b64_groups_short by lia. rewrite app_nil_r. reflexivity. }
    set (nn := if 768 <? len p then 768 else len p - len p mod 3).
    assert (3 <= nn <= len p /\ nn mod 3 = 0) as (Hnn & Hmod).
    { unfold nn. destruct (768 <? len p) eqn:Hbig; [split; [lia|reflexivity]|].
      pose proof (Z.mod_pos_bound (len p) 3 ltac:(lia)).
      pose proof (Z.div_mod (len p) 3 ltac:(lia)).
      split; [lia|].
      rewrite Zminus_mod, Z.mod_mod, Z.sub_diag by lia. reflexivity. }
    rewrite IH.
    2: { unfold from. rewrite length_drop. unfold len in *. lia. }
    rewrite <- List.app_assoc. f_equal.
    + f_equal. unfold upto, from.
      assert (Z.to_nat nn = 3 * Z.to_nat (nn / 3))%nat as ->.
      { pose proof (Z.div_mod nn 3 ltac:(lia)). lia. }
      apply b64_groups_split.
      pose proof (Z.div_mod nn 3 ltac:(lia)). unfold len in *. lia.
    + f_equal. rewrite Skipping.length_from by lia. lia.
Qed.

Lemma enc_Write_Buffer (p w : bytes) :
  enc_Write p w = (w ++ b64_groups p, (len p, None)).
Proof. unfold enc_Write. rewrite enc_chunks_Buffer by lia. reflexivity. Qed.

Lemma enc_Close_Buffer (p w : bytes) :
  enc_Close p w = (w ++ b64_fringe (fringe p), None).
Proof.
  unfold enc_Close. destruct (fringe p); simpl; [|reflexivity].
  rewrite app_nil_r. reflexivity.
Qed.

(** *** Readers and extensions *)

(** The [Extension] interface, as far as the transcoder uses it. *)
Class Extension (E : Type) : Type := {
  ExtensionType : E -> Z;
  UnmarshalBinary : bytes -> E -> E * option error
}.

(** [RawExtension{Type, Data}]. *)
Record RawExtension : Set := mkraw { Type_ : Z; Data : bytes }.

#[export] Instance RawExtension_Extension : Extension RawExtension := {
  ExtensionType e := Type_ e;
  UnmarshalBinary b e := (mkraw (Type_ e) b, None)
}.

(** Modelled from the spec: the streaming [Reader] that wraps the decoder,
    which is declared outside the source files at hand, as far as
    [rwExtension] and [rwFloat64] use it.  [peekExtension] looks at the next
    extension object, [(type, data)], without consuming it, and
    [skipExtension] consumes it; [ReadExtension] below is built from them. *)
Class Reader (R : Type) : Type := {
  peekExtensionType : R -> R * (Z * option error);
  peekExtension : R -> R * (Z * bytes * option error);
  skipExtension : R -> R;
  ReadFloat32 : R -> R * (Z * option error);
  ReadFloat64 : R -> R * (Z * option error)
}.

(** Modelled from the spec: [Reader.ReadExtension(e)]: "fail with
    [ExtensionTypeError] when envelope length is correct but tag is wrong";
    otherwise the payload is handed to [e] and, if [e] accepts it, the object
    is consumed. *)
Definition ReadExtension {R E : Type} `{Reader R} `{Extension E} (e : E) (src : R)
  : R * (E * option error) :=
  let '(src, (t, data, err)) := peekExtension src in
  match err with
  | Some x => (src, (e, Some x))
  | None =>
      if negb (t =? ExtensionType e) then
        (src, (e, Some (ExtensionTypeError t (ExtensionType e))))
      else
        let '(e', uerr) := UnmarshalBinary data e in
        match uerr with
        | Some x => (src, (e', Some x))
        | None => (skipExtension src, (e', None))
        end
  end.

(** Modelled from the spec: a [Reader] over a whole in-memory stream.  End of
    stream is [io.EOF]; a stream that ends inside an object is an unexpected
    end of stream. *)
Definition short (b : bytes) : error :=
  if len b =? 0 then EOF else OtherError "unexpected EOF".

Definition bytes_peekExtensionType (b : bytes) : bytes * (Z * option error) :=
  if len b <? 2 then (b, (0, Some (short b)))
  else
    let spec := Wire.sizes (idx b 0) in
    if negb (Wire.Type_eqb (Wire.typ spec) Wire.ExtensionType) then
      (b, (0, Some (badPrefix Wire.ExtensionType (idx b 0))))
    else if Wire.extra spec =? Wire.constsize then (b, (to_int 8 (idx b 1), None))
    else if len b <? Wire.size spec then (b, (0, Some (short b)))
    else (b, (to_int 8 (idx b (Z.to_nat (Wire.size spec - 1))), None)).

Definition bytes_peekExtension (b : bytes) : bytes * (Z * bytes * option error) :=
  let '(_, (t, err)) := bytes_peekExtensionType b in
  match err with
  | Some x => (b, (0, [], Some x))
  | None =>
      let spec := Wire.sizes (idx b 0) in
      let '(total, _, gerr) := Decoder.getSize b in
      match gerr with
      | Some x => (b, (0, [], Some x))
      | None =>
          if len b <? total then (b, (0, [], Some (short b)))
          else
            let hdr := if Wire.extra spec =? Wire.constsize then 2
                       else Wire.size spec in
            (b, (t, upto (total - hdr) (from hdr b), None))
      end
  end.

Definition bytes_skipExtension (b : bytes) : bytes :=
  let '(total, _, _) := Decoder.getSize b in from total b.

(** *** Floating-point numbers *)

(** A [float64] is its IEEE 754 bit pattern ([math.Float64bits]), a
    [float32] likewise.  The two conversions of the Go language between the
    types are written out on the patterns. *)

(** [m / 2^sh], rounded to nearest, ties to even. *)
Definition round_shift (m sh : Z) : Z :=
  let q := Z.shiftr m sh in
  let rem := Z.land m (2 ^ sh - 1) in
  let half := 2 ^ (sh - 1) in
  if (half <? rem) || ((rem =? half) && Z.odd q) then q + 1 else q.

(** [float32(f)] for a [float64] [f]. *)
Definition float32_of_float64 (b : Z) : Z :=
  let s := Z.shiftl (Z.shiftr b 63) 31 in
  let e := Z.land (Z.shiftr b 52) 0x7FF in
  let f := Z.land b (2 ^ 52 - 1) in
  if e =? 2047 then
    if f =? 0 then Z.lor s 0x7F800000
    else Z.lor s (Z.lor 0x7FC00000 (Z.shiftr f 29))
  else if e =? 0 then s
  else
    let m := 2 ^ 52 + f in
    let E := e - 1023 in
    let bits :=
      if -126 <=? E then Z.shiftl (E + 126) 23 + round_shift m 29
      else round_shift m (29 + (-126 - E)) in
    Z.lor s (if 0x7F800000 <=? bits then 0x7F800000 else bits).

(** [float64(f)] for a [float32] [f]; it is exact. *)
Definition float64_of_float32 (b : Z) : Z :=
  let s := Z.shiftl (Z.shiftr b 31) 63 in
  let e := Z.land (Z.shiftr b 23) 0xFF in
  let f := Z.land b (2 ^ 23 - 1) in
  if e =? 255 then
    if f =? 0 then Z.lor s (Z.shiftl 0x7FF 52)
    else Z.lor s (Z.lor (Z.shiftl 0x7FF 52) (Z.lor (2 ^ 51) (Z.shiftl f 29)))
  else if e =? 0 then
    if f =? 0 then s
    else
      let k := Z.log2 f in
      Z.lor s (Z.shiftl (k - 149 + 1023) 52 + Z.shiftl (f - 2 ^ k) (52 - k))
  else Z.lor s (Z.shiftl (e - 127 + 1023) 52 + Z.shiftl f 29).

Example narrow_one : float32_of_float64 0x3FF0000000000000 = 0x3F800000.
Proof. reflexivity. Qed.
Example narrow_tenth : float32_of_float64 0x3FB999999999999A = 0x3DCCCCCD.
Proof. reflexivity. Qed.
Example narrow_huge : float32_of_float64 0x7E37E43C8800759C = 0x7F800000.
Proof. reflexivity. Qed.
Example narrow_max : float32_of_float64 0x47EFFFFFE0000000 = 0x7F7FFFFF.
Proof. reflexivity. Qed.
Example narrow_neg_tiny : float32_of_float64 0xB6A0000000000000 = 0x80000001.
Proof. reflexivity. Qed.
Example widen_tenth : float64_of_float32 0x3DCCCCCD = 0x3FB99999A0000000.
Proof. reflexivity. Qed.
Example widen_tiny : float64_of_float32 0x00000001 = 0x36A0000000000000.
Proof. reflexivity. Qed.

(** [ReadFloat32Bytes] and [ReadFloat64Bytes] of the byte-slice decoder. *)
Definition ReadFloat32Bytes (b : bytes) : Decoder.result Z :=
  if len b <? 5 then (0, [], Some ErrShortBytes)
  else if negb (idx b 0 =? Wire.mfloat32) then
    (0, [], Some (TypeError Wire.Float32Type (Wire.getType (idx b 0))))
  else (Wire.getMuint32 b, from 5 b, None).

Definition ReadFloat64Bytes (b : bytes) : Decoder.result Z :=
  let widened :=
    let '(tf, o, err) := ReadFloat32Bytes b in (float64_of_float32 tf, o, err) in
  if len b <? 9 then
    if (5 <=? len b) && (idx b 0 =? Wire.mfloat32) then widened
    else (0, [], Some ErrShortBytes)
  else if negb (idx b 0 =? Wire.mfloat64) then
    if idx b 0 =? Wire.mfloat32 then widened
    else (0, [], Some (badPrefix Wire.Float64Type (idx b 0)))
  else (Wire.getMuint64 b, from 9 b, None).

Definition bytes_read {A} (zero : A) (read : bytes -> Decoder.result A) (b : bytes)
  : bytes * (A * option error) :=
  let '(v, o, err) := read b in
  match err with
  | Some ErrShortBytes => (b, (zero, Some (short b)))
  | Some x => (b, (zero, Some x))
  | None => (o, (v, None))
  end.

#[export] Instance BytesReader : Reader bytes := {
  peekExtensionType := bytes_peekExtensionType;
  peekExtension := bytes_peekExtension;
  skipExtension := bytes_skipExtension;
  ReadFloat32 := bytes_read 0 ReadFloat32Bytes;
  ReadFloat64 := bytes_read 0 ReadFloat64Bytes
}.

Example peek_fixext1 :
  peekExtension [xd4; x05; x61; xc0] = ([xd4; x05; x61; xc0], (5, [x61], None)).
Proof. reflexivity. Qed.

Example peek_ext8 :
  peekExtension [xc7; x02; xff; x61; x62] =
  ([xc7; x02; xff; x61; x62], (-1, [x61; x62], None)).
Proof. reflexivity. Qed.

Example read_ext_raw :
  ReadExtension (mkraw 5 []) [xd4; x05; x61; xc0] = ([xc0], (mkraw 5 [x61], None)).
Proof. reflexivity. Qed.

Example read_ext_wrong_type :
  ReadExtension (mkraw 6 []) [xd4; x05; x61] =
  ([xd4; x05; x61], (mkraw 6 [], Some (ExtensionTypeError 5 6))).
Proof. reflexivity. Qed.

(** *** [rwExtension] *)

Section Transcoding.
Context {W : Type} `{jsWriter W} {R : Type} `{Reader R}.

(** The results of a transcoding step: writer, reader, [(n, err)]. *)
Definition tres : Type := (W * R * (Z * option error))%type.

Section Ext.
(** The registered extensions: each tag maps to the value its factory
    returns.  [json_Marshal] is [encoding/json.Marshal] on such a value. *)
Context {E : Type} `{Extension E}.
Variable extensionReg : gmap Z E.
Variable json_Marshal : E -> bytes * option error.

Definition quote : bytes := [x22].

Definition rwExtension (dst : W) (src : R) : tres :=
  let '(src, (et, err)) := peekExtensionType src in
  match err with
  | Some x => (dst, src, (0, Some x))  (* must not be shadowed *)
  | None =>
      match extensionReg !! et with
      | Some e =>
          (* Registered extensions can override the JSON encoding. *)
          let '(src, (e, err)) := ReadExtension e src in
          match err with
          | Some x => (dst, src, (0, Some x))
          | None =>
              let '(bts, err) := json_Marshal e in
              match err with
              | Some x => (dst, src, (0, Some x))
              | None => let '(dst, r) := Write bts dst in (dst, src, r)
              end
          end
      | None =>
          let '(src, (e, err)) := ReadExtension (mkraw et []) src in
          match err with
          | Some x => (dst, src, (0, Some x))
          | None =>
              let n := 0 in
              match WriteByte x7b dst with
              | (dst, Some x) => (dst, src, (n, Some x))
              | (dst, None) =>
              let n := n + 1 in
              match WriteString (quote ++ lit "type:" ++ quote) dst with
              | (dst, (nn, Some x)) => (dst, src, (n + nn, Some x))
              | (dst, (nn, None)) =>
              let n := n + nn in
              let scratch := lit (Gen.Itoa (to_int 64 (Type_ e))) in
              match Write scratch dst with
              | (dst, (nn, Some x)) => (dst, src, (n + nn, Some x))
              | (dst, (nn, None)) =>
              let n := n + nn in
              match WriteString (lit "," ++ quote ++ lit "data" ++ quote ++
                                 lit ":" ++ quote) dst with
              | (dst, (nn, Some x)) => (dst, src, (n + nn, Some x))
              | (dst, (nn, None)) =>
              let n := n + nn in
              match enc_Write (Data e) dst with
              | (dst, (nn, Some x)) => (dst, src, (n + nn, Some x))
              | (dst, (nn, None)) =>
              let n := n + nn in
              match enc_Close (Data e) dst with
              | (dst, Some x) => (dst, src, (n, Some x))
              | (dst, None) =>
              let '(dst, (nn, err)) := WriteString (quote ++ lit "}") dst in
              (dst, src, (n + nn, err))
              end end end end end end
          end
      end
  end.

End Ext.

(** *** [rwFloat32] and [rwFloat64] *)

(** [strconv.AppendFloat(dst, f, fmt, prec, bitSize)] of the Go standard
    library.  It "rounds the result assuming that the original was obtained
    from a floating-point value of bitSize bits": with [bitSize] 32 the value
    is first converted to [float32], and the digits are those of that
    [float32].  The generation of the digits themselves, for a bit pattern of
    a given width, is [digits]. *)
Variable digits : Z -> Z -> byte -> Z -> bytes.

Definition AppendFloat (dst : bytes) (f : Z) (fmt : byte) (prec bitSize : Z) : bytes :=
  dst ++ (if bitSize =? 32 then digits (float32_of_float64 f) 32 fmt prec
          else digits f 64 fmt prec).

Definition rwFloat32 (dst : W) (src : R) : tres :=
  let '(src, (f, err)) := ReadFloat32 src in
  match err with
  | Some x => (dst, src, (0, Some x))
  | None =>
      let scratch := AppendFloat [] (float64_of_float32 f) x66 (-1) 64 in
      let '(dst, r) := Write scratch dst in (dst, src, r)
  end.

Definition rwFloat64 (dst : W) (src : R) : tres :=
  let '(src, (f, err)) := ReadFloat64 src in
  match err with
  | Some x => (dst, src, (0, Some x))
  | None =>
      let scratch := AppendFloat [] f x66 (-1) 32 in
      let '(dst, r) := Write scratch dst in (dst, src, r)
  end.

End Transcoding.

Lemma to_int_64_small (z : Z) : -128 <= z <= 127 -> to_int 64 z = z.
Proof.
  intros Hz. unfold to_int.
  change (2 ^ 64) with 18446744073709551616.
  change (2 ^ (64 - 1)) with 9223372036854775808.
  destruct (Z.le_gt_cases 0 z).
  - rewrite Z.mod_small by lia.
    assert ((z <? 9223372036854775808) = true) as -> by lia. reflexivity.
  - replace (z mod 18446744073709551616) with (z + 18446744073709551616).
    + assert ((z + 18446744073709551616 <? 9223372036854775808) = false) as ->
        by lia. lia.
    + rewrite <- (Z.mod_small (z + 18446744073709551616)
                               18446744073709551616) at 1 by lia.
      rewrite <- Z.add_mod_idemp_r, Z.mod_same, Z.add_0_r by lia. reflexivity.
Qed.

(** The text of the object emitted for an unregistered extension. *)
Definition raw_extension_json (et : Z) (data : bytes) : bytes :=
  lit "{" ++ quote ++ lit "type:" ++ quote ++ lit (Gen.Itoa et) ++
  lit "," ++ quote ++ lit "data" ++ quote ++ lit ":" ++ quote ++
  base64_std data ++ quote ++ lit "}".

Example raw_extension_json_5 :
  raw_extension_json 5 (lit "a") =
  lit "{" ++ [x22] ++ lit "type:" ++ [x22] ++ lit "5," ++ [x22] ++ lit "data" ++
  [x22] ++ lit ":" ++ [x22] ++ lit "YQ==" ++ [x22] ++ lit "}".
Proof. reflexivity. Qed.

(** C9.  For an extension object whose tag [et] has no registered factory,
    and which the reader delivers in full, the transcoder writes exactly
    [{"type:"<N>,"data":"<base64>"}]: the key is the literal [type:] with the
    colon inside the quotes, [<N>] is the tag in base 10, and the payload is in
    standard padded base64.  (The writer is a buffer; [n] counts the payload
    bytes the base64 encoder took, not the characters it wrote.) *)
Theorem rwExtension_unregistered
    {R : Type} `{Reader R} {E : Type} `{Extension E}
    (extensionReg : gmap Z E) (json_Marshal : E -> bytes * option error)
    (dst : bytes) (src src1 src2 : R) (et : Z) (data : bytes) :
  peekExtensionType src = (src1, (et, None)) ->
  extensionReg !! et = None ->
  ReadExtension (mkraw et []) src1 = (src2, (mkraw et data, None)) ->
  -128 <= et <= 127 ->
  rwExtension extensionReg json_Marshal dst src =
  (dst ++ raw_extension_json et data, src2,
   (19 + len (lit (Gen.Itoa et)) + len data, None)).
Proof.
  intros Hpeek Hreg Hread Het. unfold rwExtension.
  rewrite Hpeek, Hreg, Hread. simpl Type_. simpl Data.
  rewrite (to_int_64_small et Het).
  cbn [WriteByte WriteString Write Buffer].
  rewrite enc_Write_Buffer, enc_Close_Buffer.
  cbn [WriteString Buffer].
  change (len (quote ++ lit "type:" ++ quote)) with 7.
  change (len (lit "," ++ quote ++ lit "data" ++ quote ++ lit ":" ++ quote)) with 9.
  change (len (quote ++ lit "}")) with 2.
  replace (0 + 1 + 7 + len (lit (Gen.Itoa et)) + 9 + len data + 2)
    with (19 + len (lit (Gen.Itoa et)) + len data) by lia.
  unfold raw_extension_json, base64_std.
  repeat rewrite <- List.app_assoc. reflexivity.
Qed.

Lemma rwExtension_unregistered_witness :
  rwExtension (empty : gmap Z RawExtension) (fun _ => ([], None)) []
              [xd4; x05; x61; xc0] =
  (raw_extension_json 5 [x61], [xc0], (21, None)).
Proof.
  apply (rwExtension_unregistered (empty : gmap Z RawExtension) (fun _ => ([], None))
           [] [xd4; x05; x61; xc0] [xd4; x05; x61; xc0] [xc0] 5 [x61]).
  - reflexivity.
  - reflexivity.
  - reflexivity.
  - lia.
Defined.

(** A registered tag takes the other path: the JSON of the extension value
    is written as it is. *)
Example rwExtension_registered :
  rwExtension ({[ 5 := mkraw 5 [] ]} : gmap Z RawExtension)
              (fun e => (lit "true", None)) [] [xd4; x05; x61; xc0] =
  (lit "true", [xc0], (4, None)).
Proof. vm_compute. reflexivity. Qed.

(** *** Floating-point numbers in JSON *)

(** [rwFloat32] widens the [float32] it read, exactly, and asks for the
    digits of a 64-bit value. *)
Example rwFloat32_width (digits : Z -> Z -> byte -> Z -> bytes) :
  rwFloat32 digits ([] : bytes) [xca; x3d; xcc; xcc; xcd] =
  (digits 0x3FB99999A0000000 64 x66 (-1), [],
   (len (digits 0x3FB99999A0000000 64 x66 (-1)), None)).
Proof. reflexivity. Qed.

(** C5.  The claim is that the text written for a [float64] is formatted at
    the value's own 64-bit width and so parses back to the value read.
    [rwFloat64] passes the bit size 32 to [strconv.AppendFloat], which
    formats the value narrowed to [float32].  The two different [float64]
    values 16777217 (bits [0x4170000010000000]) and 16777216 (bits
    [0x4170000000000000]) are both read in full from the wire, and for both
    the text written is that of the one [float32] 16777216 (bits
    [0x4B800000]), whatever the digit generation is: no parser can give back
    both values. *)
Theorem rwFloat64_narrows (digits : Z -> Z -> byte -> Z -> bytes) :
  let a := [xcb; x41; x70; x00; x00; x10; x00; x00; x00] in
  let b := [xcb; x41; x70; x00; x00; x00; x00; x00; x00] in
  let text := digits 0x4B800000 32 x66 (-1) in
  ReadFloat64Bytes a = (0x4170000010000000, [], None) /\
  ReadFloat64Bytes b = (0x4170000000000000, [], None) /\
  rwFloat64 digits ([] : bytes) a = (text, [], (len text, None)) /\
  rwFloat64 digits ([] : bytes) b = (text, [], (len text, None)).
Proof. repeat split; reflexivity. Qed.

(** *** The remaining decoders the transcoder reads with *)

Section WellKnownTags.

(** The tags of the three extension types the codec defines itself; their
    values are declared outside the source files at hand. *)
Variables TimeExtension Complex64Extension Complex128Extension : Z.

(** [NextType(b)]. *)
Definition NextType_bytes (b : bytes) : Wire.Type_ :=
  if len b =? 0 then Wire.InvalidType
  else
    let spec := Wire.sizes (idx b 0) in
    let t := Wire.typ spec in
    if Wire.Type_eqb t Wire.ExtensionType && (Wire.size spec <? len b) then
      let tp :=
        if Wire.extra spec =? Wire.constsize then to_int 8 (idx b 1)
        else to_int 8 (idx b (Z.to_nat (Wire.size spec - 1))) in
      if tp =? TimeExtension then Wire.TimeType
      else if tp =? Complex128Extension then Wire.Complex128Type
      else if tp =? Complex64Extension then Wire.Complex64Type
      else Wire.ExtensionType
    else t.

(** Modelled from the spec: [getUnix], declared outside the source files at
    hand: "8-byte seconds + 4-byte nanoseconds big-endian", "seconds(int64
    big-endian), nanoseconds(uint32 big-endian)". *)
Definition getUnix (b : bytes) : Z * Z :=
  (to_int 64 (Wire.big_Uint64 b), Wire.big_Uint32 (from 8 b)).

(** [ReadTimeBytes]; the [time.Time] read is kept as its seconds and
    nanoseconds. *)
Definition ReadTimeBytes (b : bytes) : Decoder.result (Z * Z) :=
  if len b <? 15 then ((0, 0), [], Some ErrShortBytes)
  else if negb (idx b 0 =? Wire.mext8) || negb (idx b 1 =? 12) then
    ((0, 0), [], Some (badPrefix Wire.TimeType (idx b 0)))
  else if negb (to_int 8 (idx b 2) =? TimeExtension) then
    ((0, 0), [], Some (ExtensionTypeError (to_int 8 (idx b 2)) TimeExtension))
  else (getUnix (from 3 b), from 15 b, None).

End WellKnownTags.

(** [ReadMapHeaderBytes]. *)
Definition ReadMapHeaderBytes (b : bytes) : Decoder.result Z :=
  let l := len b in
  if l <? 1 then (0, [], Some ErrShortBytes)
  else
    let lead := idx b 0 in
    if Wire.isfixmap lead then (Wire.rfixmap lead, from 1 b, None)
    else if lead =? Wire.mmap16 then
      if l <? 3 then (0, [], Some ErrShortBytes)
      else (Wire.big_Uint16 (from 1 b), from 3 b, None)
    else if lead =? Wire.mmap32 then
      if l <? 5 then (0, [], Some ErrShortBytes)
      else (Wire.big_Uint32 (from 1 b), from 5 b, None)
    else (0, [], Some (badPrefix Wire.MapType lead)).

(** [ReadArrayHeaderBytes]. *)
Definition ReadArrayHeaderBytes (b : bytes) : Decoder.result Z :=
  if len b <? 1 then (0, [], Some ErrShortBytes)
  else
    let lead := idx b 0 in
    if Wire.isfixarray lead then (Wire.rfixarray lead, from 1 b, None)
    else if lead =? Wire.marray16 then
      if len b <? 3 then (0, [], Some ErrShortBytes)
      else (Wire.big_Uint16 (from 1 b), from 3 b, None)
    else if lead =? Wire.marray32 then
      if len b <? 5 then (0, [], Some ErrShortBytes)
      else (Wire.big_Uint32 (from 1 b), from 5 b, None)
    else (0, [], Some (badPrefix Wire.ArrayType lead)).

(** [ReadNilBytes]. *)
Definition ReadNilBytes (b : bytes) : bytes * option error :=
  if len b <? 1 then ([], Some ErrShortBytes)
  else if negb (idx b 0 =? Wire.mnil) then (b, Some (badPrefix Wire.NilType (idx b 0)))
  else (from 1 b, None).

(** [ReadBoolBytes]. *)
Definition ReadBoolBytes (b : bytes) : Decoder.result bool :=
  if len b <? 1 then (false, b, Some ErrShortBytes)
  else if idx b 0 =? Wire.mtrue then (true, from 1 b, None)
  else if idx b 0 =? Wire.mfalse then (false, from 1 b, None)
  else (false, b, Some (badPrefix Wire.BoolType (idx b 0))).

(** [ReadUint64Bytes]. *)
Definition ReadUint64Bytes (b : bytes) : Decoder.result Z :=
  let l := len b in
  if l <? 1 then (0, [], Some ErrShortBytes)
  else
    let lead := idx b 0 in
    if Wire.isfixint lead then (to_uint 64 (Wire.rfixint lead), from 1 b, None)
    else if lead =? Wire.muint8 then
      if l <? 2 then (0, [], Some ErrShortBytes)
      else (to_uint 64 (Wire.getMuint8 b), from 2 b, None)
    else if lead =? Wire.muint16 then
      if l <? 3 then (0, [], Some ErrShortBytes)
      else (to_uint 64 (Wire.getMuint16 b), from 3 b, None)
    else if lead =? Wire.muint32 then
      if l <? 5 then (0, [], Some ErrShortBytes)
      else (to_uint 64 (Wire.getMuint32 b), from 5 b, None)
    else if lead =? Wire.muint64 then
      if l <? 9 then (0, [], Some ErrShortBytes)
      else (Wire.getMuint64 b, from 9 b, None)
    else (0, [], Some (badPrefix Wire.UintType lead)).

Example NextType_bytes_time :
  NextType_bytes 5 3 4 [xc7; x0c; x05; x00] = Wire.TimeType /\
  NextType_bytes 5 3 4 [xd4; x07; x00] = Wire.ExtensionType /\
  NextType_bytes 5 3 4 [xc1] = Wire.InvalidType /\
  NextType_bytes 5 3 4 [] = Wire.InvalidType.
Proof. repeat split; reflexivity. Qed.

Example ReadUint64Bytes_u16 :
  ReadUint64Bytes [xcd; x01; x00; xc0] = (256, [xc0], None).
Proof. reflexivity. Qed.

Example ReadMapHeaderBytes_fix :
  ReadMapHeaderBytes [x82; xa1] = (2, [xa1], None).
Proof. reflexivity. Qed.

(** *** The stream [Reader] *)

(** Modelled from the spec: the rest of the streaming [Reader] the
    transcoder reads from ("the streaming [Reader] suspends only on its
    underlying source (and that is outside the core)").  Every method
    returns the reader after the call together with Go's results.
    [R_Peek], [R_Next] and [R_Skip] are the methods of the buffered source
    [src.R]; [ReadTime] gives the seconds and nanoseconds of the time read. *)
Class StreamReader (R : Type) : Type := {
  stream_Reader :: Reader R;
  NextType : R -> R * (Wire.Type_ * option error);
  ReadMapHeader : R -> R * (Z * option error);
  ReadArrayHeader : R -> R * (Z * option error);
  ReadMapKeyPtr : R -> R * (bytes * option error);
  ReadNil : R -> R * option error;
  ReadBool : R -> R * (bool * option error);
  ReadInt64 : R -> R * (Z * option error);
  ReadUint64 : R -> R * (Z * option error);
  ReadBytes : bytes -> R -> R * (bytes * option error);
  ReadTime : R -> R * (Z * Z * option error);
  R_Peek : Z -> R -> R * (bytes * option error);
  R_Next : Z -> R -> R * (bytes * option error);
  R_Skip : Z -> R -> R * (Z * option error)
}.

Section BytesStream.
Variables TimeExtension Complex64Extension Complex128Extension : Z.

(** Modelled from the spec: the stream reader over a whole in-memory stream.
    An object is read as the byte-slice decoder reads it; at the end of the
    stream [NextType] reports [io.EOF]. *)
Definition bytes_NextType (b : bytes) : bytes * (Wire.Type_ * option error) :=
  if len b =? 0 then (b, (Wire.InvalidType, Some EOF))
  else
    (b, (NextType_bytes TimeExtension Complex64Extension Complex128Extension b,
         None)).

Definition bytes_ReadNil (b : bytes) : bytes * option error :=
  match ReadNilBytes b with
  | (_, Some ErrShortBytes) => (b, Some (short b))
  | (_, Some x) => (b, Some x)
  | (o, None) => (o, None)
  end.

Definition bytes_Peek (n : Z) (b : bytes) : bytes * (bytes * option error) :=
  if len b <? n then (b, (b, Some (short b))) else (b, (upto n b, None)).

Definition bytes_Next (n : Z) (b : bytes) : bytes * (bytes * option error) :=
  if len b <? n then (b, (b, Some (short b))) else (from n b, (upto n b, None)).

Definition bytes_Skip (n : Z) (b : bytes) : bytes * (Z * option error) :=
  if len b <? n then ([], (len b, Some (short b))) else (from n b, (n, None)).

#[export] Instance BytesStream : StreamReader bytes := {
  stream_Reader := BytesReader;
  NextType := bytes_NextType;
  ReadMapHeader := bytes_read 0 ReadMapHeaderBytes;
  ReadArrayHeader := bytes_read 0 ReadArrayHeaderBytes;
  ReadMapKeyPtr := bytes_read [] Decoder.ReadMapKeyZC;
  ReadNil := bytes_ReadNil;
  ReadBool := bytes_read false ReadBoolBytes;
  ReadInt64 := bytes_read 0 Decoder.ReadInt64Bytes;
  ReadUint64 := bytes_read 0 ReadUint64Bytes;
  ReadBytes scratch := bytes_read [] (fun b => Decoder.ReadBytesBytes b scratch);
  ReadTime := bytes_read (0, 0) (ReadTimeBytes TimeExtension);
  R_Peek := bytes_Peek;
  R_Next := bytes_Next;
  R_Skip := bytes_Skip
}.

End BytesStream.

(** *** [rwNext] and the functions it dispatches to *)

Definition null : bytes := lit "null".

Section Next.
Context {W : Type} `{jsWriter W} {R : Type} `{StreamReader R}.
Context {E : Type} `{Extension E}.

(** The extension registry and [json.Marshal] on a registered extension. *)
Variable extensionReg : gmap Z E.
Variable json_Marshal : E -> bytes * option error.

(** The digit generation of [strconv.AppendFloat]. *)
Variable digits : Z -> Z -> byte -> Z -> bytes.

(** [t.MarshalJSON()] of the [time.Time] with the given seconds and
    nanoseconds. *)
Variable Time_MarshalJSON : Z * Z -> bytes * option error.

Local Abbreviation tres := (@tres W R).

(** [err = dst.WriteByte(c); if err != nil { return n, err }; n++]. *)
Definition tbyte (c : byte) (k : W -> Z -> option tres) (dst : W) (src : R) (n : Z)
  : option tres :=
  match WriteByte c dst with
  | (dst, Some x) => Some (dst, src, (n, Some x))
  | (dst, None) => k dst (n + 1)
  end.

(** [rwNil]. *)
Definition rwNil (dst : W) (src : R) : tres :=
  let '(src, err) := ReadNil src in
  match err with
  | Some x => (dst, src, (0, Some x))
  | None => let '(dst, r) := Write null dst in (dst, src, r)
  end.

(** [rwInt]; [strconv.AppendInt(_, i, 10)] is the decimal numeral. *)
Definition rwInt (dst : W) (src : R) : tres :=
  let '(src, (i, err)) := ReadInt64 src in
  match err with
  | Some x => (dst, src, (0, Some x))
  | None => let '(dst, r) := Write (lit (Gen.Itoa i)) dst in (dst, src, r)
  end.

(** [rwUint]. *)
Definition rwUint (dst : W) (src : R) : tres :=
  let '(src, (u, err)) := ReadUint64 src in
  match err with
  | Some x => (dst, src, (0, Some x))
  | None => let '(dst, r) := Write (lit (Gen.Itoa u)) dst in (dst, src, r)
  end.

(** [rwBool]. *)
Definition rwBool (dst : W) (src : R) : tres :=
  let '(src, (b, err)) := ReadBool src in
  match err with
  | Some x => (dst, src, (0, Some x))
  | None =>
      let '(dst, r) :=
        if b : bool then WriteString (lit "true") dst
        else WriteString (lit "false") dst in
      (dst, src, r)
  end.

(** [rwTime]. *)
Definition rwTime (dst : W) (src : R) : tres :=
  let '(src, (t, err)) := ReadTime src in
  match err with
  | Some x => (dst, src, (0, Some x))
  | None =>
      let '(bts, err) := Time_MarshalJSON t in
      match err with
      | Some x => (dst, src, (0, Some x))
      | None => let '(dst, r) := Write bts dst in (dst, src, r)
      end
  end.

(** [rwString]. *)
Definition rwString (dst : W) (src : R) : option tres :=
  let '(src, (p, err)) := R_Peek 1 src in
  match err with
  | Some x => Some (dst, src, (0, Some x))
  | None =>
      let lead := idx p 0 in
      let body (src : R) (read : Z) : option tres :=
        let '(src, (p, err)) := R_Next read src in
        match err with
        | Some x => Some (dst, src, (0, Some x))
        | None =>
            match rwQuoted dst p with
            | Some (dst, r) => Some (dst, src, r)
            | None => None
            end
        end in
      let header (k : Z) (size : bytes -> Z) : option tres :=
        let '(src, (p, err)) := R_Next k src in
        match err with
        | Some x => Some (dst, src, (0, Some x))
        | None => body src (size p)
        end in
      if Wire.isfixstr lead then
        let '(src, _) := R_Skip 1 src in body src (Wire.rfixstr lead)
      else if lead =? Wire.mstr8 then header 2 (fun p => idx p 1)
      else if lead =? Wire.mstr16 then header 3 (fun p => Wire.big_Uint16 (from 1 p))
      else if lead =? Wire.mstr32 then header 5 (fun p => Wire.big_Uint32 (from 1 p))
      else Some (dst, src, (0, Some (badPrefix Wire.StrType lead)))
  end.

(** [rwBytes]. *)
Definition rwBytes (dst : W) (src : R) : tres :=
  let n := 0 in
  match WriteByte x22 dst with
  | (dst, Some x) => (dst, src, (n, Some x))
  | (dst, None) =>
  let n := n + 1 in
  let '(src, (scratch, err)) := ReadBytes [] src in
  match err with
  | Some x => (dst, src, (n, Some x))
  | None =>
  match enc_Write scratch dst with
  | (dst, (nn, Some x)) => (dst, src, (n + nn, Some x))
  | (dst, (nn, None)) =>
  let n := n + nn in
  match enc_Close scratch dst with
  | (dst, Some x) => (dst, src, (n, Some x))
  | (dst, None) =>
  match WriteByte x22 dst with
  | (dst, Some x) => (dst, src, (n, Some x))
  | (dst, None) => (dst, src, (n + 1, None))
  end end end end end.

(** The [for i := uint32(0); i < sz; i++] loop of [rwMap], and the closing
    brace after it; [next] is [rwNext]. *)
Fixpoint rwMap_loop (next : W -> R -> option tres) (count : nat) (comma : bool)
    (dst : W) (src : R) (n : Z) : option tres :=
  match count with
  | O => tbyte x7d (fun dst n => Some (dst, src, (n, None))) dst src n
  | S count =>
      let field_value (dst : W) (n : Z) : option tres :=
        let '(src, (field, err)) := ReadMapKeyPtr src in
        match err with
        | Some x => Some (dst, src, (n, Some x))
        | None =>
        match rwQuoted dst field with
        | None => None
        | Some (dst, (nn, err)) =>
        let n := n + nn in
        match err with
        | Some x => Some (dst, src, (n, Some x))
        | None =>
        tbyte x3a (fun dst n =>
          match next dst src with
          | None => None
          | Some (dst, src, (nn, err)) =>
              let n := n + nn in
              match err with
              | Some x => Some (dst, src, (n, Some x))
              | None => rwMap_loop next count true dst src n
              end
          end) dst src n
        end end end in
      if comma then tbyte x2c field_value dst src n else field_value dst n
  end.

(** [rwMap]. *)
Definition rwMap (next : W -> R -> option tres) (dst : W) (src : R) : option tres :=
  let '(src, (sz, err)) := ReadMapHeader src in
  match err with
  | Some x => Some (dst, src, (0, Some x))
  | None =>
      if sz =? 0 then
        let '(dst, r) := WriteString (lit "{}") dst in Some (dst, src, r)
      else
        tbyte x7b (fun dst n => rwMap_loop next (Z.to_nat sz) false dst src n)
              dst src 0
  end.

(** The loop of [rwArray], and the closing bracket after it. *)
Fixpoint rwArray_loop (next : W -> R -> option tres) (count : nat) (comma : bool)
    (dst : W) (src : R) (n : Z) : option tres :=
  match count with
  | O => tbyte x5d (fun dst n => Some (dst, src, (n, None))) dst src n
  | S count =>
      let element (dst : W) (n : Z) : option tres :=
        match next dst src with
        | None => None
        | Some (dst, src, (nn, err)) =>
            let n := n + nn in
            match err with
            | Some x => Some (dst, src, (n, Some x))
            | None => rwArray_loop next count true dst src n
            end
        end in
      if comma then tbyte x2c element dst src n else element dst n
  end.

(** [rwArray]: the opening bracket is written before the header is read,
    and is not counted in [n]. *)
Definition rwArray (next : W -> R -> option tres) (dst : W) (src : R) : option tres :=
  match WriteByte x5b dst with
  | (dst, Some x) => Some (dst, src, (0, Some x))
  | (dst, None) =>
      let '(src, (sz, err)) := ReadArrayHeader src in
      match err with
      | Some x => Some (dst, src, (0, Some x))
      | None => rwArray_loop next (Z.to_nat sz) false dst src 0
      end
  end.

(** [rwNext]; [fuel] bounds the depth of the calls through [rwMap] and
    [rwArray], and [None] is a nesting deeper than [fuel].  In the [default]
    case [err] is [nil]: nothing is read and no error is returned. *)
Fixpoint rwNext (fuel : nat) (w : W) (src : R) : option tres :=
  match fuel with
  | O => None
  | S fuel =>
      let '(src, (t, err)) := NextType src in
      match err with
      | Some x => Some (w, src, (0, Some x))
      | None =>
          match t with
          | Wire.StrType => rwString w src
          | Wire.BinType => Some (rwBytes w src)
          | Wire.MapType => rwMap (rwNext fuel) w src
          | Wire.ArrayType => rwArray (rwNext fuel) w src
          | Wire.Float64Type => Some (rwFloat64 digits w src)
          | Wire.Float32Type => Some (rwFloat32 digits w src)
          | Wire.BoolType => Some (rwBool w src)
          | Wire.IntType => Some (rwInt w src)
          | Wire.UintType => Some (rwUint w src)
          | Wire.NilType => Some (rwNil w src)
          | Wire.ExtensionType => Some (rwExtension extensionReg json_Marshal w src)
          | Wire.Complex64Type => Some (rwExtension extensionReg json_Marshal w src)
          | Wire.Complex128Type => Some (rwExtension extensionReg json_Marshal w src)
          | Wire.TimeType => Some (rwTime w src)
          | Wire.InvalidType => Some (w, src, (0, None))
          end
      end
  end.

End Next.

(** *** [bufio.Writer] *)

(** [io.Writer]. *)
Class Writer (W : Type) : Type := {
  io_Write : bytes -> W -> W * (Z * option error)
}.

#[export] Instance BufferWriter : Writer bytes := {
  io_Write b w := (w ++ b, (len b, None))
}.

#[export] Instance LimitedWriter : Writer limited := {
  io_Write := limited_write
}.

(** [bufio.Writer] of the Go standard library, which [WriteToJSON] puts in
    front of a writer that is not a [jsWriter]: the error it has met
    ([b.err]), the buffered bytes ([b.buf[0:b.n]]) and the writer below
    ([b.wr]).  The buffer has the default size. *)
Record bufio_Writer (W : Type) : Type := mkbufio {
  b_err : option error;
  b_buf : bytes;
  b_wr : W
}.
Arguments mkbufio {W} _ _ _.
Arguments b_err {W} _.
Arguments b_buf {W} _.
Arguments b_wr {W} _.

Definition defaultBufSize : Z := 4096.
Definition ErrShortWrite : error := OtherError "short write".

Section Bufio.
Context {W : Type} `{Writer W}.

Definition NewWriter (w : W) : bufio_Writer W := mkbufio None [] w.
Definition Buffered (b : bufio_Writer W) : Z := len (b_buf b).
Definition Available (b : bufio_Writer W) : Z := defaultBufSize - Buffered b.

(** [Flush]: the buffered bytes go to the writer below in one [Write]; an
    error of that [Write], or a short count, stays in [b.err]. *)
Definition Flush (b : bufio_Writer W) : bufio_Writer W * option error :=
  match b_err b with
  | Some e => (b, Some e)
  | None =>
      if Buffered b =? 0 then (b, None)
      else
        let '(wr, (n, err)) := io_Write (b_buf b) (b_wr b) in
        let err :=
          match err with
          | None => if n <? Buffered b then Some ErrShortWrite else None
          | Some e => Some e
          end in
        match err with
        | Some e => (mkbufio (Some e) (from n (b_buf b)) wr, Some e)
        | None => (mkbufio None [] wr, None)
        end
  end.

(** The loop [for len(p) > b.Available() && b.err == nil] of [Write]
    ([direct] true) and of [WriteString] ([direct] false).  A round of
    [Write] hands [p] to the writer below when nothing is buffered; every
    other round fills the buffer and flushes it.  The rounds are bounded by
    [fuel]. *)
Fixpoint fill_loop (direct : bool) (fuel : nat) (b : bufio_Writer W) (p : bytes)
    (nn : Z) : bufio_Writer W * bytes * Z :=
  match fuel with
  | O => (b, p, nn)
  | S fuel =>
      match b_err b with
      | Some _ => (b, p, nn)
      | None =>
          if Available b <? len p then
            if direct && (Buffered b =? 0) then
              let '(wr, (n, err)) := io_Write p (b_wr b) in
              fill_loop direct fuel (mkbufio err (b_buf b) wr) (from n p) (nn + n)
            else
              let n := Z.min (Available b) (len p) in
              let '(b, _) :=
                Flush (mkbufio (b_err b) (b_buf b ++ upto n p) (b_wr b)) in
              fill_loop direct fuel b (from n p) (nn + n)
          else (b, p, nn)
      end
  end.

(** What follows the loop: [if b.err != nil { return nn, b.err }], and the
    rest of [p] is copied into the buffer.  The loop has ended within
    [length p + 2] rounds over every writer below that keeps the contract of
    [io.Writer] ([buffered_write_settles]). *)
Definition buffered_write (direct : bool) (p : bytes) (b : bufio_Writer W)
  : bufio_Writer W * (Z * option error) :=
  let '(b, p, nn) := fill_loop direct (S (S (length p))) b p 0 in
  match b_err b with
  | Some e => (b, (nn, Some e))
  | None => (mkbufio None (b_buf b ++ p) (b_wr b), (nn + len p, None))
  end.

Definition bufio_WriteByte (c : byte) (b : bufio_Writer W)
  : bufio_Writer W * option error :=
  match b_err b with
  | Some e => (b, Some e)
  | None =>
      let '(b, failed) :=
        if Available b <=? 0 then
          let '(b, e) := Flush b in (b, bool_decide (is_Some e))
        else (b, false) in
      if failed then (b, b_err b)
      else (mkbufio (b_err b) (b_buf b ++ [c]) (b_wr b), None)
  end.

#[export] Instance Bufio : jsWriter (bufio_Writer W) := {
  Write := buffered_write true;
  WriteByte := bufio_WriteByte;
  WriteString := buffered_write false
}.

End Bufio.

Example bufio_small_write :
  Write null (NewWriter (mklimited [] 0)) =
  (mkbufio None null (mklimited [] 0), (4, None)).
Proof. reflexivity. Qed.

Example bufio_flush_fails :
  Flush (mkbufio None null (mklimited [] 0)) =
  (mkbufio (Some ErrShortWrite) null (mklimited [] 0), Some ErrShortWrite).
Proof. reflexivity. Qed.

Example bufio_flush_writes :
  Flush (mkbufio None null (lit "[")) = (mkbufio None [] (lit "[null"), None).
Proof. reflexivity. Qed.

(** *** The loops of [bufio.Writer] end *)

Section BufioTermination.
Context {W : Type} `{Writer W}.

(** [io.Writer] asks of [Write]: "Write must return a non-nil error if it
    returns n < len(p)". *)
Definition io_contract : Prop :=
  forall (p : bytes) (w : W),
    (io_Write p w).2.2 = None -> len p <= (io_Write p w).2.1.

(** The loop condition [len(p) > b.Available() && b.err == nil] is false. *)
Definition settled (b : bufio_Writer W) (p : bytes) : Prop :=
  b_err b <> None \/ len p <= Available b.

Lemma fill_loop_settled direct fuel (b : bufio_Writer W) p nn :
  settled b p -> fill_loop direct fuel b p nn = (b, p, nn).
Proof.
  destruct fuel as [|fuel]; [reflexivity|]. cbn [fill_loop]. unfold settled.
  destruct (b_err b) as [e|]; [reflexivity|].
  intros [Hs|Hs]; [congruence|].
  assert ((Available b <? len p) = false) as -> by lia. reflexivity.
Qed.

Lemma Flush_cases (b : bufio_Writer W) :
  b_err (Flush b).1 <> None \/ (b_buf (Flush b).1 = [] /\ b_err (Flush b).1 = None).
Proof.
  unfold Flush. destruct (b_err b) as [e|] eqn:He.
  - left. simpl. congruence.
  - destruct (Buffered b =? 0) eqn:Hb.
    + right. simpl. split; [|exact He].
      unfold Buffered, len in Hb. destruct (b_buf b); [reflexivity|].
      simpl in Hb. lia.
    + destruct (io_Write (b_buf b) (b_wr b)) as [wr [n [e|]]].
      * left. simpl. congruence.
      * destruct (n <? Buffered b); simpl; [left; congruence|right; auto].
Qed.

Lemma length_from_le (n : Z) (p : bytes) : (length (from n p) <= length p)%nat.
Proof. unfold from. rewrite length_drop. lia. Qed.

(** Over a writer that keeps the contract, the loop has ended when the
    rounds are used up. *)
Lemma fill_loop_ends direct :
  io_contract ->
  forall fuel (b : bufio_Writer W) p nn,
    0 <= Available b ->
    (length p + (if (Buffered b =? 0)%Z then 1 else 2) <= fuel)%nat ->
    settled (fill_loop direct fuel b p nn).1.1 (fill_loop direct fuel b p nn).1.2.
Proof.
  intros Hc fuel. induction fuel as [|fuel IH]; intros b p nn Ha Hf.
  - destruct (Buffered b =? 0); lia.
  - cbn [fill_loop]. destruct (b_err b) as [e|] eqn:He.
    { left. simpl. congruence. }
    destruct (Available b <? len p) eqn:Hlt.
    2:{ right. simpl. lia. }
    destruct (direct && (Buffered b =? 0)) eqn:Hd.
    + pose proof (Hc p (b_wr b)) as Hcp.
      destruct (io_Write p (b_wr b)) as [wr [n err]]. simpl in Hcp.
      cbv beta iota.
      assert (Hs : settled (mkbufio err (b_buf b) wr) (from n p)).
      { destruct err as [e|]; [left; simpl; congruence|].
        right. specialize (Hcp eq_refl). unfold from, len.
        rewrite length_drop. unfold Available, Buffered in *. simpl.
        apply andb_prop in Hd as [_ Hd]. unfold len in *. lia. }
      rewrite (fill_loop_settled direct fuel _ _ (nn + n) Hs). exact Hs.
    + set (n := Z.min (Available b) (len p)).
      set (b1 := mkbufio None (b_buf b ++ upto n p) (b_wr b)).
      pose proof (Flush_cases b1) as Hfl.
      destruct (Flush b1) as [b2 fe]. simpl in Hfl. cbv beta iota.
      destruct Hfl as [Hfl|[Hbuf Herr]].
      * assert (Hs : settled b2 (from n p)) by (left; exact Hfl).
        rewrite (fill_loop_settled direct fuel _ _ (nn + n) Hs). exact Hs.
      * assert (Hn : n = Available b) by (unfold n; lia).
        apply IH.
        -- unfold Available, Buffered. rewrite Hbuf. unfold defaultBufSize, len.
           simpl. lia.
        -- unfold Buffered at 1. rewrite Hbuf. unfold len at 1. simpl.
           unfold from. rewrite length_drop.
           destruct (Buffered b =? 0) eqn:Hb.
           ++ assert (n = defaultBufSize) by (unfold Available in Hn; lia).
              unfold defaultBufSize in *. unfold len in Hlt.
              unfold Available, defaultBufSize in Hlt. lia.
           ++ lia.
Qed.

Lemma buffered_write_settles direct (p : bytes) (b : bufio_Writer W) :
  io_contract -> 0 <= Available b ->
  settled (fill_loop direct (S (S (length p))) b p 0).1.1
          (fill_loop direct (S (S (length p))) b p 0).1.2.
Proof.
  intros Hc Ha. apply fill_loop_ends; [exact Hc|exact Ha|].
  destruct (Buffered b =? 0); lia.
Qed.

End BufioTermination.

(** *** [WriteToJSON] *)

Definition is_EOF (e : error) : bool :=
  match e with EOF => true | _ => false end.

Section WriteToJSON.
Context {R : Type} `{StreamReader R} {E : Type} `{Extension E}.
Variable extensionReg : gmap Z E.
Variable json_Marshal : E -> bytes * option error.
Variable digits : Z -> Z -> byte -> Z -> bytes.
Variable Time_MarshalJSON : Z * Z -> bytes * option error.

(** [for err == nil { nn, err = rwNext(j, r); n += int64(nn) }], for a
    [jsWriter] [j] of any type: the state and the error the loop stops with.
    [rounds] bounds the iterations and [depth] the nesting inside one
    object; [None] is a loop that has not stopped within them. *)
Fixpoint WriteToJSON_loop {J : Type} {HJ : jsWriter J} (depth rounds : nat)
    (j : J) (r : R) (n : Z) : option (J * R * Z * error) :=
  match rounds with
  | O => None
  | S rounds =>
      match rwNext extensionReg json_Marshal digits Time_MarshalJSON depth j r with
      | None => None
      | Some (j, r, (nn, err)) =>
          let n := to_int 64 (n + nn) in
          match err with
          | Some e => Some (j, r, n, e)
          | None => WriteToJSON_loop depth rounds j r n
          end
      end
  end.

Context {W : Type} `{Writer W}.

(** [r.WriteToJSON(w)].  [assertion] is the outcome of the type assertion
    [w.(jsWriter)]: the methods that make [w] a [jsWriter], with which [j] is
    [w] itself and [bf] is [nil], or none, and then [j] is the buffered
    writer [bf] in front of [w].  The writer [w] after the call is returned
    with Go's results. *)
Definition WriteToJSON (assertion : option (jsWriter W)) (depth rounds : nat)
    (w : W) (r : R) : option (W * R * (Z * option error)) :=
  match assertion with
  | Some jsw =>
      match WriteToJSON_loop (HJ := jsw) depth rounds w r 0 with
      | None => None
      | Some (w, r, n, err) =>
          if negb (is_EOF err) then Some (w, r, (n, Some err))
          else Some (w, r, (n, None))
      end
  | None =>
      match WriteToJSON_loop depth rounds (NewWriter w) r 0 with
      | None => None
      | Some (bf, r, n, err) =>
          if negb (is_EOF err) then
            let '(bf, _) := Flush bf in Some (b_wr bf, r, (n, Some err))
          else
            let '(bf, err) := Flush bf in Some (b_wr bf, r, (n, err))
      end
  end.

End WriteToJSON.

(** *** More fuel gives the same result *)

Section NextMono.
Context {W : Type} `{jsWriter W} {R : Type} `{StreamReader R}.
Context {E : Type} `{Extension E}.
Variable extensionReg : gmap Z E.
Variable json_Marshal : E -> bytes * option error.
Variable digits : Z -> Z -> byte -> Z -> bytes.
Variable Time_MarshalJSON : Z * Z -> bytes * option error.

(** [next'] returns what [next] returns, wherever [next] returns. *)
Definition extends (next next' : W -> R -> option (@tres W R)) : Prop :=
  forall w r x, next w r = Some x -> next' w r = Some x.

Ltac mono next Hn IH :=
  repeat (cbv beta iota;
    match goal with
    | |- ?x = _ -> ?x = _ => exact (fun H => H)
    | |- None = Some _ -> _ => discriminate
    | |- match next ?a ?b with _ => _ end = _ -> _ =>
        let Hx := fresh "Hx" in
        destruct (next a b) as [[[? ?] [? [?|]]]|] eqn:Hx;
        [rewrite (Hn _ _ _ Hx)|rewrite (Hn _ _ _ Hx)|discriminate]
    | |- _ = _ -> _ => apply IH
    | |- (if ?c then _ else _) = _ -> _ => destruct c
    | |- (let (_, _) := ?e in _) = _ -> _ => destruct e
    | |- match ?e with _ => _ end = _ -> _ => destruct e
    end).

Lemma rwMap_loop_mono next next' :
  extends next next' ->
  forall count comma dst src n x,
    rwMap_loop next count comma dst src n = Some x ->
    rwMap_loop next' count comma dst src n = Some x.
Proof.
  intros Hn count. induction count as [|count IH]; intros comma dst src n x.
  - exact (fun H => H).
  - cbn [rwMap_loop]. unfold tbyte. mono next Hn IH.
Qed.

Lemma rwArray_loop_mono next next' :
  extends next next' ->
  forall count comma dst src n x,
    rwArray_loop next count comma dst src n = Some x ->
    rwArray_loop next' count comma dst src n = Some x.
Proof.
  intros Hn count. induction count as [|count IH]; intros comma dst src n x.
  - exact (fun H => H).
  - cbn [rwArray_loop]. unfold tbyte. mono next Hn IH.
Qed.

Local Abbreviation rwNext' :=
  (rwNext extensionReg json_Marshal digits Time_MarshalJSON).

Lemma rwNext_S (fuel : nat) : extends (rwNext' fuel) (rwNext' (S fuel)).
Proof.
  induction fuel as [|fuel IH]; intros w r x; [discriminate|].
  cbn [rwNext].
  destruct (NextType r) as [src [t [e|]]]; [exact (fun H => H)|].
  destruct t; try exact (fun H => H).
  - unfold rwMap. destruct (ReadMapHeader src) as [src' [sz [e|]]];
      [exact (fun H => H)|].
    destruct (sz =? 0); [exact (fun H => H)|].
    unfold tbyte. destruct (WriteByte x7b w) as [w' [e|]]; [exact (fun H => H)|].
    apply rwMap_loop_mono, IH.
  - unfold rwArray. destruct (WriteByte x5b w) as [w' [e|]]; [exact (fun H => H)|].
    destruct (ReadArrayHeader src) as [src' [sz [e|]]]; [exact (fun H => H)|].
    apply rwArray_loop_mono, IH.
Qed.

Lemma rwNext_mono (fuel fuel' : nat) :
  (fuel <= fuel')%nat -> extends (rwNext' fuel) (rwNext' fuel').
Proof.
  induction 1 as [|fuel' _ IH]; intros w r x Hx; [exact Hx|].
  apply rwNext_S, IH, Hx.
Qed.

Lemma WriteToJSON_loop_mono (depth depth' rounds rounds' : nat) :
  (depth <= depth')%nat -> (rounds <= rounds')%nat ->
  forall (j : W) (r : R) (n : Z) x,
    WriteToJSON_loop extensionReg json_Marshal digits Time_MarshalJSON
      depth rounds j r n = Some x ->
    WriteToJSON_loop extensionReg json_Marshal digits Time_MarshalJSON
      depth' rounds' j r n = Some x.
Proof.
  intros Hd. revert rounds'.
  induction rounds as [|rounds IH]; intros rounds' Hr j r n x; [discriminate|].
  destruct rounds' as [|rounds']; [lia|].
  cbn [WriteToJSON_loop].
  destruct (rwNext' depth j r) as [[[j' r'] [nn [e|]]]|] eqn:Hx;
    [| |discriminate];
    rewrite (rwNext_mono depth depth' Hd _ _ _ Hx);
    [exact (fun H => H)|].
  apply IH. lia.
Qed.

End NextMono.

(** *** The error [WriteToJSON] returns *)

Section FlushResult.
Context {W : Type} `{Writer W}.

(** Nothing buffered, nothing to fail. *)
Lemma Flush_empty (w : W) : Flush (NewWriter w) = (NewWriter w, None).
Proof. reflexivity. Qed.

(** [Flush] succeeds when the writer below takes all that is buffered. *)
Lemma Flush_accepted (bf : bufio_Writer W) :
  b_err bf = None ->
  (io_Write (b_buf bf) (b_wr bf)).2 = (len (b_buf bf), None) ->
  (Flush bf).2 = None.
Proof.
  intros He Hw. unfold Flush. rewrite He.
  destruct (Buffered bf =? 0); [reflexivity|].
  destruct (io_Write (b_buf bf) (b_wr bf)) as [w' [n err]].
  simpl in Hw. injection Hw as -> ->.
  unfold Buffered. rewrite Z.ltb_irrefl. reflexivity.
Qed.

End FlushResult.

Section WriteToJSONResult.
Context {R : Type} `{StreamReader R} {E : Type} `{Extension E}.
Variable extensionReg : gmap Z E.
Variable json_Marshal : E -> bytes * option error.
Variable digits : Z -> Z -> byte -> Z -> bytes.
Variable Time_MarshalJSON : Z * Z -> bytes * option error.
Context {W : Type} `{Writer W}.


End WriteToJSONResult.

(** A stream of one [nil] object, read in memory; no extension is
    registered, and the tags of the codec's own extensions are 5, 3 and 4. *)
Definition no_extensions : gmap Z RawExtension := empty.
Definition no_json (e : RawExtension) : bytes * option error := ([], None).
Definition no_digits (f width : Z) (fmt : byte) (prec : Z) : bytes := [].
Definition no_time (t : Z * Z) : bytes * option error := ([], None).
Definition in_memory : StreamReader bytes := BytesStream 5 3 4.



(** The object [{"a":1,"b":[null,true,"hi"]}], through a [bytes.Buffer]; the
    opening bracket of the array is not counted. *)
Example WriteToJSON_map :
  WriteToJSON (H := in_memory) no_extensions no_json no_digits no_time
    (Some Buffer) 3 2 []
    [x82; xa1; x61; x01; xa1; x62; x93; xc0; xc3; xa2; x68; x69] =
  Some (lit "{" ++ [x22] ++ lit "a" ++ [x22] ++ lit ":1," ++ [x22] ++ lit "b" ++
        [x22] ++ lit ":[null,true," ++ [x22] ++ lit "hi" ++ [x22] ++ lit "]}",
        [], (27, None)).
Proof. reflexivity. Qed.

(** A stream that ends inside an object: the error is not [io.EOF], and is
    returned. *)
Example WriteToJSON_truncated :
  WriteToJSON (H := in_memory) no_extensions no_json no_digits no_time
    (Some Buffer) 1 2 [] [xc0; xcd; x01] =
  Some (null, [xcd; x01], (4, Some (OtherError "unexpected EOF"))).
Proof. reflexivity. Qed.

(** A prefix byte of no type takes the [default] case of [rwNext], which
    reads nothing and returns no error: the loop does not stop on it. *)
Lemma WriteToJSON_loop_invalid_prefix (depth rounds : nat) (w : bytes) (n : Z) :
  WriteToJSON_loop (H := in_memory) no_extensions no_json no_digits no_time
    depth rounds w [xc1] n = None.
Proof.
  revert n. induction rounds as [|rounds IH]; intros n; [reflexivity|].
  destruct depth as [|depth]; [reflexivity|].
  cbn [WriteToJSON_loop].
  change (rwNext no_extensions no_json no_digits no_time (S depth) w [xc1])
    with (Some (w, [xc1], (0, None : option error))).
  cbv beta iota. apply IH.
Qed.

End JSON.

(** * Further properties of the code *)

(** ** The other readers of the byte-slice decoder *)

Module Readers.
Import Wire Decoder.

(** [IsNil]. *)
Definition IsNil (b : bytes) : bool := (0 <? len b) && (idx b 0 =? mnil).

(** [ReadUint32Bytes], [ReadUint16Bytes], [ReadUint8Bytes]. *)
Definition ReadUint32Bytes (b : bytes) : result Z :=
  let '(v, o, err) := JSON.ReadUint64Bytes b in
  if v >? MaxUint32 then (0, [], Some (UintOverflow v 32))
  else (to_uint 32 v, o, err).

Definition ReadUint16Bytes (b : bytes) : result Z :=
  let '(v, o, err) := JSON.ReadUint64Bytes b in
  if v >? MaxUint16 then (0, [], Some (UintOverflow v 16))
  else (to_uint 16 v, o, err).

Definition ReadUint8Bytes (b : bytes) : result Z :=
  let '(v, o, err) := JSON.ReadUint64Bytes b in
  if v >? MaxUint8 then (0, [], Some (UintOverflow v 8))
  else (to_uint 8 v, o, err).

(** [ReadByteBytes] is analogous to [ReadUint8Bytes]. *)
Definition ReadByteBytes (b : bytes) : result Z := ReadUint8Bytes b.

(** [ReadIntBytes] and [ReadUintBytes]; [smallint] is true on the platforms
    where [int] has 32 bits. *)
Definition ReadIntBytes (smallint : bool) (b : bytes) : result Z :=
  if smallint then ReadInt32Bytes b else ReadInt64Bytes b.

Definition ReadUintBytes (smallint : bool) (b : bytes) : result Z :=
  if smallint then ReadUint32Bytes b else JSON.ReadUint64Bytes b.

(** [ReadStringBytes]: the string holds the bytes [ReadStringZC] found. *)
Definition ReadStringBytes (b : bytes) : result bytes := ReadStringZC b.

(** [ReadStringAsBytes]: [append(scratch[:0], tmp...)] has the bytes of
    [tmp], wherever they are stored. *)
Definition ReadStringAsBytes (b scratch : bytes) : result bytes :=
  let '(tmp, o, err) := ReadStringZC b in (upto 0 scratch ++ tmp, o, err).

(** [ReadExactBytes(b, into)]: the results are [into] after the call, [o]
    and [err]. *)
Definition ReadExactBytes (b into : bytes) : bytes * bytes * option error :=
  let l := len b in
  if l <? 1 then (into, [], Some ErrShortBytes)
  else
    let lead := idx b 0 in
    let body (read skip : Z) : bytes * bytes * option error :=
      if negb (read =? to_uint 32 (len into)) then
        (into, [], Some (ArrayError (to_uint 32 (len into)) read))
      else
        let src := from skip b in
        let n := Z.min (len into) (len src) in
        (RawObj.copy into src, from (skip + n) b, None) in
    if lead =? mbin8 then
      if l <? 2 then (into, [], Some ErrShortBytes)
      else body (to_uint 32 (idx b 1)) 2
    else if lead =? mbin16 then
      if l <? 3 then (into, [], Some ErrShortBytes)
      else body (to_uint 32 (big_Uint16 (from 1 b))) 3
    else if lead =? mbin32 then
      if l <? 5 then (into, [], Some ErrShortBytes)
      else body (to_uint 32 (big_Uint32 (from 1 b))) 5
    else (into, [], Some (badPrefix BinType lead)).

Section Complex.
(** The tags of the two complex extension types, declared outside the source
    files at hand. *)
Variables Complex64Extension Complex128Extension : Z.

(** [ReadComplex128Bytes]; the value is the pair of the [float64] bit
    patterns of the real and the imaginary part. *)
Definition ReadComplex128Bytes (b : bytes) : result (Z * Z) :=
  if len b <? 18 then ((0, 0), [], Some ErrShortBytes)
  else if negb (idx b 0 =? mfixext16) then
    ((0, 0), [], Some (badPrefix Complex128Type (idx b 0)))
  else if negb (to_int 8 (idx b 1) =? Complex128Extension) then
    ((0, 0), [], Some (ExtensionTypeError (to_int 8 (idx b 1)) Complex128Extension))
  else ((big_Uint64 (from 2 b), big_Uint64 (from 10 b)), from 18 b, None).

(** [ReadComplex64Bytes]; the tag byte is compared as it is, without the
    conversion to [int8]. *)
Definition ReadComplex64Bytes (b : bytes) : result (Z * Z) :=
  if len b <? 10 then ((0, 0), [], Some ErrShortBytes)
  else if negb (idx b 0 =? mfixext8) then
    ((0, 0), [], Some (badPrefix Complex64Type (idx b 0)))
  else if negb (idx b 1 =? Complex64Extension) then
    ((0, 0), [], Some (ExtensionTypeError (to_int 8 (idx b 1)) Complex64Extension))
  else ((big_Uint32 (from 2 b), big_Uint32 (from 6 b)), from 10 b, None).

End Complex.

(** [Raw.UnmarshalMsg(b)].  [r] is the receiver, and [store] its backing
    array up to its capacity, which is what the reslicing to [rlen] takes
    from.  The results are the receiver after the call, the rest, and the
    error. *)
Definition UnmarshalMsg (r store b : bytes)
  : option (bytes * bytes * option error) :=
  let l := len b in
  match Skip b with
  | None => None
  | Some (out, Some e) => Some (r, b, Some e)
  | Some (out, None) =>
      let rlen := l - len out in
      let r :=
        if len store <? rlen then repeat x00 (Z.to_nat rlen)
        else upto rlen store in
      Some (RawObj.copy r (upto rlen b), out, None)
  end.

End Readers.


Module Framing.
Import Wire Decoder Skipping WireObject Readers.

(** *** Slices *)

Lemma from_cons (n : Z) (x : byte) (rest : bytes) :
  1 <= n -> from n (x :: rest) = from (n - 1) rest.
Proof.
  intros Hn. unfold from.
  replace (Z.to_nat n) with (S (Z.to_nat (n - 1))) by lia. reflexivity.
Qed.

Lemma from_0 (b : bytes) : from 0 b = b.
Proof. reflexivity. Qed.

Lemma from_from (a c : Z) (b : bytes) :
  0 <= a -> 0 <= c -> from a (from c b) = from (c + a) b.
Proof.
  intros Ha Hc. unfold from. rewrite drop_drop. f_equal. lia.
Qed.

Lemma upto_from (n : Z) (b : bytes) : upto n b ++ from n b = b.
Proof. apply take_drop. Qed.

Lemma len_upto (n : Z) (b : bytes) : 0 <= n <= len b -> len (upto n b) = n.
Proof. unfold upto, len. intros H. rewrite length_take. lia. Qed.

(** An object without children: [Skip] drops what [getSize] measures. *)
Lemma Skip_leaf (b : bytes) (sz : Z) :
  getSize b = (sz, 0, None) -> sz <= len b -> Skip b = Some (from sz b, None).
Proof.
  intros Hg Hl. rewrite Skip_eqn, Hg.
  assert ((len b <? sz) = false) as -> by lia. reflexivity.
Qed.

(** Evaluate the prefix byte once it is known. *)
Ltac eval_lead :=
  repeat match goal with
         | |- context [sizes (b2z ?c)] =>
             is_constructor c;
             let v := eval vm_compute in (sizes (b2z c)) in
             change (sizes (b2z c)) with v
         | |- context [b2z ?c] =>
             is_constructor c;
             let v := eval vm_compute in (b2z c) in change (b2z c) with v
         end.

(** Decide the tests that no longer depend on the input. *)
Ltac eval_tests rest :=
  repeat match goal with
         | |- context [if ?c then _ else _] =>
             lazymatch c with
             | context [rest] => fail
             | _ => idtac
             end;
             let v := eval vm_compute in c in
             match v with
             | true => change c with true
             | false => change c with false
             end; cbv iota
         end.

Ltac split_tests :=
  repeat match goal with
         | |- context [if ?a <? ?k then _ else _] => destruct (Z.ltb_spec a k)
         | |- context [if ?a >? ?k then _ else _] => destruct (Z.gtb_spec a k)
         | |- context [if ?a <=? ?k then _ else _] => destruct (Z.leb_spec a k)
         | |- context [if ?a =? ?k then _ else _] => destruct (Z.eqb_spec a k)
         | |- context [if negb (?a =? ?k) then _ else _] =>
             destruct (Z.eqb_spec a k); cbn [negb]
         end.

(** [o] is what is left of [b] after one object without children, as
    [getSize] measures it. *)
Definition consumed (b o : bytes) : Prop :=
  len o < len b /\ o = from (len b - len o) b /\
  getSize b = (len b - len o, 0, None).

Lemma consumed_intro (x : byte) (rest : bytes) (n : Z) :
  0 <= n <= len rest ->
  getSize (x :: rest) = (1 + n, 0, None) ->
  consumed (x :: rest) (from n rest).
Proof.
  intros Hn Hg. unfold consumed.
  rewrite length_from by lia. rewrite len_cons.
  replace (1 + len rest - (len rest - n)) with (1 + n) by lia.
  split; [lia|]. split; [|exact Hg].
  rewrite from_cons by lia. f_equal. lia.
Qed.

Lemma consumed_Skip (b o : bytes) : consumed b o -> Skip b = Some (o, None).
Proof.
  intros (Hl & Ho & Hg). pose proof (len_nonneg o).
  rewrite (Skip_leaf b _ Hg) by lia. rewrite <- Ho. reflexivity.
Qed.

Ltac eval_fix :=
  repeat match goal with
         | |- context [rfixstr ?c] =>
             let v := eval vm_compute in (rfixstr c) in change (rfixstr c) with v
         | |- context [rfixmap ?c] =>
             let v := eval vm_compute in (rfixmap c) in change (rfixmap c) with v
         | |- context [rfixarray ?c] =>
             let v := eval vm_compute in (rfixarray c) in
             change (rfixarray c) with v
         end.

(** The start of a proof by cases on the prefix byte. *)
Ltac by_prefix x rest :=
  rewrite ?len_cons; unfold idx; cbn [nth];
  pose proof (len_nonneg rest);
  pose proof (b2z_range (nth 0 rest x00));
  pose proof (big_Uint16_nonneg rest);
  pose proof (big_Uint32_nonneg rest);
  destruct x; eval_lead; cbv beta iota zeta; eval_tests rest; eval_fix;
  try discriminate.

Ltac slide rest :=
  rewrite ?from_cons by lia;
  repeat match goal with
         | |- context [from (?a - ?c) rest] =>
             let v := eval vm_compute in (a - c) in
             progress change (a - c) with v
         end.

Ltac close_consumed rest :=
  slide rest;
  apply consumed_intro;
  [ rewrite ?length_from in * by lia; lia
  | rewrite getSize_cons; rewrite ?len_cons; unfold idx; cbn [nth];
    eval_lead; cbv beta iota zeta; cbn [size extra typ]; eval_tests rest;
    split_tests; try lia; repeat f_equal; rewrite ?length_from in * by lia;
    lia ].

Lemma ReadInt64Bytes_consumed (b o : bytes) (i : Z) :
  ReadInt64Bytes b = (i, o, None) -> consumed b o.
Proof.
  destruct b as [|x rest]; [discriminate|].
  unfold ReadInt64Bytes. by_prefix x rest.
  all: split_tests; try discriminate; intros Hr; injection Hr as <- <-.
  all: close_consumed rest.
Qed.

Lemma ReadUint64Bytes_consumed (b o : bytes) (u : Z) :
  JSON.ReadUint64Bytes b = (u, o, None) -> consumed b o.
Proof.
  destruct b as [|x rest]; [discriminate|].
  unfold JSON.ReadUint64Bytes. by_prefix x rest.
  all: split_tests; try discriminate; intros Hr; injection Hr as <- <-.
  all: close_consumed rest.
Qed.

Lemma ReadBoolBytes_consumed (b o : bytes) (v : bool) :
  JSON.ReadBoolBytes b = (v, o, None) -> consumed b o.
Proof.
  destruct b as [|x rest]; [discriminate|].
  unfold JSON.ReadBoolBytes. by_prefix x rest.
  all: split_tests; try discriminate; intros Hr; injection Hr as <- <-.
  all: close_consumed rest.
Qed.

Lemma ReadNilBytes_consumed (b o : bytes) :
  JSON.ReadNilBytes b = (o, None) -> consumed b o.
Proof.
  destruct b as [|x rest]; [discriminate|].
  unfold JSON.ReadNilBytes. by_prefix x rest.
  all: split_tests; try discriminate; intros Hr; injection Hr as <-.
  all: close_consumed rest.
Qed.

Lemma ReadFloat32Bytes_consumed (b o : bytes) (f : Z) :
  JSON.ReadFloat32Bytes b = (f, o, None) -> consumed b o.
Proof.
  destruct b as [|x rest]; [discriminate|].
  unfold JSON.ReadFloat32Bytes. by_prefix x rest.
  all: split_tests; try discriminate; intros Hr; injection Hr as <- <-.
  all: close_consumed rest.
Qed.

Lemma ReadFloat64Bytes_consumed (b o : bytes) (f : Z) :
  JSON.ReadFloat64Bytes b = (f, o, None) -> consumed b o.
Proof.
  destruct b as [|x rest]; [discriminate|].
  unfold JSON.ReadFloat64Bytes, JSON.ReadFloat32Bytes. by_prefix x rest.
  all: rewrite ?andb_false_r, ?andb_true_r;
    repeat (split_tests; cbv beta iota zeta); try discriminate; try lia;
    intros Hr; injection Hr as <- <-.
  all: close_consumed rest.
Qed.

Ltac close_shape k :=
  rewrite ?from_0 in *;
  exists k; rewrite !len_upto by (rewrite ?length_from; lia);
  repeat split; try lia; rewrite ?from_cons by lia;
  rewrite ?from_from by lia; repeat f_equal; lia.

(** What a successful [ReadStringZC] has read: a header of [k] bytes, the
    value, and the rest; [getSize] measures the same object. *)
Lemma ReadStringZC_shape (b v o : bytes) :
  ReadStringZC b = (v, o, None) ->
  exists k : Z,
    1 <= k <= 5 /\ k + len v <= len b /\
    v = upto (len v) (from k b) /\ o = from (k + len v) b /\
    getSize b = (k + len v, 0, None).
Proof.
  destruct b as [|x rest]; [discriminate|].
  rewrite getSize_cons.
  unfold ReadStringZC, payload. by_prefix x rest.
  all: cbn [size extra typ]; slide rest; eval_tests rest; split_tests;
    try discriminate; try lia; intros Hr; injection Hr as <- <-;
    rewrite ?length_from in * by lia.
  all: first [close_shape 1 | close_shape 2 | close_shape 3 | close_shape 5].
Qed.

Lemma ReadStringZC_consumed (b v o : bytes) :
  ReadStringZC b = (v, o, None) -> consumed b o.
Proof.
  intros Hr. apply ReadStringZC_shape in Hr as (k & Hk & Hl & _ & Ho & Hg).
  pose proof (len_nonneg v).
  assert (len o = len b - (k + len v)) as Hlo
    by (rewrite Ho; apply length_from; lia).
  unfold consumed. rewrite Hlo.
  replace (len b - (len b - (k + len v))) with (k + len v) by lia.
  split; [lia|]. split; [exact Ho|exact Hg].
Qed.

Lemma ReadBytesZC_shape (b v o : bytes) :
  ReadBytesZC b = (v, o, None) ->
  exists k : Z,
    2 <= k <= 5 /\ k + len v <= len b /\
    v = upto (len v) (from k b) /\ o = from (k + len v) b /\
    getSize b = (k + len v, 0, None).
Proof.
  destruct b as [|x rest]; [discriminate|].
  rewrite getSize_cons.
  unfold ReadBytesZC, readBytesBytes. by_prefix x rest.
  all: cbn [size extra typ]; slide rest; eval_tests rest; split_tests;
    try discriminate; try lia; intros Hr; injection Hr as <- <-;
    rewrite length_from in * by lia.
  all: first [close_shape 2 | close_shape 3 | close_shape 5].
Qed.

Lemma ReadBytesZC_consumed (b v o : bytes) :
  ReadBytesZC b = (v, o, None) -> consumed b o.
Proof.
  intros Hr. apply ReadBytesZC_shape in Hr as (k & Hk & Hl & _ & Ho & Hg).
  pose proof (len_nonneg v).
  assert (len o = len b - (k + len v)) as Hlo
    by (rewrite Ho; apply length_from; lia).
  unfold consumed. rewrite Hlo.
  replace (len b - (len b - (k + len v))) with (k + len v) by lia.
  split; [lia|]. split; [exact Ho|exact Hg].
Qed.

(** The copying path of [readBytesBytes] returns what the zero-copy path
    returns. *)
Lemma readBytesBytes_copy_or_not (b scratch : bytes) :
  readBytesBytes b scratch false = readBytesBytes b [] true.
Proof.
  unfold readBytesBytes.
  assert (forall read c, 0 <= read ->
            (if len c <? read then (([] : bytes), ([] : bytes), Some ErrShortBytes)
             else (upto read c, from (len (upto read c)) c, None)) =
            (if len c <? read then ([], [], Some ErrShortBytes)
             else (upto read c, from read c, None))) as Hbody.
  { intros read c Hr. destruct (Z.ltb_spec (len c) read); [reflexivity|].
    rewrite len_upto by lia. reflexivity. }
  pose proof (idx_range b 1). pose proof (big_Uint16_nonneg (from 1 b)).
  pose proof (big_Uint32_nonneg (from 1 b)).
  cbv zeta. cbn [negb].
  repeat match goal with
         | |- context [if ?c then _ else _] =>
             lazymatch c with
             | (len (from _ _) <? _) => fail
             | _ => destruct c
             end
         end; try reflexivity; apply Hbody; lia.
Qed.

Lemma ReadBytesBytes_consumed (b scratch v o : bytes) :
  ReadBytesBytes b scratch = (v, o, None) -> consumed b o.
Proof.
  unfold ReadBytesBytes. rewrite readBytesBytes_copy_or_not.
  apply ReadBytesZC_consumed.
Qed.

Lemma consumed_fixed (b : bytes) (n : Z) :
  1 <= n <= len b -> getSize b = (n, 0, None) -> consumed b (from n b).
Proof.
  intros Hn Hg. unfold consumed. rewrite length_from by lia.
  replace (len b - (len b - n)) with n by lia.
  split; [lia|]. split; [reflexivity|exact Hg].
Qed.

Lemma ReadTimeBytes_consumed (TimeExtension : Z) (b o : bytes) (t : Z * Z) :
  JSON.ReadTimeBytes TimeExtension b = (t, o, None) -> consumed b o.
Proof.
  unfold JSON.ReadTimeBytes.
  destruct (Z.ltb_spec (len b) 15); [discriminate|].
  destruct (Z.eqb_spec (idx b 0) mext8) as [H0|]; [|discriminate].
  destruct (Z.eqb_spec (idx b 1) 12) as [H1|]; [|discriminate]. cbn [negb orb].
  destruct (negb _); [discriminate|]. intros [= <- <-].
  apply consumed_fixed; [lia|].
  unfold getSize. rewrite H0. assert ((len b =? 0) = false) as -> by lia.
  change (sizes mext8) with (mkspec 3 extra8 ExtensionType).
  cbn [size extra]. rewrite H1.
  assert ((len b <? 3) = false) as -> by lia. reflexivity.
Qed.

Lemma ReadComplex64Bytes_consumed (C64 : Z) (b o : bytes) (c : Z * Z) :
  ReadComplex64Bytes C64 b = (c, o, None) -> consumed b o.
Proof.
  unfold ReadComplex64Bytes.
  destruct (Z.ltb_spec (len b) 10); [discriminate|].
  destruct (Z.eqb_spec (idx b 0) mfixext8) as [H0|]; [|discriminate].
  cbn [negb]. destruct (negb _); [discriminate|]. intros [= <- <-].
  apply consumed_fixed; [lia|].
  unfold getSize. rewrite H0. assert ((len b =? 0) = false) as -> by lia.
  reflexivity.
Qed.

Lemma ReadComplex128Bytes_consumed (C128 : Z) (b o : bytes) (c : Z * Z) :
  ReadComplex128Bytes C128 b = (c, o, None) -> consumed b o.
Proof.
  unfold ReadComplex128Bytes.
  destruct (Z.ltb_spec (len b) 18); [discriminate|].
  destruct (Z.eqb_spec (idx b 0) mfixext16) as [H0|]; [|discriminate].
  cbn [negb]. destruct (negb _); [discriminate|]. intros [= <- <-].
  apply consumed_fixed; [lia|].
  unfold getSize. rewrite H0. assert ((len b =? 0) = false) as -> by lia.
  reflexivity.
Qed.

(** A container header: [getSize] announces one object per element of an
    array and two per pair of a map. *)
Definition opened (per : Z) (b o : bytes) (sz : Z) : Prop :=
  len o < len b /\ o = from (len b - len o) b /\
  getSize b = (len b - len o, per * sz, None) /\ 0 <= sz.

Lemma opened_intro (per : Z) (x : byte) (rest : bytes) (n sz a : Z) :
  getSize (x :: rest) = (1 + n, a, None) ->
  0 <= n <= len rest -> 0 <= sz -> a = per * sz ->
  opened per (x :: rest) (from n rest) sz.
Proof.
  intros Hg Hn Hsz ->. unfold opened.
  rewrite length_from by lia. rewrite len_cons.
  replace (1 + len rest - (len rest - n)) with (1 + n) by lia.
  split; [lia|]. split; [|split; [exact Hg|exact Hsz]].
  rewrite from_cons by lia. f_equal. lia.
Qed.

Ltac close_opened rest :=
  slide rest;
  change (big_Uint16 (from 0 rest)) with (big_Uint16 rest);
  change (big_Uint32 (from 0 rest)) with (big_Uint32 rest);
  eapply opened_intro;
  [ rewrite getSize_cons; rewrite ?len_cons; unfold idx; cbn [nth];
    eval_lead; cbv beta iota zeta; cbn [size extra typ]; eval_tests rest;
    split_tests; try lia; reflexivity
  | rewrite ?length_from in * by lia; lia
  | lia
  | lia ].

Lemma ReadMapHeaderBytes_opened (b o : bytes) (sz : Z) :
  JSON.ReadMapHeaderBytes b = (sz, o, None) -> opened 2 b o sz.
Proof.
  destruct b as [|x rest]; [discriminate|].
  unfold JSON.ReadMapHeaderBytes. by_prefix x rest.
  all: split_tests; try discriminate; intros Hr; injection Hr as <- <-.
  all: close_opened rest.
Qed.

Lemma ReadArrayHeaderBytes_opened (b o : bytes) (sz : Z) :
  JSON.ReadArrayHeaderBytes b = (sz, o, None) -> opened 1 b o sz.
Proof.
  destruct b as [|x rest]; [discriminate|].
  unfold JSON.ReadArrayHeaderBytes. by_prefix x rest.
  all: split_tests; try discriminate; intros Hr; injection Hr as <- <-.
  all: close_opened rest.
Qed.

End Framing.


Module SkipMore.
Import Wire Decoder Skipping WireObject Readers Framing.

Lemma Skip_loop_suffix (f : nat)
    (IH : forall b o e, Skip_fuel f b = Some (o, e) ->
                        exists n, 0 <= n <= len b /\ o = from n b) :
  forall (k : nat) (a : Z) (c o : bytes) (e : option error),
    Skip_loop f k a c = Some (o, e) ->
    exists n, 0 <= n <= len c /\ o = from n c.
Proof.
  induction k as [|k IHk]; intros a c o e; simpl.
  - destruct (a >? 0); [discriminate|]. intros [= <- <-].
    exists 0. pose proof (len_nonneg c). split; [lia|reflexivity].
  - destruct (a >? 0).
    2:{ intros [= <- <-]. exists 0. pose proof (len_nonneg c).
        split; [lia|reflexivity]. }
    destruct (Skip_fuel f c) as [[c' [e1|]]|] eqn:Hs; [| |discriminate].
    + intros [= <- <-]. exact (IH _ _ _ Hs).
    + intros Hl. apply IH in Hs as (n & Hn & ->).
      apply IHk in Hl as (m & Hm & ->).
      rewrite length_from in Hm by lia.
      exists (n + m). split; [lia|]. apply from_from; lia.
Qed.

Lemma Skip_fuel_suffix (f : nat) :
  forall (b o : bytes) (e : option error),
    Skip_fuel f b = Some (o, e) -> exists n, 0 <= n <= len b /\ o = from n b.
Proof.
  induction f as [|f IH]; intros b o e; [discriminate|].
  rewrite Skip_fuel_S. pose proof (len_nonneg b) as Hb.
  destruct (getSize b) as [[sz asz] [e0|]] eqn:Hg.
  { intros [= <- <-]. exists 0. split; [lia|reflexivity]. }
  destruct (Z.ltb_spec (len b) sz).
  { intros [= <- <-]. exists 0. split; [lia|reflexivity]. }
  apply getSize_ok in Hg as [Hsz _].
  intros Hl. apply (Skip_loop_suffix f IH) in Hl as (m & Hm & ->).
  rewrite length_from in Hm by lia.
  exists (sz + m). split; [lia|]. apply from_from; lia.
Qed.

(** X1.  Whatever [Skip] returns as the rest, with or without an error, is a
    suffix of its input; without an error at least one byte has been
    dropped. *)
Theorem Skip_returns_suffix (b o : bytes) (e : option error) :
  Skip b = Some (o, e) ->
  exists h : bytes, b = h ++ o /\ (e = None -> h <> []).
Proof.
  intros Hs. pose proof (Skip_progress _ _ _ Hs) as [_ Hp].
  apply Skip_fuel_suffix in Hs as (n & Hn & ->).
  exists (upto n b). split; [symmetry; apply upto_from|].
  intros He Hnil. specialize (Hp He).
  pose proof (upto_from n b) as Hsplit. rewrite Hnil in Hsplit.
  simpl in Hsplit. rewrite Hsplit in Hp. lia.
Qed.

Lemma Skip_returns_suffix_witness :
  exists h : bytes,
    [x93; xc0; xc3; xc2; x01] = h ++ [x01] /\ (@None error = None -> h <> []).
Proof.
  apply (Skip_returns_suffix [x93; xc0; xc3; xc2; x01] [x01] None). reflexivity.
Defined.

(** *** [Raw.UnmarshalMsg] *)

(** X2.  [UnmarshalMsg] takes exactly the bytes [Skip] skips: on success the
    receiver holds the first object of [b], byte for byte, the rest follows
    it in [b], and marshalling the receiver again appends those same bytes.
    On an error of [Skip] the receiver is left alone and all of [b] is
    returned. *)
Theorem UnmarshalMsg_MarshalMsg (r0 store b : bytes) :
  exists r o e,
    UnmarshalMsg r0 store b = Some (r, o, e) /\
    match e with
    | None =>
        b = r ++ o /\ r <> [] /\ Skip b = Some (o, None) /\
        forall pre, RawObj.MarshalMsg r pre = (pre ++ r, None)
    | Some _ => r = r0 /\ o = b
    end.
Proof.
  unfold UnmarshalMsg.
  destruct (Skip_total b) as [[out [e|]] Hs]; rewrite Hs.
  - exists r0, b, (Some e). split; [reflexivity|]. split; reflexivity.
  - pose proof (Skip_progress _ _ _ Hs) as [_ Hp]. specialize (Hp eq_refl).
    pose proof Hs as Hs'.
    apply Skip_fuel_suffix in Hs' as (n & Hn & Ho).
    assert (len out = len b - n) as Hlen by (rewrite Ho; apply length_from; lia).
    set (rlen := len b - len out).
    assert (rlen = n) as Hr by (unfold rlen; lia).
    set (r1 := if len store <? rlen then repeat x00 (Z.to_nat rlen)
               else upto rlen store).
    assert (length r1 = length (upto rlen b)) as Hr0.
    { unfold r1. destruct (Z.ltb_spec (len store) rlen).
      - rewrite repeat_length. unfold upto. rewrite length_take.
        unfold len in *. lia.
      - unfold upto. rewrite !length_take. unfold len in *. lia. }
    rewrite (RawObj.copy_same_length _ _ Hr0).
    exists (upto rlen b), out, None. split; [reflexivity|].
    assert (upto rlen b <> []) as Hne.
    { intros Hnil. pose proof (len_upto rlen b) as Hl. rewrite Hnil in Hl.
      unfold len in *. simpl in Hl. lia. }
    split; [|split; [exact Hne|split; [reflexivity|]]].
    + rewrite Hr, Ho. symmetry. apply upto_from.
    + intros pre. unfold RawObj.MarshalMsg.
      destruct (Z.eqb_spec (len (upto rlen b)) 0) as [H0|H0].
      { destruct (upto rlen b); [congruence|]. unfold len in H0. simpl in H0. lia. }
      unfold RawObj.ensure. unfold upto at 1, from, len.
      rewrite !Nat2Z.id, take_app_length, drop_app_length.
      rewrite RawObj.copy_same_length by apply repeat_length. reflexivity.
Qed.

End SkipMore.


(** ** What the readers guarantee *)

Module ReaderFacts.
Import Wire Decoder Skipping WireObject Readers Framing SkipMore.

(** X3.  The value and the rest that [ReadStringZC] and [ReadBytesZC] return
    are adjacent slices of the input: the input is a header of one to five
    bytes, then the value, then the rest. *)
Theorem value_and_rest_are_slices (b v o : bytes) :
  ReadStringZC b = (v, o, None) \/ ReadBytesZC b = (v, o, None) ->
  exists h : bytes, b = h ++ v ++ o /\ 1 <= len h <= 5.
Proof.
  intros Hr.
  assert (exists k, 1 <= k <= 5 /\ k + len v <= len b /\
                    v = upto (len v) (from k b) /\ o = from (k + len v) b)
    as (k & Hk & Hl & Hv & Ho).
  { destruct Hr as [Hr|Hr].
    - apply ReadStringZC_shape in Hr as (k & ? & ? & ? & ? & _). eauto.
    - apply ReadBytesZC_shape in Hr as (k & ? & ? & ? & ? & _).
      exists k. repeat split; (lia || assumption). }
  pose proof (len_nonneg v).
  exists (upto k b). split; [|rewrite len_upto; lia].
  rewrite <- (upto_from k b) at 1. f_equal.
  rewrite <- (upto_from (len v) (from k b)) at 1.
  rewrite <- Hv. f_equal. rewrite from_from by lia. symmetry. exact Ho.
Qed.

Lemma value_and_rest_are_slices_witness :
  exists h : bytes, [xd9; x02; x68; x69; xc0] = h ++ [x68; x69] ++ [xc0] /\
                    1 <= len h <= 5.
Proof.
  apply (value_and_rest_are_slices [xd9; x02; x68; x69; xc0] [x68; x69] [xc0]).
  left. reflexivity.
Defined.

(** X4.  Copying or not makes no difference to what is read: for every input
    and every scratch buffer [ReadBytesBytes] returns the value, the rest
    and the error of [ReadBytesZC]. *)
Theorem ReadBytesBytes_as_zero_copy (b scratch : bytes) :
  ReadBytesBytes b scratch = ReadBytesZC b.
Proof. apply readBytesBytes_copy_or_not. Qed.

(** X5.  [Skip] steps over exactly what a typed reader reads: whenever one of
    the readers of strings, binaries, integers, booleans, nil or floats
    succeeds on [b] and returns the rest [o], [Skip(b)] returns [o] too, with
    no error. *)
Theorem Skip_after_read (b o : bytes) :
  (exists v, ReadStringZC b = (v, o, None)) \/
  (exists v, ReadBytesZC b = (v, o, None)) \/
  (exists i, ReadInt64Bytes b = (i, o, None)) \/
  (exists u, JSON.ReadUint64Bytes b = (u, o, None)) \/
  (exists v, JSON.ReadBoolBytes b = (v, o, None)) \/
  JSON.ReadNilBytes b = (o, None) \/
  (exists f, JSON.ReadFloat32Bytes b = (f, o, None)) \/
  (exists f, JSON.ReadFloat64Bytes b = (f, o, None)) ->
  Skip b = Some (o, None).
Proof.
  intros H. apply consumed_Skip.
  destruct H as [[v H]|[[v H]|[[i H]|[[u H]|[[v H]|[H|[[f H]|[f H]]]]]]]].
  - exact (ReadStringZC_consumed _ _ _ H).
  - exact (ReadBytesZC_consumed _ _ _ H).
  - exact (ReadInt64Bytes_consumed _ _ _ H).
  - exact (ReadUint64Bytes_consumed _ _ _ H).
  - exact (ReadBoolBytes_consumed _ _ _ H).
  - exact (ReadNilBytes_consumed _ _ H).
  - exact (ReadFloat32Bytes_consumed _ _ _ H).
  - exact (ReadFloat64Bytes_consumed _ _ _ H).
Qed.

Lemma Skip_after_read_witness :
  Skip [xd1; xff; xfe; xc0] = Some ([xc0], None).
Proof.
  apply (Skip_after_read [xd1; xff; xfe; xc0] [xc0]).
  right. right. left. exists (-2). reflexivity.
Defined.

(** X6.  The same for the extension objects the codec defines itself, for
    any values of their tags: a time or a complex number that is read is
    what [Skip] skips. *)
Theorem Skip_after_time_or_complex
    (TimeExtension Complex64Extension Complex128Extension : Z) (b o : bytes) :
  (exists t, JSON.ReadTimeBytes TimeExtension b = (t, o, None)) \/
  (exists c, ReadComplex64Bytes Complex64Extension b = (c, o, None)) \/
  (exists c, ReadComplex128Bytes Complex128Extension b = (c, o, None)) ->
  Skip b = Some (o, None).
Proof.
  intros H. apply consumed_Skip. destruct H as [[t H]|[[c H]|[c H]]].
  - exact (ReadTimeBytes_consumed _ _ _ _ H).
  - exact (ReadComplex64Bytes_consumed _ _ _ _ H).
  - exact (ReadComplex128Bytes_consumed _ _ _ _ H).
Qed.

Lemma Skip_after_time_or_complex_witness :
  Skip [xc7; x0c; x05; x00; x00; x00; x00; x00; x00; x00; x01;
        x00; x00; x00; x02; xc3] = Some ([xc3], None).
Proof.
  apply (Skip_after_time_or_complex 5 3 4
           [xc7; x0c; x05; x00; x00; x00; x00; x00; x00; x00; x01;
            x00; x00; x00; x02; xc3] [xc3]).
  left. exists (1, 2). reflexivity.
Defined.

(** X7.  A container header announces to [Skip] what it announces to its
    reader: for a map header read as [sz] pairs [getSize] asks for [2 * sz]
    further objects, for an array header read as [sz] elements for [sz],
    and its byte count is exactly the header that the reader has dropped. *)
Theorem header_counts (b o : bytes) (sz : Z) :
  (JSON.ReadMapHeaderBytes b = (sz, o, None) ->
   getSize b = (len b - len o, 2 * sz, None) /\ o = from (len b - len o) b) /\
  (JSON.ReadArrayHeaderBytes b = (sz, o, None) ->
   getSize b = (len b - len o, sz, None) /\ o = from (len b - len o) b).
Proof.
  split; intros H.
  - apply ReadMapHeaderBytes_opened in H as (_ & Ho & Hg & _). auto.
  - apply ReadArrayHeaderBytes_opened in H as (_ & Ho & Hg & _).
    rewrite Z.mul_1_l in Hg. auto.
Qed.

Lemma header_counts_witness :
  getSize [xde; x00; x03; xa1] = (3, 2 * 3, None) /\
  getSize [x92; xc0; xc0] = (1, 2, None).
Proof.
  split.
  - apply (proj1 (header_counts [xde; x00; x03; xa1] [xa1] 3)). reflexivity.
  - apply (proj2 (header_counts [x92; xc0; xc0] [xc0; xc0] 2)). reflexivity.
Defined.

(** *** Narrowing *)

Lemma to_int_fits (w z : Z) :
  0 < w -> - 2 ^ (w - 1) <= z < 2 ^ (w - 1) -> to_int w z = z.
Proof.
  intros Hw Hz. unfold to_int.
  assert (2 ^ w = 2 * 2 ^ (w - 1)) as Hp.
  { replace w with (Z.succ (w - 1)) at 1 by lia. apply Z.pow_succ_r. lia. }
  assert (0 < 2 ^ (w - 1)) by (apply Z.pow_pos_nonneg; lia).
  destruct (Z.le_gt_cases 0 z).
  - rewrite Z.mod_small by lia.
    destruct (Z.ltb_spec z (2 ^ (w - 1))); lia.
  - assert (z mod 2 ^ w = z + 2 ^ w) as ->.
    { rewrite <- (Z.mod_small (z + 2 ^ w) (2 ^ w)) by lia.
      rewrite <- Z.add_mod_idemp_r, Z.mod_same, Z.add_0_r by lia. reflexivity. }
    destruct (Z.ltb_spec (z + 2 ^ w) (2 ^ (w - 1))); lia.
Qed.

(** X8.  The narrower signed readers never wrap: each returns the value, the
    rest and the error of [ReadInt64Bytes] when the value fits its type, and
    otherwise zero, the rest after the integer, and [IntOverflow] with the
    value and the width. *)
Theorem signed_narrowing (b : bytes) :
  let '(i, o, err) := ReadInt64Bytes b in
  ReadInt32Bytes b =
    (if (MinInt32 <=? i) && (i <=? MaxInt32) then (i, o, err)
     else (0, o, Some (IntOverflow i 32))) /\
  ReadInt16Bytes b =
    (if (MinInt16 <=? i) && (i <=? MaxInt16) then (i, o, err)
     else (0, o, Some (IntOverflow i 16))) /\
  ReadInt8Bytes b =
    (if (MinInt8 <=? i) && (i <=? MaxInt8) then (i, o, err)
     else (0, o, Some (IntOverflow i 8))).
Proof.
  unfold ReadInt32Bytes, ReadInt16Bytes, ReadInt8Bytes.
  destruct (ReadInt64Bytes b) as [[i o] err].
  unfold MaxInt32, MinInt32, MaxInt16, MinInt16, MaxInt8, MinInt8.
  repeat split.
  - destruct (Z.gtb_spec i 2147483647), (Z.ltb_spec i (-2147483648)),
      (Z.leb_spec (-2147483648) i), (Z.leb_spec i 2147483647);
      cbn [orb andb]; try lia; try reflexivity.
    rewrite (to_int_fits 32) by (cbn; lia). reflexivity.
  - destruct (Z.gtb_spec i 32767), (Z.ltb_spec i (-32768)),
      (Z.leb_spec (-32768) i), (Z.leb_spec i 32767);
      cbn [orb andb]; try lia; try reflexivity.
    rewrite (to_int_fits 16) by (cbn; lia). reflexivity.
  - destruct (Z.gtb_spec i 127), (Z.ltb_spec i (-128)),
      (Z.leb_spec (-128) i), (Z.leb_spec i 127);
      cbn [orb andb]; try lia; try reflexivity.
    rewrite (to_int_fits 8) by (cbn; lia). reflexivity.
Qed.

Lemma big_Uint64_nonneg (b : bytes) : 0 <= big_Uint64 b.
Proof.
  unfold big_Uint64. pose proof (big_Uint32_nonneg b).
  pose proof (big_Uint32_nonneg (from 4 b)).
  apply Z.lor_nonneg. split; [apply Z.shiftl_nonneg|]; lia.
Qed.

Lemma ReadUint64Bytes_nonneg (b : bytes) : 0 <= (JSON.ReadUint64Bytes b).1.1.
Proof.
  unfold JSON.ReadUint64Bytes, to_uint, getMuint64.
  pose proof (big_Uint64_nonneg (from 1 b)).
  assert (forall z, 0 <= z mod 2 ^ 64) by (intros z; apply Z.mod_pos_bound; lia).
  cbv zeta.
  repeat match goal with
         | |- context [if ?c then _ else _] => destruct c
         end; cbn [fst]; auto; lia.
Qed.

(** X9.  The narrower unsigned readers never wrap either: each returns what
    [ReadUint64Bytes] returns when the value fits its type, and otherwise
    zero, no rest at all, and [UintOverflow] with the value and the width. *)
Theorem unsigned_narrowing (b : bytes) :
  let '(v, o, err) := JSON.ReadUint64Bytes b in
  ReadUint32Bytes b =
    (if v <=? MaxUint32 then (v, o, err) else (0, [], Some (UintOverflow v 32))) /\
  ReadUint16Bytes b =
    (if v <=? MaxUint16 then (v, o, err) else (0, [], Some (UintOverflow v 16))) /\
  ReadUint8Bytes b =
    (if v <=? MaxUint8 then (v, o, err) else (0, [], Some (UintOverflow v 8))) /\
  ReadByteBytes b = ReadUint8Bytes b.
Proof.
  unfold ReadByteBytes, ReadUint32Bytes, ReadUint16Bytes, ReadUint8Bytes.
  pose proof (ReadUint64Bytes_nonneg b) as Hv.
  destruct (JSON.ReadUint64Bytes b) as [[v o] err]. cbn [fst] in Hv.
  unfold MaxUint32, MaxUint16, MaxUint8, to_uint.
  repeat split.
  - destruct (Z.gtb_spec v 4294967295), (Z.leb_spec v 4294967295);
      try lia; try reflexivity.
    rewrite Z.mod_small by lia. reflexivity.
  - destruct (Z.gtb_spec v 65535), (Z.leb_spec v 65535);
      try lia; try reflexivity.
    rewrite Z.mod_small by lia. reflexivity.
  - destruct (Z.gtb_spec v 255), (Z.leb_spec v 255);
      try lia; try reflexivity.
    rewrite Z.mod_small by lia. reflexivity.
Qed.

(** *** What comes back with an error *)

Lemma short_is_empty (b : bytes) : len b < 1 -> b = [].
Proof.
  destruct b as [|x r]; [reflexivity|]. rewrite len_cons.
  pose proof (len_nonneg r). lia.
Qed.

Ltac all_branches :=
  cbv zeta;
  repeat match goal with
         | |- context [if ?c then _ else _] =>
             lazymatch c with
             | (len _ <? 1) => fail
             | _ => destruct c
             end
         end.

(** X10.  With an error no value comes back, and the rest is fixed by the
    reader: [ReadInt64Bytes], [ReadBoolBytes] and [ReadNilBytes] give the
    input back untouched, while [ReadUint64Bytes], [ReadStringZC],
    [ReadBytesZC] and the two header readers give back nothing.  (As byte
    sequences: an empty slice and a nil slice are the same here.) *)
Theorem rest_on_error (b o : bytes) (e : error) :
  (forall i, ReadInt64Bytes b = (i, o, Some e) -> i = 0 /\ o = b) /\
  (forall v, JSON.ReadBoolBytes b = (v, o, Some e) -> v = false /\ o = b) /\
  (JSON.ReadNilBytes b = (o, Some e) -> o = b) /\
  (forall u, JSON.ReadUint64Bytes b = (u, o, Some e) -> u = 0 /\ o = []) /\
  (forall v, ReadStringZC b = (v, o, Some e) -> v = [] /\ o = []) /\
  (forall v, ReadBytesZC b = (v, o, Some e) -> v = [] /\ o = []) /\
  (forall sz, JSON.ReadMapHeaderBytes b = (sz, o, Some e) -> sz = 0 /\ o = []) /\
  (forall sz, JSON.ReadArrayHeaderBytes b = (sz, o, Some e) -> sz = 0 /\ o = []).
Proof.
  repeat apply conj.
  - intros i. unfold ReadInt64Bytes. cbv zeta.
    destruct (Z.ltb_spec (len b) 1) as [Hl|_].
    + intros [= <- <- _]. split; [reflexivity|].
      symmetry. apply short_is_empty. exact Hl.
    + all_branches; intros [= ]; subst; split; reflexivity.
  - intros v. unfold JSON.ReadBoolBytes. all_branches;
      destruct (len b <? 1); intros [= ]; subst; split; reflexivity.
  - unfold JSON.ReadNilBytes.
    destruct (Z.ltb_spec (len b) 1) as [Hl|_].
    + intros [= <- _]. symmetry. apply short_is_empty. exact Hl.
    + all_branches; intros [= ]; subst; reflexivity.
  - intros u. unfold JSON.ReadUint64Bytes. all_branches;
      destruct (len b <? 1); intros [= ]; subst; split; reflexivity.
  - intros v. unfold ReadStringZC, payload. all_branches;
      destruct (len b <? 1); intros [= ]; subst; split; reflexivity.
  - intros v. unfold ReadBytesZC, readBytesBytes. all_branches;
      destruct (len b <? 1); intros [= ]; subst; split; reflexivity.
  - intros sz. unfold JSON.ReadMapHeaderBytes. all_branches;
      destruct (len b <? 1); intros [= ]; subst; split; reflexivity.
  - intros sz. unfold JSON.ReadArrayHeaderBytes. all_branches;
      destruct (len b <? 1); intros [= ]; subst; split; reflexivity.
Qed.

Lemma rest_on_error_witness :
  (0 = 0 /\ [xc3; x01] = [xc3; x01]) /\ (0 = 0 /\ ([] : bytes) = []).
Proof.
  split.
  - apply (proj1 (rest_on_error [xc3; x01] [xc3; x01]
                    (TypeError IntType BoolType)) 0). reflexivity.
  - apply (proj1 (proj2 (proj2 (proj2
             (rest_on_error [xc3; x01] [] (TypeError UintType BoolType))))) 0).
    reflexivity.
Defined.

(** *** Peeking at the type *)

Section Peek.
Variables TimeExtension Complex64Extension Complex128Extension : Z.

Local Abbreviation NextType :=
  (JSON.NextType_bytes TimeExtension Complex64Extension Complex128Extension).

(** The type [NextType] finds for a prefix byte that does not open an
    extension is the type the table gives it. *)
Lemma NextType_plain (b : bytes) :
  b <> [] -> getType (idx b 0) <> ExtensionType ->
  NextType b = getType (idx b 0).
Proof.
  intros Hb Ht. unfold JSON.NextType_bytes.
  destruct (Z.eqb_spec (len b) 0) as [H0|_].
  { destruct b as [|x r]; [congruence|]. rewrite len_cons in H0.
    pose proof (len_nonneg r). lia. }
  cbv zeta. fold (getType (idx b 0)).
  destruct (getType (idx b 0)); try reflexivity. congruence.
Qed.

Ltac peek :=
  rewrite NextType_plain by
    (first [discriminate | unfold idx; cbn [nth]; eval_lead; vm_compute; discriminate]);
  unfold idx; cbn [nth]; eval_lead; try reflexivity.

(** X11.  A reader that succeeds has read the type that [NextType]
    announces: a string for [ReadStringZC], and so on; an integer that
    [ReadInt64Bytes] or [ReadUint64Bytes] accept is announced as [IntType] or
    [UintType], and a float that [ReadFloat64Bytes] accepts as [Float64Type]
    or [Float32Type]. *)
Theorem NextType_of_read (b o : bytes) :
  ((exists v, ReadStringZC b = (v, o, None)) -> NextType b = StrType) /\
  ((exists v, ReadBytesZC b = (v, o, None)) -> NextType b = BinType) /\
  ((exists v, JSON.ReadBoolBytes b = (v, o, None)) -> NextType b = BoolType) /\
  (JSON.ReadNilBytes b = (o, None) -> NextType b = NilType) /\
  ((exists f, JSON.ReadFloat32Bytes b = (f, o, None)) ->
   NextType b = Float32Type) /\
  ((exists sz, JSON.ReadMapHeaderBytes b = (sz, o, None)) ->
   NextType b = MapType) /\
  ((exists sz, JSON.ReadArrayHeaderBytes b = (sz, o, None)) ->
   NextType b = ArrayType) /\
  ((exists i, ReadInt64Bytes b = (i, o, None)) ->
   NextType b = IntType \/ NextType b = UintType) /\
  ((exists u, JSON.ReadUint64Bytes b = (u, o, None)) ->
   NextType b = IntType \/ NextType b = UintType) /\
  ((exists f, JSON.ReadFloat64Bytes b = (f, o, None)) ->
   NextType b = Float64Type \/ NextType b = Float32Type).
Proof.
  destruct b as [|x rest].
  { repeat apply conj; try intros [? H]; try intros H; discriminate H. }
  repeat apply conj; try intros [v Hr]; try intros Hr; revert Hr.
  - unfold ReadStringZC, payload. by_prefix x rest.
    all: split_tests; try discriminate; try lia; intros _; peek.
  - unfold ReadBytesZC, readBytesBytes. by_prefix x rest.
    all: split_tests; try discriminate; try lia; intros _; peek.
  - unfold JSON.ReadBoolBytes. by_prefix x rest.
    all: split_tests; try discriminate; try lia; intros _; peek.
  - unfold JSON.ReadNilBytes. by_prefix x rest.
    all: split_tests; try discriminate; try lia; intros _; peek.
  - unfold JSON.ReadFloat32Bytes. by_prefix x rest.
    all: split_tests; try discriminate; intros _; peek.
  - unfold JSON.ReadMapHeaderBytes. by_prefix x rest.
    all: split_tests; try discriminate; try lia; intros _; peek.
  - unfold JSON.ReadArrayHeaderBytes. by_prefix x rest.
    all: split_tests; try discriminate; try lia; intros _; peek.
  - unfold ReadInt64Bytes. by_prefix x rest.
    all: split_tests; try discriminate; try lia; intros _; peek.
    all: first [left; reflexivity | right; reflexivity].
  - unfold JSON.ReadUint64Bytes. by_prefix x rest.
    all: split_tests; try discriminate; try lia; intros _; peek.
    all: first [left; reflexivity | right; reflexivity].
  - unfold JSON.ReadFloat64Bytes, JSON.ReadFloat32Bytes. by_prefix x rest.
    all: rewrite ?andb_false_r, ?andb_true_r;
      repeat (split_tests; cbv beta iota zeta); try discriminate; try lia;
      intros _; peek; first [left; reflexivity | right; reflexivity].
Qed.

(** The announced type, when it is not an extension, is the type of the
    prefix byte. *)
Lemma NextType_getType (b : bytes) (t : Type_) :
  NextType b = t ->
  t <> InvalidType -> t <> ExtensionType -> t <> TimeType ->
  t <> Complex64Type -> t <> Complex128Type ->
  exists x rest, b = x :: rest /\ getType (b2z x) = t.
Proof.
  unfold JSON.NextType_bytes. destruct b as [|x rest].
  { intros Hn Hi. exfalso. apply Hi. rewrite <- Hn. reflexivity. }
  assert ((len (x :: rest) =? 0) = false) as ->.
  { rewrite len_cons. pose proof (len_nonneg rest). lia. }
  cbv zeta. unfold idx. cbn [nth]. fold (getType (b2z x)).
  intros Hn. exists x, rest. split; [reflexivity|].
  destruct (getType (b2z x)) eqn:Ht; cbn [Type_eqb andb] in Hn; try exact Hn.
  repeat match type of Hn with
         | (if ?c then _ else _) = _ => destruct c
         end; congruence.
Qed.

Ltac by_type Hn x rest :=
  apply NextType_getType in Hn as (x & rest & -> & Hn); try discriminate;
  revert Hn; rewrite ?len_cons; unfold idx; cbn [nth];
  pose proof (len_nonneg rest);
  destruct x; eval_lead; intros Hn; vm_compute in Hn;
  first [discriminate Hn | clear Hn];
  cbv beta iota zeta; eval_tests rest.

(** X12.  When [NextType] announces a type, the reader of that type cannot
    fail on the type: the only error it can return is [ErrShortBytes], for
    an object that is cut short. *)
Theorem announced_type_is_readable (b : bytes) :
  (NextType b = StrType ->
   forall v o e, ReadStringZC b = (v, o, Some e) -> e = ErrShortBytes) /\
  (NextType b = BinType ->
   forall v o e, ReadBytesZC b = (v, o, Some e) -> e = ErrShortBytes) /\
  (NextType b = IntType ->
   forall i o e, ReadInt64Bytes b = (i, o, Some e) -> e = ErrShortBytes) /\
  (NextType b = UintType ->
   forall u o e, JSON.ReadUint64Bytes b = (u, o, Some e) -> e = ErrShortBytes) /\
  (NextType b = BoolType ->
   forall v o e, JSON.ReadBoolBytes b = (v, o, Some e) -> e = ErrShortBytes) /\
  (NextType b = NilType ->
   forall o e, JSON.ReadNilBytes b = (o, Some e) -> e = ErrShortBytes) /\
  (NextType b = Float32Type ->
   forall f o e, JSON.ReadFloat32Bytes b = (f, o, Some e) -> e = ErrShortBytes) /\
  (NextType b = Float64Type ->
   forall f o e, JSON.ReadFloat64Bytes b = (f, o, Some e) -> e = ErrShortBytes) /\
  (NextType b = MapType ->
   forall sz o e, JSON.ReadMapHeaderBytes b = (sz, o, Some e) ->
                  e = ErrShortBytes) /\
  (NextType b = ArrayType ->
   forall sz o e, JSON.ReadArrayHeaderBytes b = (sz, o, Some e) ->
                  e = ErrShortBytes).
Proof.
  repeat apply conj; intros Hn.
  - intros v o e. unfold ReadStringZC, payload. by_type Hn x rest.
    all: split_tests; intros [= ]; congruence.
  - intros v o e. unfold ReadBytesZC, readBytesBytes. by_type Hn x rest.
    all: split_tests; intros [= ]; congruence.
  - intros v o e. unfold ReadInt64Bytes. by_type Hn x rest.
    all: split_tests; intros [= ]; congruence.
  - intros v o e. unfold JSON.ReadUint64Bytes. by_type Hn x rest.
    all: split_tests; intros [= ]; congruence.
  - intros v o e. unfold JSON.ReadBoolBytes. by_type Hn x rest.
    all: split_tests; intros [= ]; congruence.
  - intros o e. unfold JSON.ReadNilBytes. by_type Hn x rest.
    all: split_tests; intros [= ]; congruence.
  - intros v o e. unfold JSON.ReadFloat32Bytes. by_type Hn x rest.
    all: split_tests; intros [= ]; congruence.
  - intros v o e. unfold JSON.ReadFloat64Bytes, JSON.ReadFloat32Bytes.
    by_type Hn x rest.
    all: rewrite ?andb_false_r, ?andb_true_r;
      repeat (split_tests; cbv beta iota zeta); intros [= ]; congruence.
  - intros v o e. unfold JSON.ReadMapHeaderBytes. by_type Hn x rest.
    all: split_tests; intros [= ]; congruence.
  - intros v o e. unfold JSON.ReadArrayHeaderBytes. by_type Hn x rest.
    all: split_tests; intros [= ]; congruence.
Qed.

End Peek.

Lemma NextType_of_read_witness :
  JSON.NextType_bytes 5 3 4 [xa2; x68; x69] = StrType /\
  (JSON.NextType_bytes 5 3 4 [xcc; xff] = IntType \/
   JSON.NextType_bytes 5 3 4 [xcc; xff] = UintType).
Proof.
  split.
  - apply (proj1 (NextType_of_read 5 3 4 [xa2; x68; x69] [])).
    exists [x68; x69]. reflexivity.
  - apply (proj1 (proj2 (proj2 (proj2 (proj2 (proj2 (proj2 (proj2
             (NextType_of_read 5 3 4 [xcc; xff] []))))))))).
    exists 255. reflexivity.
Defined.

Lemma announced_type_is_readable_witness :
  ErrShortBytes = ErrShortBytes.
Proof.
  apply (proj1 (announced_type_is_readable 5 3 4 [xa5; x68; x69])
           eq_refl [] [] ErrShortBytes).
  reflexivity.
Defined.


(** *** [ReadExactBytes] *)

Lemma copy_exact (into src : bytes) (n : Z) :
  n = len into -> n <= len src -> RawObj.copy into src = upto n src.
Proof.
  intros -> Hl. unfold RawObj.copy, upto, len in *. rewrite Nat2Z.id.
  rewrite drop_ge by lia. apply app_nil_r.
Qed.

Lemma ReadExactBytes_body (b into : bytes) (read skip : Z) :
  len into < 2 ^ 32 -> 0 <= read < 2 ^ 32 -> 0 <= skip <= len b ->
  read <= len (from skip b) ->
  (if negb (to_uint 32 read =? to_uint 32 (len into)) then
     (into, ([] : bytes), Some (ArrayError (to_uint 32 (len into)) (to_uint 32 read)))
   else
     (RawObj.copy into (from skip b),
      from (skip + Z.min (len into) (len (from skip b))) b, None)) =
  (if read =? len into then (upto read (from skip b), from read (from skip b), None)
   else (into, [], Some (ArrayError (len into) read))).
Proof.
  intros Hi Hr Hs Hl. pose proof (len_nonneg into).
  unfold to_uint. rewrite !Z.mod_small by lia.
  destruct (Z.eqb_spec read (len into)) as [->|]; cbn [negb]; [|reflexivity].
  rewrite (copy_exact into _ (len into)) by lia.
  rewrite Z.min_l by lia. rewrite from_from by lia. reflexivity.
Qed.

(** X13.  [ReadExactBytes] reads what [ReadBytesZC] reads, provided the
    value has the length of [into]: whenever [ReadBytesZC] succeeds on [b],
    [ReadExactBytes(b, into)] fills [into] with the same value and returns the
    same rest if the lengths agree, and otherwise leaves [into] alone and
    fails with [ArrayError{Wanted: len(into), Got: len(value)}]. *)
Theorem ReadExactBytes_as_ReadBytesZC (b into v o : bytes) :
  len into < 2 ^ 32 ->
  ReadBytesZC b = (v, o, None) ->
  ReadExactBytes b into =
  (if len v =? len into then (v, o, None)
   else (into, [], Some (ArrayError (len into) (len v)))).
Proof.
  intros Hi. destruct b as [|x rest]; [discriminate|].
  unfold ReadBytesZC, readBytesBytes, ReadExactBytes. by_prefix x rest.
  all: repeat match goal with
              | |- context [if ?a <? ?k then _ else _] =>
                  destruct (Z.ltb_spec a k)
              end; try discriminate; try lia; intros Hr; injection Hr as <- <-.
  - rewrite (ReadExactBytes_body (xc4 :: rest) into _ 2 Hi)
      by (rewrite ?len_cons; lia).
    rewrite len_upto by lia. reflexivity.
  - assert (big_Uint16 (from 1 (xc5 :: rest)) < 2 ^ 32) as Hlt.
    { change (from 1 (xc5 :: rest)) with rest.
      unfold big_Uint16. pose proof (idx_range rest 0). pose proof (idx_range rest 1).
      rewrite lor_shiftl by lia. lia. }
    pose proof (big_Uint16_nonneg (from 1 (xc5 :: rest))).
    rewrite (ReadExactBytes_body (xc5 :: rest) into _ 3 Hi)
      by (rewrite ?len_cons; lia).
    rewrite len_upto by lia. reflexivity.
  - assert (big_Uint32 (from 1 (xc6 :: rest)) < 2 ^ 32) as Hlt.
    { change (from 1 (xc6 :: rest)) with rest.
      destruct rest as [|a [|c [|d [|g r]]]];
        try (exfalso; rewrite length_from in *; rewrite ?len_cons in *;
             change (len (@nil byte)) with 0 in *; lia).
      rewrite big_Uint32_be. unfold be. simpl.
      pose proof (b2z_range a). pose proof (b2z_range c).
      pose proof (b2z_range d). pose proof (b2z_range g). lia. }
    pose proof (big_Uint32_nonneg (from 1 (xc6 :: rest))).
    rewrite (ReadExactBytes_body (xc6 :: rest) into _ 5 Hi)
      by (rewrite ?len_cons; lia).
    rewrite len_upto by lia. reflexivity.
Qed.

Lemma ReadExactBytes_as_ReadBytesZC_witness :
  ReadExactBytes [xc4; x02; x68; x69; xc0] [x00; x00] =
  ([x68; x69], [xc0], None).
Proof.
  apply (ReadExactBytes_as_ReadBytesZC [xc4; x02; x68; x69; xc0] [x00; x00]
           [x68; x69] [xc0]).
  - reflexivity.
  - reflexivity.
Defined.

Lemma b2z_z2b (n : Z) : 0 <= n < 256 -> b2z (z2b n) = n.
Proof.
  intros Hn. unfold b2z, z2b. rewrite Z.mod_small by lia.
  destruct (Byte.of_N (Z.to_N n)) as [x|] eqn:Hx.
  - apply Byte.to_of_N in Hx. rewrite Hx. lia.
  - apply Byte.of_N_None_iff in Hx. lia.
Qed.

(** X14.  [ReadExactBytes] does not check that the value is all there.  When
    a bin8 header announces [len(into)] bytes and fewer follow, it returns no
    error: the bytes that are there are copied over the front of [into], the
    tail of [into] keeps what it held, and nothing is left as the rest.
    ([ReadBytesZC] reports [ErrShortBytes] on the same input.) *)
Theorem ReadExactBytes_short_value (p into : bytes) :
  len into < 256 -> len p < len into ->
  ReadExactBytes (xc4 :: z2b (len into) :: p) into =
    (p ++ from (len p) into, [], None) /\
  ReadBytesZC (xc4 :: z2b (len into) :: p) = ([], [], Some ErrShortBytes).
Proof.
  intros Hi Hp. pose proof (len_nonneg p). pose proof (len_nonneg into).
  unfold ReadExactBytes, ReadBytesZC, readBytesBytes.
  rewrite !len_cons. unfold idx. cbn [nth].
  rewrite b2z_z2b by lia.
  change (b2z xc4 =? mbin8) with true. cbv beta iota zeta.
  assert ((1 + (1 + len p) <? 1) = false) as -> by lia.
  assert ((1 + (1 + len p) <? 2) = false) as -> by lia.
  change (from 2 (xc4 :: z2b (len into) :: p)) with p.
  unfold to_uint. rewrite !Z.mod_small by lia.
  rewrite Z.eqb_refl. cbn [negb].
  assert ((len p <? len into) = true) as -> by lia.
  split; [|reflexivity].
  rewrite Z.min_r by lia. f_equal. f_equal.
  - unfold RawObj.copy, from, len in *. rewrite Nat2Z.id.
    rewrite take_ge by lia. reflexivity.
  - unfold from. replace (Z.to_nat (2 + len p)) with (S (S (length p)))
      by (unfold len; lia).
    cbn [drop]. apply drop_all.
Qed.

Lemma ReadExactBytes_short_value_witness :
  ReadExactBytes (xc4 :: z2b (len [x07; x07; x07]) :: [x68]) [x07; x07; x07] =
    ([x68] ++ from (len [x68]) [x07; x07; x07], [], None) /\
  ReadBytesZC (xc4 :: z2b (len [x07; x07; x07]) :: [x68]) =
    ([], [], Some ErrShortBytes).
Proof.
  apply (ReadExactBytes_short_value [x68] [x07; x07; x07]).
  - reflexivity.
  - reflexivity.
Defined.

(** *** Floats *)

(** X15.  A [float32] on the wire can be read as a [float64]: on an input
    whose prefix is that of a [float32], [ReadFloat64Bytes] returns the rest
    and the error of [ReadFloat32Bytes], and its value widened. *)
Theorem ReadFloat64Bytes_of_float32 (b : bytes) :
  idx b 0 = mfloat32 ->
  JSON.ReadFloat64Bytes b =
  (let '(f, o, err) := JSON.ReadFloat32Bytes b in
   (JSON.float64_of_float32 f, o, err)).
Proof.
  intros Hl. unfold JSON.ReadFloat64Bytes. cbv zeta. rewrite Hl.
  change (mfloat32 =? mfloat32) with true.
  change (mfloat32 =? mfloat64) with false. cbn [negb]. rewrite andb_true_r.
  destruct (Z.ltb_spec (len b) 9); [|reflexivity].
  destruct (Z.leb_spec 5 (len b)); [reflexivity|].
  unfold JSON.ReadFloat32Bytes.
  assert ((len b <? 5) = true) as -> by lia. reflexivity.
Qed.

Lemma ReadFloat64Bytes_of_float32_witness :
  JSON.ReadFloat64Bytes [xca; x3d; xcc; xcc; xcd; xc0] =
  (0x3FB99999A0000000, [xc0], None).
Proof.
  apply (ReadFloat64Bytes_of_float32 [xca; x3d; xcc; xcc; xcd; xc0]).
  reflexivity.
Defined.

End ReaderFacts.


(** ** What [rwQuoted] writes *)

Module QuotingFacts.
Import Skipping WireObject Framing JSON.

(** A byte that may stand in the quoted text as it is: no control character,
    and none of [<], [>] and [&]. *)
Definition safe (c : byte) : Prop :=
  0x20 <= b2z c /\ b2z c <> 0x3c /\ b2z c <> 0x3e /\ b2z c <> 0x26.

(** What is left of [rwQuoted] at some point of its run on a
    [bytes.Buffer]: it never fails, appends some safe text and the closing
    quote, and counts every byte of them. *)
Definition grows (k : bytes -> Z -> option (@wres bytes)) : Prop :=
  forall (w : bytes) (n : Z),
    exists body : bytes,
      k w n = Some (w ++ body ++ [x22], (n + len body + 1, None)) /\
      Forall safe body.

Lemma grows_end : grows (byte_then x22 (fun w n => Some (w, (n, None)))).
Proof.
  intros w n. exists []. unfold byte_then. cbn [WriteByte Buffer app].
  change (len (@nil byte)) with 0. rewrite Z.add_0_r.
  split; [reflexivity|constructor].
Qed.

Lemma grows_byte (c : byte) (k : bytes -> Z -> option wres) :
  safe c -> grows k -> grows (byte_then c k).
Proof.
  intros Hc Hk w n. unfold byte_then. cbn [WriteByte Buffer].
  destruct (Hk (w ++ [c]) (n + 1)) as (out & -> & Hs).
  exists (c :: out). rewrite <- List.app_assoc. cbn [app].
  rewrite len_cons. split; [do 3 f_equal; lia|constructor; assumption].
Qed.

Lemma grows_write (b : bytes) (k : bytes -> Z -> option wres) :
  Forall safe b -> grows k -> grows (write_then b k).
Proof.
  intros Hb Hk w n. unfold write_then. cbn [Write Buffer].
  destruct (Hk (w ++ b) (n + len b)) as (out & -> & Hs).
  exists (b ++ out). rewrite <- !List.app_assoc, len_app.
  split; [do 3 f_equal; lia|apply Forall_app; split; assumption].
Qed.

Lemma grows_string (b : bytes) (k : bytes -> Z -> option wres) :
  Forall safe b -> grows k -> grows (string_then b k).
Proof.
  intros Hb Hk w n. unfold string_then. cbn [WriteString Buffer].
  destruct (Hk (w ++ b) (n + len b)) as (out & -> & Hs).
  exists (b ++ out). rewrite <- !List.app_assoc, len_app.
  split; [do 3 f_equal; lia|apply Forall_app; split; assumption].
Qed.

(** The bytes of [s] from [start] up to [i]. *)
Lemma slice_safe (s : bytes) (start i : Z) :
  0 <= start -> start <= i ->
  (forall j : nat, start <= Z.of_nat j < i -> safe (nth j s x00)) ->
  Forall safe (upto (i - start) (from start s)).
Proof.
  intros Hs Hi Hall. apply Forall_lookup. intros k x Hk.
  unfold upto, from in Hk. apply lookup_take_Some in Hk as [Hk Hlt].
  rewrite lookup_drop in Hk.
  specialize (Hall (Z.to_nat start + k)%nat).
  rewrite (nth_lookup_Some _ _ _ _ Hk) in Hall. apply Hall. lia.
Qed.

Lemma grows_flush (s : bytes) (start i : Z) (k : bytes -> Z -> option wres) :
  0 <= start ->
  (forall j : nat, start <= Z.of_nat j < i -> safe (nth j s x00)) ->
  grows k -> grows (flush_then s start i k).
Proof.
  intros Hs Hall Hk. unfold flush_then.
  destruct (Z.ltb_spec start i); [|exact Hk].
  apply grows_write; [|exact Hk]. apply slice_safe; (lia || assumption).
Qed.

Lemma hex_safe (k : Z) : 0 <= k < 16 -> safe (nth (Z.to_nat k) hex x00).
Proof.
  intros Hk.
  assert (exists m : nat, Z.to_nat k = m /\ (m < 16)%nat) as (m & -> & Hm)
    by (exists (Z.to_nat k); split; [reflexivity|lia]).
  do 16 (destruct m as [|m]; [vm_compute; repeat split; congruence|]). lia.
Qed.

Lemma plain_safe (x : byte) : plain (b2z x) = true -> safe x.
Proof.
  unfold plain, safe. intros H.
  repeat match type of H with
         | _ && _ = true => apply andb_prop in H as [H ?]
         end.
  repeat match goal with
         | H : negb (_ =? _) = true |- _ =>
             apply negb_true_iff, Z.eqb_neq in H
         | H : (_ <=? _) = true |- _ => apply Z.leb_le in H
         end. auto.
Qed.

Lemma high_safe (x : byte) : 0x80 <= b2z x -> safe x.
Proof. unfold safe. lia. Qed.

(** A rune that starts with a byte of [0x80] or more lies within the slice
    and is made of such bytes only. *)
Lemma DecodeRune_bytes (p : bytes) :
  1 <= len p -> 0x80 <= idx p 0 ->
  1 <= (DecodeRune p).2 <= len p /\
  forall k : nat, Z.of_nat k < (DecodeRune p).2 -> 0x80 <= idx p k.
Proof.
  intros Hp H0. unfold DecodeRune. cbv zeta.
  assert ((len p <? 1) = false) as -> by lia.
  assert ((idx p 0 <? 128) = false) as -> by lia.
  assert (forall sz : Z, sz = 1 ->
            1 <= sz <= len p /\ forall k : nat, Z.of_nat k < sz -> 0x80 <= idx p k)
    as Hone.
  { intros sz ->. split; [lia|]. intros k Hk.
    replace k with 0%nat by lia. exact H0. }
  destruct ((idx p 0 <? 194) || (244 <? idx p 0)); [apply Hone; reflexivity|].
  set (sz := if idx p 0 <? 224 then 2 else if idx p 0 <? 240 then 3 else 4).
  set (lo := if idx p 0 =? 224 then 160 else if idx p 0 =? 240 then 144 else 128).
  set (hi := if idx p 0 =? 237 then 159 else if idx p 0 =? 244 then 143 else 191).
  assert (128 <= lo) as Hlo by (unfold lo; repeat destruct (_ =? _); lia).
  destruct (Z.ltb_spec (len p) sz) as [|Hn]; [apply Hone; reflexivity|].
  destruct (Z.ltb_spec (idx p 1) lo) as [|H1]; cbn [orb];
    [apply Hone; reflexivity|].
  destruct (hi <? idx p 1); [apply Hone; reflexivity|].
  destruct (Z.leb_spec sz 2) as [Hs2|Hs2].
  { cbn [snd]. assert (sz = 2) as Hsz
      by (unfold sz in *; repeat destruct (_ <? _); lia).
    split; [lia|]. intros k Hk.
    destruct k as [|[|k]]; [exact H0|lia|lia]. }
  destruct (Z.ltb_spec (idx p 2) 128) as [|H2]; cbn [orb];
    [apply Hone; reflexivity|].
  destruct (191 <? idx p 2); [apply Hone; reflexivity|].
  destruct (Z.leb_spec sz 3) as [Hs3|Hs3].
  { cbn [snd]. assert (sz = 3) as Hsz
      by (unfold sz in *; repeat destruct (_ <? _); lia).
    split; [lia|]. intros k Hk.
    destruct k as [|[|[|k]]]; [exact H0|lia|lia|lia]. }
  destruct (Z.ltb_spec (idx p 3) 128) as [|H3]; cbn [orb];
    [apply Hone; reflexivity|].
  destruct (191 <? idx p 3); [apply Hone; reflexivity|].
  cbn [snd]. assert (sz = 4) as Hsz
    by (unfold sz in *; repeat destruct (_ <? _); lia).
  split; [lia|]. intros k Hk.
  destruct k as [|[|[|[|k]]]]; [exact H0|lia|lia|lia|lia].
Qed.

Lemma idx_from (i : Z) (s : bytes) (k : nat) :
  0 <= i -> idx (from i s) k = idx s (Z.to_nat i + k).
Proof.
  intros Hi. unfold idx, from. f_equal.
  rewrite !nth_lookup, lookup_drop. reflexivity.
Qed.

(** The loop of [rwQuoted], on a buffer: whatever [s] holds, it appends
    safe text and counts it. *)
Lemma rwQuoted_loop_grows (fuel : nat) :
  forall (s : bytes) (start i : Z),
    0 <= start -> start <= i -> i <= len s ->
    len s - i <= Z.of_nat fuel ->
    (forall j : nat, start <= Z.of_nat j < i -> safe (nth j s x00)) ->
    grows (rwQuoted_loop fuel s start i).
Proof.
  induction fuel as [|fuel IH]; intros s start i Hs Hi Hl Hf Hall.
  - cbn [rwQuoted_loop]. assert ((i <? len s) = false) as -> by lia.
    apply grows_flush; [lia| |apply grows_end].
    intros j Hj. apply Hall. lia.
  - cbn [rwQuoted_loop]. destruct (Z.ltb_spec i (len s)) as [Hlt|Hge].
    2:{ apply grows_flush; [lia| |apply grows_end].
        intros j Hj. apply Hall. lia. }
    assert (forall j, i + 1 <= j -> j <= len s ->
              grows (rwQuoted_loop fuel s j j)) as Hfresh.
    { intros j Hj Hjl. apply IH; lia. }
    set (b := idx s (Z.to_nat i)).
    pose proof (idx_range s (Z.to_nat i)) as Hb. fold b in Hb.
    destruct (Z.ltb_spec b RuneSelf) as [Hlow|Hhigh].
    + destruct (plain b) eqn:Hplain.
      * apply IH; try lia. intros j Hj.
        destruct (Z.eq_dec (Z.of_nat j) i) as [Heq|Hne].
        -- apply plain_safe. unfold b, idx in Hplain.
           replace j with (Z.to_nat i) by lia. exact Hplain.
        -- apply Hall. lia.
      * apply grows_flush; [lia|exact Hall|]. intros w n.
        assert (safe x5c) as S5c by (vm_compute; repeat split; congruence).
        assert (safe x6e) as S6e by (vm_compute; repeat split; congruence).
        assert (safe x72) as S72 by (vm_compute; repeat split; congruence).
        destruct (Z.eqb_spec b 92) as [Hb5c|]; cbn [orb].
        { apply grows_byte; [exact S5c|]. apply grows_byte; [|apply Hfresh; lia].
          rewrite Hb5c. vm_compute. repeat split; congruence. }
        destruct (Z.eqb_spec b 34) as [Hb22|].
        { apply grows_byte; [exact S5c|]. apply grows_byte; [|apply Hfresh; lia].
          rewrite Hb22. vm_compute. repeat split; congruence. }
        destruct (b =? 10).
        { apply grows_byte; [exact S5c|]. apply grows_byte; [exact S6e|].
          apply Hfresh; lia. }
        destruct (b =? 13).
        { apply grows_byte; [exact S5c|]. apply grows_byte; [exact S72|].
          apply Hfresh; lia. }
        apply grows_string.
        { repeat constructor; vm_compute; repeat split; congruence. }
        apply grows_byte.
        { apply hex_safe. rewrite Z.shiftr_div_pow2 by lia.
          unfold RuneSelf in Hlow. change (2 ^ 4) with 16.
          split; [apply Z.div_pos; lia|apply Z.div_lt_upper_bound; lia]. }
        apply grows_byte.
        { apply hex_safe. change 15 with (Z.ones 4). rewrite Z.land_ones by lia.
          apply Z.mod_pos_bound. lia. }
        apply Hfresh; lia.
    + assert (1 <= len (from i s)) as Hlen
        by (rewrite Skipping.length_from; lia).
      assert (0x80 <= idx (from i s) 0) as Hlead.
      { rewrite idx_from by lia. rewrite Nat.add_0_r. exact Hhigh. }
      pose proof (DecodeRune_bytes (from i s) Hlen Hlead) as [Hsz Hbytes].
      rewrite Skipping.length_from in Hsz by lia.
      destruct (DecodeRune (from i s)) as [c size]. cbn [snd] in Hsz, Hbytes.
      assert (forall j : nat, start <= Z.of_nat j < i + size ->
                safe (nth j s x00)) as Hall'.
      { intros j Hj. destruct (Z.lt_ge_cases (Z.of_nat j) i) as [Hji|Hji].
        - apply Hall. lia.
        - apply high_safe.
          specialize (Hbytes (j - Z.to_nat i)%nat).
          rewrite idx_from in Hbytes by lia.
          replace (Z.to_nat i + (j - Z.to_nat i))%nat with j in Hbytes by lia.
          apply Hbytes. lia. }
      assert (grows (rwQuoted_loop fuel s start (i + size))) as Hkeep
        by (apply IH; try lia; exact Hall').
      intros w n.
      destruct ((c =? RuneError) && (size =? 1)).
      * destruct (Z.ltb_spec start i).
        -- apply grows_write; [apply slice_safe; (lia || assumption)|].
           apply grows_string.
           { repeat constructor; vm_compute; repeat split; congruence. }
           apply IH; lia.
        -- destruct ((c =? 8232) || (c =? 8233)); [|apply Hkeep].
           destruct (Z.ltb_spec start i); [lia|]. apply Hkeep.
      * destruct ((c =? 8232) || (c =? 8233)); [|apply Hkeep].
        destruct (Z.ltb_spec start i); [|apply Hkeep].
        apply grows_write; [apply slice_safe; (lia || assumption)|].
        apply grows_string.
        { repeat constructor; vm_compute; repeat split; congruence. }
        apply grows_byte; [|exact Hkeep].
        apply hex_safe. change 15 with (Z.ones 4). rewrite Z.land_ones by lia.
        apply Z.mod_pos_bound. lia.
Qed.

(** On a [bytes.Buffer] [rwQuoted] never fails, and returns the number of
    bytes it has appended. *)
Lemma rwQuoted_on_buffer (w s : bytes) :
  exists body : bytes,
    rwQuoted w s = Some (w ++ [x22] ++ body ++ [x22], (len body + 2, None)).
Proof.
  unfold rwQuoted, byte_then. cbn [WriteByte Buffer].
  destruct (rwQuoted_loop_grows (length s) s 0 0) with (w := w ++ [x22]) (n := 0 + 1)
    as (body & Hb & _); try lia.
  - apply len_nonneg.
  - unfold len. lia.
  - exists body. rewrite Hb, <- List.app_assoc. do 3 f_equal. lia.
Qed.

(** X16.  On a [bytes.Buffer] [rwQuoted] never fails and its count is right:
    for every input it appends an opening quote, some text and a closing
    quote, and returns the number of bytes it has appended. *)
Theorem rwQuoted_counts (w s : bytes) :
  exists body : bytes,
    rwQuoted w s = Some (w ++ [x22] ++ body ++ [x22], (len body + 2, None)).
Proof. apply rwQuoted_on_buffer. Qed.

(** X17.  Whatever bytes the input holds, valid text or not, the quoted
    text holds no control character and none of [<], [>] and [&]: every byte
    written is [0x20] or above and is not one of these three. *)
Theorem rwQuoted_text_is_safe (s : bytes) :
  exists (out : bytes) (n : Z),
    rwQuoted [] s = Some (out, (n, None)) /\ Forall safe out.
Proof.
  unfold rwQuoted, byte_then. cbn [WriteByte Buffer app].
  destruct (rwQuoted_loop_grows (length s) s 0 0) with (w := [x22]) (n := 0 + 1)
    as (body & Hb & Hsafe); try lia.
  - apply len_nonneg.
  - unfold len. lia.
  - assert (safe x22) as Hq by (vm_compute; repeat split; congruence).
    eexists _, _. split; [exact Hb|].
    constructor; [exact Hq|]. apply Forall_app. split; [exact Hsafe|].
    constructor; [exact Hq|constructor].
Qed.

(** *** Plain text *)

Lemma rwQuoted_loop_plain (fuel : nat) (s : bytes) :
  Forall (fun c => plain (b2z c) = true /\ b2z c < RuneSelf) s ->
  forall (i : Z) (w : bytes) (n : Z),
    0 <= i -> len s - i <= Z.of_nat fuel ->
    rwQuoted_loop fuel s 0 i w n =
    flush_then s 0 (len s) (byte_then x22 (fun w n => Some (w, (n, None)))) w n.
Proof.
  intros Hs. induction fuel as [|fuel IH]; intros i w n Hi Hf.
  - cbn [rwQuoted_loop]. assert ((i <? len s) = false) as -> by lia. reflexivity.
  - cbn [rwQuoted_loop]. destruct (Z.ltb_spec i (len s)); [|reflexivity].
    assert (plain (idx s (Z.to_nat i)) = true /\ idx s (Z.to_nat i) < RuneSelf)
      as [Hp Hl].
    { rewrite Forall_lookup in Hs. unfold idx.
      destruct (s !! Z.to_nat i) as [c|] eqn:Hc.
      - rewrite (nth_lookup_Some _ _ _ _ Hc). exact (Hs _ _ Hc).
      - apply lookup_ge_None in Hc. unfold len in *. lia. }
    assert ((idx s (Z.to_nat i) <? RuneSelf) = true) as -> by lia.
    rewrite Hp. apply IH; lia.
Qed.

(** X18.  Text without anything to escape goes through unchanged: when
    every byte of [s] is ASCII, not a control character and none of the
    backslash, the quote, [<], [>] and [&], [rwQuoted] writes [s] between two
    quotes. *)
Theorem rwQuoted_plain_text (w s : bytes) :
  Forall (fun c => plain (b2z c) = true /\ b2z c < RuneSelf) s ->
  rwQuoted w s = Some (w ++ [x22] ++ s ++ [x22], (len s + 2, None)).
Proof.
  intros Hs. unfold rwQuoted. unfold byte_then at 1. cbn [WriteByte Buffer].
  rewrite (rwQuoted_loop_plain _ _ Hs) by (unfold len; lia).
  unfold flush_then, write_then, byte_then. cbn [Write WriteByte Buffer].
  destruct (Z.ltb_spec 0 (len s)) as [Hpos|Hzero].
  - change (from 0 s) with s. rewrite Z.sub_0_r.
    unfold upto, len. rewrite Nat2Z.id, firstn_all.
    rewrite <- !List.app_assoc. do 3 f_equal. unfold len. lia.
  - assert (s = []) as -> by (destruct s; [reflexivity|rewrite len_cons in Hzero;
                              pose proof (len_nonneg s); lia]).
    rewrite <- !List.app_assoc. reflexivity.
Qed.

Lemma rwQuoted_plain_text_witness :
  rwQuoted [x5b] (lit "a b") =
  Some ([x5b] ++ [x22] ++ lit "a b" ++ [x22], (len (lit "a b") + 2, None)).
Proof.
  apply (rwQuoted_plain_text [x5b] (lit "a b")).
  repeat constructor.
Defined.

End QuotingFacts.


(** ** What the size generator keeps *)

Module GenFacts.
Import Gen.
Local Open Scope string_scope.

Lemma sapp_assoc (a b c : string) : (a ++ b) ++ c = a ++ b ++ c.
Proof.
  induction a as [|x a IH]; [reflexivity|].
  change (String x ((a ++ b) ++ c) = String x (a ++ b ++ c)). f_equal. exact IH.
Qed.

Lemma sapp_nil_r (a : string) : a ++ "" = a.
Proof.
  induction a as [|x a IH]; [reflexivity|].
  change (String x (a ++ "") = String x a). f_equal. exact IH.
Qed.

(** Induction on elements, with the fields of a struct. *)
Lemma Elem_ind' (P : Elem -> Prop)
    (HStruct : forall fields asTuple,
        Forall (fun f => P (snd f)) fields -> P (Struct fields asTuple))
    (HPtr : forall v name, P v -> P (Ptr v name))
    (HSlice : forall els index name, P els -> P (Slice els index name))
    (HArray : forall els size index name, P els -> P (Array els size index name))
    (HMap : forall v k x name, P v -> P (Map v k x name))
    (HBase : forall b, P (Base b)) :
  forall e, P e.
Proof.
  fix IH 1. intros [fields asTuple|v name|els index name|els size index name
                   |v k x name|b].
  - apply HStruct. induction fields as [|[tag fe] fs IHfs]; constructor.
    + apply IH.
    + exact IHfs.
  - apply HPtr, IH.
  - apply HSlice, IH.
  - apply HArray, IH.
  - apply HMap, IH.
  - apply HBase.
Qed.

Section Invariants.
Variable randIdent : nat -> string.
Variable declareText : string -> string -> string.
Variable closeBlockText : string.
Variable rangeHeadText : string -> string -> string.

Local Abbreviation next :=
  (Gen.next randIdent declareText closeBlockText rangeHeadText).

(** The printer works, the state is not [assign], and what had been printed
    is still there, at the front. *)
Definition carried_on (s s' : sizeGen) : Prop :=
  ok (p s') = true /\ state s' <> assign /\
  exists text, out (p s') = out (p s) ++ text.

Lemma carried_on_trans (s1 s2 s3 : sizeGen) :
  (exists t, out (p s2) = out (p s1) ++ t) -> carried_on s2 s3 -> carried_on s1 s3.
Proof.
  intros [t Ht] (Hok & Hst & u & Hu). repeat split; try assumption.
  exists (t ++ u). rewrite Hu, Ht. apply sapp_assoc.
Qed.

Lemma with_print (f : string) (s : sizeGen) :
  ok (p s) = true ->
  ok (p (with_p (print f) s)) = true /\
  out (p (with_p (print f) s)) = out (p s) ++ f /\
  state (with_p (print f) s) = state s.
Proof.
  intros H. unfold with_p, print. cbn [p state]. rewrite H. cbn. auto.
Qed.

Lemma carried_on_step (s1 s2 s3 : sizeGen) :
  carried_on s1 s2 -> carried_on s2 s3 -> carried_on s1 s3.
Proof.
  intros (_ & _ & t & Ht) H. apply (carried_on_trans s1 s2 s3); [eauto|exact H].
Qed.

Lemma addConstant_carries (sz : string) (s : sizeGen) :
  ok (p s) = true ->
  carried_on s (addConstant sz s) /\ state (addConstant sz s) = expr.
Proof.
  intros H. unfold addConstant, carried_on. rewrite H. cbn [negb].
  destruct s as [pr st n]. cbn [p state] in *.
  destruct st; unfold set_state, with_p, print; cbn [p state out];
    rewrite H; cbn [p state out ok err];
    repeat split; try discriminate; eauto.
Qed.

Lemma print_carries (f : string) (st : sizeState) (s : sizeGen) :
  ok (p s) = true -> st <> assign ->
  carried_on s (set_state st (with_p (print f) s)).
Proof.
  intros H Hst. destruct (with_print f s H) as (H1 & H2 & _).
  repeat split; [exact H1|exact Hst|exists f; exact H2].
Qed.

(** What a state change alone leaves as it is. *)
Lemma set_state_p (st : sizeState) (s : sizeGen) : p (set_state st s) = p s.
Proof. reflexivity. Qed.

Lemma carried_on_set_state (st : sizeState) (s s' : sizeGen) :
  carried_on s s' -> st <> assign -> carried_on s (set_state st s').
Proof. intros (H1 & _ & H3) Hst. repeat split; assumption. Qed.

Lemma carried_on_print (f : string) (s s' : sizeGen) :
  carried_on s s' -> carried_on s (with_p (print f) s').
Proof.
  intros (H1 & H2 & t & Ht). destruct (with_print f s' H1) as (G1 & G2 & G3).
  repeat split; [exact G1|rewrite G3; exact H2|].
  exists (t ++ f). rewrite G2, Ht. apply sapp_assoc.
Qed.

Lemma carried_on_start (st : sizeState) (s : sizeGen) :
  ok (p s) = true -> st <> assign -> carried_on s (set_state st s).
Proof.
  intros H Hst. repeat split; [exact H|exact Hst|].
  exists "". symmetry. apply sapp_nil_r.
Qed.


Lemma print_failed (f : string) (s : sizeGen) :
  ok (p s) = false -> p (with_p (print f) s) = p s.
Proof. intros H. unfold with_p, print. cbn [p]. rewrite H. reflexivity. Qed.

Lemma addConstant_failed_p (sz : string) (s : sizeGen) :
  ok (p s) = false -> p (addConstant sz s) = p s.
Proof. intros H. unfold addConstant. rewrite H. reflexivity. Qed.

(** X20.  Once the printer has recorded an error, a visit prints nothing
    more, whatever the element: the printer comes back as it went in. *)
Theorem next_prints_nothing_after_error (e : Elem) :
  forall s : sizeGen, ok (p s) = false -> p (next e s) = p s.
Proof.
  induction e as [fields asTuple IH|v name IH|els index name IH
                 |els size index name IH|v k x name IH|b] using Elem_ind';
    intros s Hok.
  - cbn [Gen.next]. rewrite Hok. reflexivity.
  - cbn [Gen.next]. unfold closeBlock.
    rewrite print_failed; rewrite ?set_state_p.
    + rewrite IH; rewrite ?print_failed; rewrite ?set_state_p; auto.
    + rewrite IH; rewrite ?print_failed; rewrite ?set_state_p; auto.
  - cbn [Gen.next]. rewrite Hok. reflexivity.
  - cbn [Gen.next]. rewrite Hok. reflexivity.
  - cbn [Gen.next]. unfold closeBlock.
    assert (forall f s0, p s0 = p s -> p (with_p (print f) s0) = p s) as Hpr.
    { intros f s0 Hs0. rewrite print_failed; [exact Hs0|]. rewrite Hs0. exact Hok. }
    rewrite set_state_p. do 2 apply Hpr.
    rewrite IH.
    + rewrite set_state_p. do 4 apply Hpr. apply addConstant_failed_p, Hok.
    + rewrite set_state_p.
      rewrite (Hpr _ _ (Hpr _ _ (Hpr _ _ (Hpr _ _ (addConstant_failed_p _ s Hok))))).
      exact Hok.
  - cbn [Gen.next]. unfold gBase. rewrite Hok. reflexivity.
Qed.

(** *** A struct of plain fields *)

(** A field that [gBase] hands to [addConstant]: a base element that is not
    shimmed through a conversion function. *)
Definition direct (b : BaseElem) : bool :=
  negb (ConvertFlag b) || match ShimMode b with Cast => true | Convert => false end.

(** The two terms of such a field of a map-encoded struct: the length of
    the encoded tag and the size expression of the value. *)
Definition field_terms (f : string * Elem) : string :=
  match f with
  | (tag, Base b) =>
      " + " ++ Itoa (string_len tag) ++ " + " ++
      baseSizeExpr (Value b)
        (if ConvertFlag b then toBaseConvert b else Varname b) (BaseName b)
  | _ => ""
  end.

Lemma gBase_direct (b : BaseElem) (s : sizeGen) :
  direct b = true ->
  gBase randIdent declareText b s =
  addConstant (baseSizeExpr (Value b)
                 (if ConvertFlag b then toBaseConvert b else Varname b)
                 (BaseName b)) s.
Proof.
  unfold direct, gBase. intros Hd.
  destruct (ok (p s)) eqn:Hok; cbn [negb].
  2:{ unfold addConstant. rewrite Hok. reflexivity. }
  destruct (ConvertFlag b), (ShimMode b); try reflexivity. discriminate.
Qed.

Lemma addConstant_expr (sz : string) (s : sizeGen) :
  ok (p s) = true -> state s = expr ->
  addConstant sz s =
  mkgen (mkprinter (out (p s) ++ " + " ++ sz) None) expr (idents s).
Proof.
  destruct s as [pr st n]. cbn [p state idents]. intros Hok ->.
  unfold addConstant, with_p, print. cbn [p state idents].
  rewrite Hok. reflexivity.
Qed.

(** The loop of [gStruct] over the fields of a map-encoded struct. *)
Definition fields_loop : list (string * Elem) -> sizeGen -> sizeGen :=
  fix loop (fs : list (string * Elem)) (s : sizeGen) : sizeGen :=
    match fs with
    | [] => s
    | (tag, fe) :: fs' =>
        loop fs' (next fe (addConstant (Itoa (string_len tag)) s))
    end.

Lemma concat_cons (x : string) (xs : list string) :
  String.concat "" (x :: xs) = x ++ String.concat "" xs.
Proof. destruct xs; [symmetry; apply sapp_nil_r|reflexivity]. Qed.

Lemma fields_loop_direct (fs : list (string * Elem)) :
  Forall (fun f => exists b, snd f = Base b /\ direct b = true) fs ->
  forall (n : nat) (text : string),
    fields_loop fs (mkgen (mkprinter text None) expr n) =
    mkgen (mkprinter (text ++ String.concat "" (map field_terms fs)) None) expr n.
Proof.
  induction 1 as [|[tag fe] fs (b & Hfe & Hd) _ IH]; intros n text.
  - cbn [fields_loop map String.concat]. rewrite sapp_nil_r. reflexivity.
  - cbn [snd] in Hfe. subst fe. cbn [fields_loop Gen.next].
    rewrite (addConstant_expr (Itoa (string_len tag))) by reflexivity.
    cbn [p out idents].
    rewrite gBase_direct by exact Hd.
    rewrite addConstant_expr by reflexivity. cbn [p out idents].
    rewrite IH. cbn [map]. rewrite concat_cons. cbn [field_terms].
    rewrite !sapp_assoc. reflexivity.
Qed.


End Invariants.

(** Sample texts for the pieces of the generator that are declared outside
    the source files at hand. *)
Definition sample_ident (n : nat) : string := "z" ++ Itoa (Z.of_nat n).
Definition sample_declare (name typ : string) : string :=
  nl ++ "var " ++ name ++ " " ++ typ.
Definition sample_close : string := nl ++ "}".
Definition sample_range (idx iter : string) : string :=
  nl ++ "for " ++ idx ++ " := range " ++ iter ++ " {".


Lemma next_prints_nothing_after_error_witness :
  p (Gen.next sample_ident sample_declare sample_close sample_range
       (Ptr (Base (mkbase Primitive.Int8 "z" false Cast "Int8" "int8" "")) "z")
          (mkgen (mkprinter "x" (Some fatal)) assign 0)) =
  mkprinter "x" (Some fatal).
Proof.
  apply (next_prints_nothing_after_error sample_ident sample_declare sample_close
           sample_range
           (Ptr (Base (mkbase Primitive.Int8 "z" false Cast "Int8" "int8" "")) "z")
           (mkgen (mkprinter "x" (Some fatal)) assign 0)).
  reflexivity.
Defined.


(** An element all of whose parts have a size known in advance: arrays and
    structs of such elements, down to base elements of fixed size. *)
Fixpoint fixed (e : Elem) : bool :=
  match e with
  | Array els _ _ _ => fixed els
  | Base b => fixedSize (Value b)
  | Struct fields _ =>
      (fix all (fs : list (string * Elem)) : bool :=
         match fs with
         | [] => true
         | (_, fe) :: fs' => fixed fe && all fs'
         end) fields
  | _ => false
  end.

(** X22.  [fixedSizeExpr] finds an expression exactly for the elements that
    are arrays and structs of fixed-size base elements, at any depth; one
    pointer, slice, map or base element of varying size anywhere inside makes
    it give up, and then the expression it returns is empty. *)
Theorem fixedSizeExpr_fixed (e : Elem) :
  snd (fixedSizeExpr e) = fixed e /\
  (fixed e = false -> fst (fixedSizeExpr e) = "").
Proof.
  induction e as [fields asTuple IH|v name _|els index name _
                 |els size index name IH|v k x name _|b] using Elem_ind'.
  - cbn [fixedSizeExpr fixed].
    match goal with
    | |- context [match ?f fields "" with _ => _ end] => set (fold := f)
    end.
    match goal with
    | |- context [_ = ?g fields] => set (all := g)
    end.
    assert (forall str, match fold fields str with
                        | None => all fields = false
                        | Some _ => all fields = true
                        end) as Hfold.
    { induction IH as [|[tag fe] fs [Hs Hn] _ IHfs]; intros str; [reflexivity|].
      cbn [fold all snd] in *.
      destruct (fixedSizeExpr fe) as [fstr okk]. cbn [snd fst] in Hs.
      rewrite <- Hs. destruct okk; [apply IHfs|reflexivity]. }
    specialize (Hfold ""). destruct (fold fields "") as [str|].
    + rewrite Hfold. split; [reflexivity|discriminate].
    + rewrite Hfold. split; reflexivity.
  - split; reflexivity.
  - split; reflexivity.
  - cbn [fixedSizeExpr fixed]. destruct IH as [Hs Hn].
    destruct (fixedSizeExpr els) as [str okk]. cbn [snd fst] in *.
    rewrite <- Hs. destruct okk; split; try reflexivity; discriminate.
  - split; reflexivity.
  - cbn [fixedSizeExpr fixed]. destruct (fixedSize (Value b)); split;
      try reflexivity; discriminate.
Qed.

End GenFacts.


(** ** Reading an object as a raw [interface{}] *)

Module Intf.
Import Wire Decoder Skipping WireObject Readers Framing.

(** Bytes as map keys: a Go [string] is its bytes. *)
Definition byte_eq_dec (a b : byte) : {a = b} + {a <> b}.
Proof.
  destruct (N.eq_dec (Byte.to_N a) (Byte.to_N b)) as [H|H].
  - left. apply (f_equal Byte.of_N) in H. rewrite !Byte.of_to_N in H.
    congruence.
  - right. congruence.
Defined.

#[export] Instance byte_eqdec : EqDecision byte := byte_eq_dec.
#[export] Instance byte_countable : Countable byte :=
  inj_countable Byte.to_N Byte.of_N Byte.of_to_N.

Section ReadIntf.

(** The tags of the extension types the codec defines itself. *)
Variables TimeExtension Complex64Extension Complex128Extension : Z.

(** The extension machinery, declared outside the source files at hand:
    the registry [extensionReg] (the lookup [extensionReg[t]] followed by the
    call [f()] of the factory found), [peekExtension(b)], which returns the
    tag and an error, and [ReadExtensionBytes(b, e)], which returns the
    extension as the call leaves it, the rest and an error. *)
Variable E : Type.
Context `{HE : JSON.Extension E}.
Variable extensionReg : Z -> option E.
Variable peekExtension : bytes -> Z * option error.
Variable ReadExtensionBytes :
  forall X : Type, JSON.Extension X -> bytes -> X -> X * bytes * option error.

(** The values an [interface{}] holds after [ReadIntfBytes].  [INil] is the
    nil interface; the map of [IMap] is [None] for a nil map. *)
#[local] Unset Elimination Schemes.
Inductive intf : Type :=
| INil
| IMap (m : option (gmap bytes intf))
| IArray (j : list intf)
| IFloat32 (f : Z)
| IFloat64 (f : Z)
| IInt (i : Z)
| IUint (u : Z)
| IBool (v : bool)
| ITime (t : Z * Z)
| IComplex64 (c : Z * Z)
| IComplex128 (c : Z * Z)
| IExt (e : E)
| IRaw (e : JSON.RawExtension)
| IBytes (v : bytes)
| IString (s : bytes).
#[local] Set Elimination Schemes.

Definition ires : Type := (intf * bytes * option error)%type.
Definition mres : Type := (option (gmap bytes intf) * bytes * option error)%type.

(** [for key := range old { delete(old, key) }]. *)
Definition clear (old : gmap bytes intf) : gmap bytes intf :=
  map_fold (fun key _ m => delete key m) old old.

(** The loop of [ReadMapStrIntfBytes], with [k] entries still to read;
    [rd] is [ReadIntfBytes]. *)
Definition map_loop (rd : bytes -> option ires)
  : nat -> gmap bytes intf -> bytes -> option mres :=
  fix loop (k : nat) (old : gmap bytes intf) (o : bytes) : option mres :=
    match k with
    | O => Some (Some old, o, None)
    | S k =>
        if len o <? 1 then Some (Some old, o, Some ErrShortBytes)
        else
          let '(key, o, err) := ReadMapKeyZC o in
          match err with
          | Some e => Some (Some old, o, Some e)
          | None =>
              match rd o with
              | None => None
              | Some (val, o, Some e) => Some (Some old, o, Some e)
              | Some (val, o, None) => loop k (<[key := val]> old) o
              end
          end
    end.

(** [ReadMapStrIntfBytes(b, old)], with [ReadIntfBytes] as [rd]. *)
Definition ReadMapStrIntfBytes_with (rd : bytes -> option ires)
    (b : bytes) (old : option (gmap bytes intf)) : option mres :=
  let '(sz, o, err) := JSON.ReadMapHeaderBytes b in
  match err with
  | Some e => Some (old, o, Some e)
  | None =>
      let old :=
        match old with
        | Some m => clear m
        | None => empty
        end in
      map_loop rd (Z.to_nat sz) old o
  end.

(** The loop of the array case: [j] has its length from the start, and
    [j[d]] is assigned whatever [ReadIntfBytes] returned, also with an
    error. *)
Definition array_loop (rd : bytes -> option ires)
  : nat -> nat -> list intf -> bytes -> option ires :=
  fix loop (k d : nat) (j : list intf) (o : bytes) : option ires :=
    match k with
    | O => Some (IArray j, o, None)
    | S k =>
        match rd o with
        | None => None
        | Some (v, o, Some e) => Some (IArray (<[d := v]> j), o, Some e)
        | Some (v, o, None) => loop k (S d) (<[d := v]> j) o
        end
    end.

(** [ReadIntfBytes(b)], with [rd] for the calls of [ReadIntfBytes] on the
    elements. *)
Definition ReadIntfBytes_with (rd : bytes -> option ires) (b : bytes)
  : option ires :=
  if len b <? 1 then Some (INil, [], Some ErrShortBytes)
  else
    match JSON.NextType_bytes TimeExtension Complex64Extension
            Complex128Extension b with
    | MapType =>
        match ReadMapStrIntfBytes_with rd b None with
        | None => None
        | Some (m, o, err) => Some (IMap m, o, err)
        end
    | ArrayType =>
        let '(sz, o, err) := JSON.ReadArrayHeaderBytes b in
        match err with
        | Some e => Some (INil, o, Some e)
        | None =>
            array_loop rd (Z.to_nat sz) 0
              (repeat INil (Z.to_nat sz)) o
        end
    | Float32Type =>
        let '(f, o, err) := JSON.ReadFloat32Bytes b in Some (IFloat32 f, o, err)
    | Float64Type =>
        let '(f, o, err) := JSON.ReadFloat64Bytes b in Some (IFloat64 f, o, err)
    | IntType =>
        let '(i, o, err) := ReadInt64Bytes b in Some (IInt i, o, err)
    | UintType =>
        let '(u, o, err) := JSON.ReadUint64Bytes b in Some (IUint u, o, err)
    | BoolType =>
        let '(v, o, err) := JSON.ReadBoolBytes b in Some (IBool v, o, err)
    | TimeType =>
        let '(t, o, err) := JSON.ReadTimeBytes TimeExtension b in
        Some (ITime t, o, err)
    | Complex64Type =>
        let '(c, o, err) := ReadComplex64Bytes Complex64Extension b in
        Some (IComplex64 c, o, err)
    | Complex128Type =>
        let '(c, o, err) := ReadComplex128Bytes Complex128Extension b in
        Some (IComplex128 c, o, err)
    | ExtensionType =>
        let '(t, err) := peekExtension b in
        match err with
        | Some e => Some (INil, [], Some e)
        | None =>
            match extensionReg t with
            | Some e =>
                let '(e, o, err) := ReadExtensionBytes E HE b e in
                Some (IExt e, o, err)
            | None =>
                let '(e, o, err) :=
                  ReadExtensionBytes JSON.RawExtension
                    JSON.RawExtension_Extension b (JSON.mkraw (to_int 8 t) []) in
                Some (IRaw e, o, err)
            end
        end
    | NilType =>
        let '(o, err) := JSON.ReadNilBytes b in Some (INil, o, err)
    | BinType =>
        let '(v, o, err) := ReadBytesBytes b [] in Some (IBytes v, o, err)
    | StrType =>
        let '(s, o, err) := ReadStringBytes b in Some (IString s, o, err)
    | InvalidType => Some (INil, [], Some (InvalidPrefixError (idx b 0)))
    end.

(** The recursion of [ReadIntfBytes]; the fuel bounds its depth. *)
Fixpoint ReadIntfBytes_fuel (n : nat) (b : bytes) : option ires :=
  match n with
  | O => None
  | S n => ReadIntfBytes_with (ReadIntfBytes_fuel n) b
  end.

(** No object nests deeper than it has bytes, so this fuel does not run
    out. *)
Definition ReadIntfBytes (b : bytes) : option ires :=
  ReadIntfBytes_fuel (S (length b)) b.

Definition ReadMapStrIntfBytes (b : bytes) (old : option (gmap bytes intf))
  : option mres :=
  ReadMapStrIntfBytes_with (ReadIntfBytes_fuel (S (length b))) b old.

(** What is asked of [ReadExtensionBytes]: when it returns no error, the
    rest it returns is what remains after the object at the head of [b]. *)
Definition frames_extensions : Prop :=
  forall (X : Type) (HX : JSON.Extension X) (b : bytes) (e e' : X) (o : bytes),
    ReadExtensionBytes X HX b e = (e', o, None) -> Skip b = Some (o, None).

(** When a read has returned without error, its rest is the rest of
    [Skip]. *)
Definition framed (rd : bytes -> option ires) (m : nat) : Prop :=
  forall b : bytes, (length b < m)%nat ->
    exists (v : intf) (o : bytes) (e : option error),
      rd b = Some (v, o, e) /\ (e = None -> Skip b = Some (o, None)).

Lemma ReadMapKeyZC_consumed (b key o : bytes) :
  ReadMapKeyZC b = (key, o, None) -> consumed b o.
Proof.
  unfold ReadMapKeyZC.
  destruct (ReadStringZC b) as [[v o1] [e|]] eqn:Hs.
  - assert (o1 = []) as ->.
    { revert Hs. unfold ReadStringZC, payload.
      repeat match goal with
             | |- context [if ?c then _ else _] => destruct c
             end; congruence. }
    destruct e; try discriminate.
    destruct Encoded; try discriminate.
  - intros [= <- <-]. eapply ReadStringZC_consumed; eassumption.
Qed.

Lemma consumed_shorter (b o : bytes) :
  consumed b o -> (length o < length b)%nat.
Proof. intros (Hl & _). unfold len in Hl. lia. Qed.

Lemma array_loop_framed (rd : bytes -> option ires) (m : nat) :
  framed rd m ->
  forall (k d : nat) (j : list intf) (o : bytes), (length o < m)%nat ->
    exists (v : intf) (o' : bytes) (e : option error),
      array_loop rd k d j o = Some (v, o', e) /\
      (e = None -> Skip_n k o = Some (o', None)).
Proof.
  intros Hrd. induction k as [|k IH]; intros d j o Ho.
  - exists (IArray j), o, None. split; reflexivity.
  - cbn [array_loop Skip_n].
    destruct (Hrd o Ho) as (v & o1 & e & -> & Hs). destruct e as [e|].
    + eexists _, _, _. split; [reflexivity|discriminate].
    + specialize (Hs eq_refl). rewrite Hs.
      apply Skip_progress in Hs as [_ Hlt]. specialize (Hlt eq_refl).
      apply IH. lia.
Qed.

Lemma map_loop_framed (rd : bytes -> option ires) (m : nat) :
  framed rd m ->
  forall (k : nat) (old : gmap bytes intf) (o : bytes), (length o < m)%nat ->
    exists (r : option (gmap bytes intf)) (o' : bytes) (e : option error),
      map_loop rd k old o = Some (r, o', e) /\
      (e = None -> Skip_n (k + k) o = Some (o', None)).
Proof.
  intros Hrd. induction k as [|k IH]; intros old o Ho.
  - exists (Some old), o, None. split; reflexivity.
  - cbn [map_loop]. replace (S k + S k)%nat with (S (S (k + k))) by lia.
    cbn [Skip_n].
    destruct (len o <? 1).
    { eexists _, _, _. split; [reflexivity|discriminate]. }
    destruct (ReadMapKeyZC o) as [[key o1] [e|]] eqn:Hk.
    { eexists _, _, _. split; [reflexivity|discriminate]. }
    apply ReadMapKeyZC_consumed in Hk.
    pose proof (consumed_shorter _ _ Hk) as Hlt.
    rewrite (consumed_Skip _ _ Hk).
    destruct (Hrd o1 ltac:(lia)) as (v & o2 & e & -> & Hs).
    destruct e as [e|].
    + eexists _, _, _. split; [reflexivity|discriminate].
    + specialize (Hs eq_refl). rewrite Hs.
      apply Skip_progress in Hs as [_ Hlt2]. specialize (Hlt2 eq_refl).
      apply IH. lia.
Qed.

Lemma opened_Skip (per : Z) (b o : bytes) (sz : Z) :
  opened per b o sz -> 0 <= per ->
  Skip b = Skip_n (Z.to_nat (per * sz)) o /\ (length o < length b)%nat.
Proof.
  intros (Hl & Ho & Hg & Hsz) Hper. pose proof (len_nonneg o).
  split; [|unfold len in *; lia].
  rewrite Skip_eqn, Hg.
  destruct (Z.ltb_spec (len b) (len b - len o)); [lia|].
  rewrite <- Ho. reflexivity.
Qed.

Lemma ReadMapStrIntfBytes_with_framed (rd : bytes -> option ires) (m : nat)
    (b : bytes) (old : option (gmap bytes intf)) :
  framed rd m -> (length b <= m)%nat ->
  exists (r : option (gmap bytes intf)) (o : bytes) (e : option error),
    ReadMapStrIntfBytes_with rd b old = Some (r, o, e) /\
    (e = None -> Skip b = Some (o, None)).
Proof.
  intros Hrd Hb. unfold ReadMapStrIntfBytes_with.
  destruct (JSON.ReadMapHeaderBytes b) as [[sz o] [e|]] eqn:Hh.
  { eexists _, _, _. split; [reflexivity|discriminate]. }
  apply ReadMapHeaderBytes_opened in Hh.
  pose proof Hh as (_ & _ & _ & Hsz).
  apply opened_Skip in Hh as [-> Hlt]; [|lia].
  replace (Z.to_nat (2 * sz)) with (Z.to_nat sz + Z.to_nat sz)%nat by lia.
  apply (map_loop_framed rd m Hrd). lia.
Qed.

Hypothesis Hext : frames_extensions.

Ltac leaf H :=
  eexists _, _, _; split; [reflexivity|];
  intros ->; apply consumed_Skip; eapply H; eassumption.

Lemma ReadIntfBytes_fuel_framed (n : nat) : framed (ReadIntfBytes_fuel n) n.
Proof.
  induction n as [|n IH]; intros b Hb; [lia|].
  cbn [ReadIntfBytes_fuel]. unfold ReadIntfBytes_with.
  destruct (len b <? 1).
  { eexists _, _, _. split; [reflexivity|discriminate]. }
  destruct (JSON.NextType_bytes _ _ _ b).
  - eexists _, _, _. split; [reflexivity|discriminate].
  - destruct (ReadStringBytes b) as [[s o] e] eqn:Hr.
    leaf ReadStringZC_consumed.
  - destruct (ReadBytesBytes b []) as [[v o] e] eqn:Hr.
    leaf ReadBytesBytes_consumed.
  - destruct (ReadMapStrIntfBytes_with_framed (ReadIntfBytes_fuel n) n b None IH
                ltac:(lia)) as (r & o & e & -> & Hs).
    eexists _, _, _. split; [reflexivity|exact Hs].
  - destruct (JSON.ReadArrayHeaderBytes b) as [[sz o] [e|]] eqn:Hh.
    { eexists _, _, _. split; [reflexivity|discriminate]. }
    apply ReadArrayHeaderBytes_opened in Hh.
    apply opened_Skip in Hh as [-> Hlt]; [|lia].
    replace (1 * sz) with sz by lia.
    apply (array_loop_framed _ n IH). lia.
  - destruct (JSON.ReadFloat64Bytes b) as [[f o] e] eqn:Hr.
    leaf ReadFloat64Bytes_consumed.
  - destruct (JSON.ReadFloat32Bytes b) as [[f o] e] eqn:Hr.
    leaf ReadFloat32Bytes_consumed.
  - destruct (JSON.ReadBoolBytes b) as [[v o] e] eqn:Hr.
    leaf ReadBoolBytes_consumed.
  - destruct (ReadInt64Bytes b) as [[i o] e] eqn:Hr.
    leaf ReadInt64Bytes_consumed.
  - destruct (JSON.ReadUint64Bytes b) as [[u o] e] eqn:Hr.
    leaf ReadUint64Bytes_consumed.
  - destruct (JSON.ReadNilBytes b) as [o e] eqn:Hr.
    leaf ReadNilBytes_consumed.
  - destruct (peekExtension b) as [t [e|]].
    { eexists _, _, _. split; [reflexivity|discriminate]. }
    destruct (extensionReg t) as [e0|].
    + destruct (ReadExtensionBytes E HE b e0) as [[e1 o] e] eqn:Hr.
      eexists _, _, _. split; [reflexivity|]. intros ->.
      exact (Hext _ _ _ _ _ _ Hr).
    + destruct (ReadExtensionBytes _ _ b _) as [[e1 o] e] eqn:Hr.
      eexists _, _, _. split; [reflexivity|]. intros ->.
      exact (Hext _ _ _ _ _ _ Hr).
  - destruct (ReadComplex64Bytes _ b) as [[c o] e] eqn:Hr.
    leaf ReadComplex64Bytes_consumed.
  - destruct (ReadComplex128Bytes _ b) as [[c o] e] eqn:Hr.
    leaf ReadComplex128Bytes_consumed.
  - destruct (JSON.ReadTimeBytes _ b) as [[t o] e] eqn:Hr.
    leaf ReadTimeBytes_consumed.
Qed.


(** *** More fuel changes nothing *)

Definition refines (rd rd' : bytes -> option ires) : Prop :=
  forall (o : bytes) (r : ires), rd o = Some r -> rd' o = Some r.

Lemma array_loop_refines (rd rd' : bytes -> option ires) :
  refines rd rd' ->
  forall (k d : nat) (j : list intf) (o : bytes) (r : ires),
    array_loop rd k d j o = Some r -> array_loop rd' k d j o = Some r.
Proof.
  intros Hrd. induction k as [|k IH]; intros d j o r; [trivial|].
  cbn [array_loop]. destruct (rd o) as [[[v o1] e]|] eqn:Hr; [|discriminate].
  rewrite (Hrd _ _ Hr). destruct e; [trivial|apply IH].
Qed.

Lemma map_loop_refines (rd rd' : bytes -> option ires) :
  refines rd rd' ->
  forall (k : nat) (old : gmap bytes intf) (o : bytes) (r : mres),
    map_loop rd k old o = Some r -> map_loop rd' k old o = Some r.
Proof.
  intros Hrd. induction k as [|k IH]; intros old o r; [trivial|].
  cbn [map_loop]. destruct (len o <? 1); [trivial|].
  destruct (ReadMapKeyZC o) as [[key o1] [e|]]; [trivial|].
  destruct (rd o1) as [[[v o2] e]|] eqn:Hr; [|discriminate].
  rewrite (Hrd _ _ Hr). destruct e; [trivial|apply IH].
Qed.

Lemma ReadIntfBytes_with_refines (rd rd' : bytes -> option ires) :
  refines rd rd' -> refines (ReadIntfBytes_with rd) (ReadIntfBytes_with rd').
Proof.
  intros Hrd b r. unfold ReadIntfBytes_with.
  destruct (len b <? 1); [trivial|].
  destruct (JSON.NextType_bytes _ _ _ b); trivial.
  - unfold ReadMapStrIntfBytes_with.
    destruct (JSON.ReadMapHeaderBytes b) as [[sz o] [e|]]; [trivial|].
    destruct (map_loop rd _ _ o) as [[[m o1] e]|] eqn:Hl; [|discriminate].
    rewrite (map_loop_refines rd rd' Hrd _ _ _ _ Hl). trivial.
  - destruct (JSON.ReadArrayHeaderBytes b) as [[sz o] [e|]]; [trivial|].
    apply array_loop_refines, Hrd.
Qed.

Lemma ReadIntfBytes_fuel_S (n : nat) :
  refines (ReadIntfBytes_fuel n) (ReadIntfBytes_fuel (S n)).
Proof.
  induction n as [|n IH]; [discriminate|].
  change (refines (ReadIntfBytes_with (ReadIntfBytes_fuel n))
                  (ReadIntfBytes_with (ReadIntfBytes_fuel (S n)))).
  apply ReadIntfBytes_with_refines, IH.
Qed.

Lemma ReadIntfBytes_fuel_mono (n n' : nat) :
  (n <= n')%nat -> refines (ReadIntfBytes_fuel n) (ReadIntfBytes_fuel n').
Proof.
  induction 1 as [|n' _ IH]; intros o r Hr; [exact Hr|].
  apply ReadIntfBytes_fuel_S, IH, Hr.
Qed.

(** *** The array and the map that are built *)

Lemma array_loop_length (rd : bytes -> option ires) :
  forall (k d : nat) (j : list intf) (o : bytes) (v : intf) (o' : bytes)
         (e : option error),
    array_loop rd k d j o = Some (v, o', e) ->
    exists j' : list intf, v = IArray j' /\ length j' = length j.
Proof.
  induction k as [|k IH]; intros d j o v o' e; cbn [array_loop].
  - intros [= <- <- <-]. exists j. split; reflexivity.
  - destruct (rd o) as [[[v1 o1] [e1|]]|]; [| |discriminate].
    + intros [= <- <- <-]. eexists. split; [reflexivity|].
      apply length_insert.
    + intros Hl. apply IH in Hl as (j' & -> & Hj). exists j'.
      split; [reflexivity|]. rewrite Hj. apply length_insert.
Qed.

Lemma header_announced (b : bytes) :
  (forall sz o, JSON.ReadArrayHeaderBytes b = (sz, o, None) ->
     (len b <? 1) = false /\
     JSON.NextType_bytes TimeExtension Complex64Extension Complex128Extension b
       = ArrayType) /\
  (forall sz o, JSON.ReadMapHeaderBytes b = (sz, o, None) ->
     (len b <? 1) = false /\
     JSON.NextType_bytes TimeExtension Complex64Extension Complex128Extension b
       = MapType).
Proof.
  destruct b as [|x rest]; [split; intros sz o; discriminate|].
  split; intros sz o Hr; (split; [rewrite len_cons; pose proof (len_nonneg rest); lia|]);
    revert Hr.
  - unfold JSON.ReadArrayHeaderBytes. by_prefix x rest.
    all: split_tests; try discriminate; try lia; intros _.
    all: rewrite ReaderFacts.NextType_plain by
           (first [discriminate
                  | unfold idx; cbn [nth]; eval_lead; vm_compute; discriminate]).
    all: unfold idx; cbn [nth]; eval_lead; reflexivity.
  - unfold JSON.ReadMapHeaderBytes. by_prefix x rest.
    all: split_tests; try discriminate; try lia; intros _.
    all: rewrite ReaderFacts.NextType_plain by
           (first [discriminate
                  | unfold idx; cbn [nth]; eval_lead; vm_compute; discriminate]).
    all: unfold idx; cbn [nth]; eval_lead; reflexivity.
Qed.

Lemma clear_lookup (m0 m : gmap bytes intf) (key : bytes) :
  map_fold (fun key _ m => delete key m) m0 m !! key =
  match m !! key with
  | Some _ => None
  | None => m0 !! key
  end.
Proof.
  revert key.
  apply (map_fold_weak_ind
           (fun r m => forall key, r !! key =
                         match m !! key with Some _ => None | None => m0 !! key end)).
  - intros key. rewrite lookup_empty. reflexivity.
  - intros i x m1 r Hi IH key. destruct (decide (i = key)) as [->|Hne].
    + rewrite lookup_delete_eq, lookup_insert_eq. reflexivity.
    + rewrite lookup_delete_ne, lookup_insert_ne by exact Hne. apply IH.
Qed.

Lemma clear_empty (m : gmap bytes intf) : clear m = empty.
Proof.
  apply map_eq. intros key. unfold clear. rewrite clear_lookup, lookup_empty.
  destruct (m !! key); reflexivity.
Qed.

(** X23.  [ReadIntfBytes] returns on every input, however deep the object
    nests, and when it returns without an error the rest it returns is the
    rest [Skip] returns: both see the same extent of the object at the head
    of [b]. *)
Theorem ReadIntfBytes_frames (b : bytes) :
  exists (v : intf) (o : bytes) (e : option error),
    ReadIntfBytes b = Some (v, o, e) /\
    (e = None -> Skip b = Some (o, None)).
Proof. apply ReadIntfBytes_fuel_framed. lia. Qed.

(** X24.  [ReadMapStrIntfBytes] returns on every input, and when it returns
    without an error the rest it returns is the rest [Skip] returns. *)
Theorem ReadMapStrIntfBytes_frames (b : bytes) (old : option (gmap bytes intf)) :
  exists (m : option (gmap bytes intf)) (o : bytes) (e : option error),
    ReadMapStrIntfBytes b old = Some (m, o, e) /\
    (e = None -> Skip b = Some (o, None)).
Proof.
  unfold ReadMapStrIntfBytes.
  apply (ReadMapStrIntfBytes_with_framed _ (S (length b))); [|lia].
  apply ReadIntfBytes_fuel_framed.
Qed.

(** X25.  As soon as the header of an array has been read, [ReadIntfBytes]
    has a slice of the announced length: whatever follows the header, also
    nothing at all, the value returned is a slice with as many entries as the
    header announces. *)
Theorem ReadIntfBytes_array_length (b o : bytes) (sz : Z) :
  JSON.ReadArrayHeaderBytes b = (sz, o, None) ->
  exists (j : list intf) (o' : bytes) (e : option error),
    ReadIntfBytes b = Some (IArray j, o', e) /\ length j = Z.to_nat sz.
Proof.
  intros Hh.
  destruct (ReadIntfBytes_fuel_framed (S (length b)) b ltac:(lia))
    as (v & o' & e & Hr & _).
  fold (ReadIntfBytes b) in Hr.
  pose proof Hr as Hr'. revert Hr'. unfold ReadIntfBytes at 1.
  cbn [ReadIntfBytes_fuel]. unfold ReadIntfBytes_with.
  destruct (proj1 (header_announced b) sz o Hh) as [-> ->]. rewrite Hh.
  intros Hl. apply array_loop_length in Hl as (j & -> & Hj).
  exists j, o', e. split; [exact Hr|]. rewrite Hj. apply repeat_length.
Qed.


(** X26.  An old map handed to [ReadMapStrIntfBytes] only lends its storage:
    once the header is read, none of its entries is left, and the result is
    the one for a nil map. *)
Theorem ReadMapStrIntfBytes_forgets_old (b o : bytes) (sz : Z)
    (old : gmap bytes intf) :
  JSON.ReadMapHeaderBytes b = (sz, o, None) ->
  ReadMapStrIntfBytes b (Some old) = ReadMapStrIntfBytes b None.
Proof.
  intros Hh. unfold ReadMapStrIntfBytes, ReadMapStrIntfBytes_with.
  rewrite Hh, clear_empty. reflexivity.
Qed.

End ReadIntf.

(** *** An instance: extensions read from memory *)

(** [ReadExtensionBytes] over the in-memory reader of the transcoder. *)
Definition memory_ReadExtensionBytes (X : Type) (HX : JSON.Extension X) (b : bytes) (e : X)
  : X * bytes * option error :=
  let '(src, (e', err)) := @JSON.ReadExtension bytes X JSON.BytesReader HX e b in
  (e', src, err).

Definition memory_peekExtension (b : bytes) : Z * option error :=
  snd (JSON.bytes_peekExtensionType b).

Lemma extension_has_no_elements (b : bytes) (total asz : Z) :
  typ (sizes (idx b 0)) = ExtensionType ->
  getSize b = (total, asz, None) -> asz = 0.
Proof.
  destruct b as [|x rest]; [discriminate|].
  unfold getSize. by_prefix x rest.
  all: cbn [typ size extra]; intros Ht; try discriminate Ht; clear Ht.
  all: try (intros [= <- <-]; reflexivity).
  all: repeat match goal with
              | |- context [if ?c then _ else _] => destruct c
              end; congruence.
Qed.

Lemma memory_frames_extensions : frames_extensions memory_ReadExtensionBytes.
Proof.
  intros X HX b e e' o. unfold memory_ReadExtensionBytes, JSON.ReadExtension.
  cbn [JSON.peekExtension JSON.skipExtension JSON.BytesReader].
  unfold JSON.bytes_peekExtension, JSON.bytes_skipExtension.
  destruct (JSON.bytes_peekExtensionType b) as [b1 [t [err|]]] eqn:Hp;
    [discriminate|].
  assert (typ (sizes (idx b 0)) = ExtensionType) as Ht.
  { revert Hp. unfold JSON.bytes_peekExtensionType.
    destruct (len b <? 2); [discriminate|].
    destruct (typ (sizes (idx b 0))); cbn [Type_eqb negb]; try discriminate.
    reflexivity. }
  destruct (getSize b) as [[total asz] [gerr|]] eqn:Hg; [discriminate|].
  destruct (Z.ltb_spec (len b) total) as [|Hl]; [discriminate|].
  destruct (negb _); [discriminate|].
  destruct (JSON.UnmarshalBinary _ e) as [e1 [uerr|]]; [discriminate|].
  intros [= <- <-].
  rewrite Skip_eqn, Hg. rewrite (extension_has_no_elements b total asz Ht Hg).
  destruct (Z.ltb_spec (len b) total); [lia|]. reflexivity.
Qed.

Lemma ReadIntfBytes_frames_witness :
  exists (v : intf JSON.RawExtension) (o : bytes) (e : option error),
    @ReadIntfBytes 5 3 4 JSON.RawExtension JSON.RawExtension_Extension
      (fun _ => None) memory_peekExtension memory_ReadExtensionBytes
      [x92; x01; x81; xa1; x61; xc7; x01; x09; x2a] = Some (v, o, e) /\
    (e = None ->
     Skip [x92; x01; x81; xa1; x61; xc7; x01; x09; x2a] = Some (o, None)).
Proof. apply ReadIntfBytes_frames, memory_frames_extensions. Defined.

Lemma ReadMapStrIntfBytes_frames_witness :
  exists (m : option (gmap bytes (intf JSON.RawExtension))) (o : bytes)
         (e : option error),
    @ReadMapStrIntfBytes 5 3 4 JSON.RawExtension JSON.RawExtension_Extension
      (fun _ => None) memory_peekExtension
      memory_ReadExtensionBytes [x81; xa1; x61; x91; xc3; xc0] None = Some (m, o, e) /\
    (e = None -> Skip [x81; xa1; x61; x91; xc3; xc0] = Some (o, None)).
Proof. apply ReadMapStrIntfBytes_frames, memory_frames_extensions. Defined.

Lemma ReadIntfBytes_array_length_witness :
  exists (j : list (intf JSON.RawExtension)) (o' : bytes) (e : option error),
    @ReadIntfBytes 5 3 4 JSON.RawExtension JSON.RawExtension_Extension
      (fun _ => None) memory_peekExtension memory_ReadExtensionBytes
      [xdc; xff; xff] = Some (IArray JSON.RawExtension j, o', e) /\
    length j = Z.to_nat 65535.
Proof.
  apply (@ReadIntfBytes_array_length 5 3 4 JSON.RawExtension
           JSON.RawExtension_Extension (fun _ => None) memory_peekExtension
           memory_ReadExtensionBytes memory_frames_extensions [xdc; xff; xff] []).
  reflexivity.
Defined.

Lemma ReadMapStrIntfBytes_forgets_old_witness :
  @ReadMapStrIntfBytes 5 3 4 JSON.RawExtension JSON.RawExtension_Extension
    (fun _ => None) memory_peekExtension memory_ReadExtensionBytes
    [x81; xa1; x61; xc3] (Some (<[ [x7a] := INil JSON.RawExtension ]> empty)) =
  @ReadMapStrIntfBytes 5 3 4 JSON.RawExtension JSON.RawExtension_Extension
    (fun _ => None) memory_peekExtension memory_ReadExtensionBytes
    [x81; xa1; x61; xc3] None.
Proof.
  apply (@ReadMapStrIntfBytes_forgets_old 5 3 4 JSON.RawExtension
           JSON.RawExtension_Extension (fun _ => None) memory_peekExtension
           memory_ReadExtensionBytes [x81; xa1; x61; xc3] [xa1; x61; xc3] 1).
  reflexivity.
Defined.

End Intf.


(** ** What the transcoder counts *)

Module Counting.
Import Skipping WireObject Framing JSON QuotingFacts.

Lemma bytes_ind3 (P : bytes -> Prop) :
  P [] -> (forall a, P [a]) -> (forall a b, P [a; b]) ->
  (forall a b c rest, P rest -> P (a :: b :: c :: rest)) ->
  forall p, P p.
Proof.
  intros H0 H1 H2 H3. fix IH 1. intros [|a [|b [|c rest]]].
  - exact H0.
  - apply H1.
  - apply H2.
  - apply H3, IH.
Qed.

Lemma fringe_cons3 (a b c : byte) (rest : bytes) :
  fringe (a :: b :: c :: rest) = fringe rest.
Proof.
  unfold fringe. cbn [length].
  replace (S (S (S (length rest)))) with (1 * 3 + length rest)%nat by lia.
  rewrite Nat.div_add_l by lia.
  replace (3 * (1 + length rest / 3))%nat
    with (S (S (S (3 * (length rest / 3))))) by lia.
  reflexivity.
Qed.

(** The standard encoding has four characters for every three bytes, the
    last group padded. *)
Lemma base64_std_length (p : bytes) :
  len (base64_std p) = 4 * ((len p + 2) / 3).
Proof.
  induction p as [|a|a b|a b c rest IH] using bytes_ind3; try reflexivity.
  unfold base64_std in *. rewrite fringe_cons3. cbn [b64_groups app].
  rewrite !len_cons, IH.
  replace (1 + (1 + (1 + len rest)) + 2) with (len rest + 2 + 1 * 3) by lia.
  rewrite Z.div_add by lia. lia.
Qed.

(** Output that has only grown, by at least the [n] bytes counted. *)
Definition appended (w w' : bytes) (n : Z) : Prop :=
  exists out : bytes, w' = w ++ out /\ 0 <= n <= len out.

(** The same for a count that started at [n]. *)
Definition appended_from (n : Z) (w w' : bytes) (n' : Z) : Prop :=
  exists out : bytes, w' = w ++ out /\ 0 <= n' - n <= len out.

Lemma appended_intro (w out : bytes) (n : Z) :
  0 <= n <= len out -> appended w (w ++ out) n.
Proof. intros Hn. exists out. split; [reflexivity|exact Hn]. Qed.

Lemma appended_refl (w : bytes) : appended w w 0.
Proof. exists []. rewrite app_nil_r. split; [reflexivity|]. unfold len. simpl. lia. Qed.

Ltac count_bytes :=
  rewrite <- ?List.app_assoc;
  first [apply appended_refl
        | apply appended_intro; repeat (rewrite len_app || rewrite len_cons);
          repeat match goal with
                 | |- context [len ?l] =>
                     lazymatch goal with
                     | _ : 0 <= len l |- _ => fail
                     | _ => pose proof (len_nonneg l)
                     end
                 end;
          change (len (@nil byte)) with 0; try lia].

(** Splits the cases of a function that reads, then writes to a buffer. *)
Ltac run :=
  cbn [Write WriteByte WriteString Buffer];
  repeat (match goal with
          | |- context [match ?x with _ => _ end] =>
              lazymatch x with
              | context [match _ with _ => _ end] => fail
              | _ => destruct x eqn:?
              end
          end; cbn [Write WriteByte WriteString Buffer]).

Section Counts.
Context {R : Type} `{HR : StreamReader R} {E : Type} `{HE : Extension E}.
Variable extensionReg : gmap Z E.
Variable json_Marshal : E -> bytes * option error.
Variable digits : Z -> Z -> byte -> Z -> bytes.
Variable Time_MarshalJSON : Z * Z -> bytes * option error.

(** A step whose result, when it has one, has only appended, and not less
    than it counts. *)
Definition counted (w : bytes) (r : option (@tres bytes R)) : Prop :=
  forall (w' : bytes) (src' : R) (n : Z) (err : option error),
    r = Some (w', src', (n, err)) -> appended w w' n.

Lemma rwNil_counted (w : bytes) (src : R) : counted w (Some (rwNil w src)).
Proof.
  intros w' src' n err. unfold rwNil. run.
  all: intros [= <- <- <- <-]; count_bytes.
Qed.

Lemma rwInt_counted (w : bytes) (src : R) : counted w (Some (rwInt w src)).
Proof.
  intros w' src' n err. unfold rwInt. run.
  all: intros [= <- <- <- <-]; count_bytes.
Qed.

Lemma rwUint_counted (w : bytes) (src : R) : counted w (Some (rwUint w src)).
Proof.
  intros w' src' n err. unfold rwUint. run.
  all: intros [= <- <- <- <-]; count_bytes.
Qed.

Lemma rwBool_counted (w : bytes) (src : R) : counted w (Some (rwBool w src)).
Proof.
  intros w' src' n err. unfold rwBool. run.
  all: intros [= <- <- <- <-]; count_bytes.
Qed.

Lemma rwTime_counted (w : bytes) (src : R) :
  counted w (Some (rwTime Time_MarshalJSON w src)).
Proof.
  intros w' src' n err. unfold rwTime. run.
  all: intros [= <- <- <- <-]; count_bytes.
Qed.

Lemma rwFloat32_counted (w : bytes) (src : R) :
  counted w (Some (rwFloat32 digits w src)).
Proof.
  intros w' src' n err. unfold rwFloat32. run.
  all: intros [= <- <- <- <-]; count_bytes.
Qed.

Lemma rwFloat64_counted (w : bytes) (src : R) :
  counted w (Some (rwFloat64 digits w src)).
Proof.
  intros w' src' n err. unfold rwFloat64. run.
  all: intros [= <- <- <- <-]; count_bytes.
Qed.

Lemma base64_covers (p : bytes) :
  len p <= len (b64_groups p) + len (b64_fringe (fringe p)).
Proof.
  rewrite <- len_app. fold (base64_std p). rewrite base64_std_length.
  pose proof (len_nonneg p).
  pose proof (Z.div_mod (len p + 2) 3 ltac:(lia)).
  pose proof (Z.mod_pos_bound (len p + 2) 3 ltac:(lia)). lia.
Qed.

Lemma rwBytes_counted (w : bytes) (src : R) : counted w (Some (rwBytes w src)).
Proof.
  intros w' src' n err. unfold rwBytes.
  cbn [Write WriteByte WriteString Buffer].
  destruct (ReadBytes [] src) as [src1 [p [e|]]].
  { intros [= <- <- <- <-]. count_bytes. }
  rewrite enc_Write_Buffer, enc_Close_Buffer.
  cbn [Write WriteByte WriteString Buffer].
  intros [= <- <- <- <-]. pose proof (base64_covers p). count_bytes.
Qed.

Lemma rwExtension_counted (w : bytes) (src : R) :
  counted w (Some (rwExtension extensionReg json_Marshal w src)).
Proof.
  intros w' src' n err. unfold rwExtension.
  destruct (peekExtensionType src) as [src1 [et [e|]]].
  { intros [= <- <- <- <-]. count_bytes. }
  destruct (extensionReg !! et) as [e0|].
  { run. all: intros [= <- <- <- <-]; count_bytes. }
  destruct (ReadExtension _ src1) as [src2 [e1 [e|]]].
  { intros [= <- <- <- <-]. count_bytes. }
  cbn [Write WriteByte WriteString Buffer].
  rewrite enc_Write_Buffer, enc_Close_Buffer.
  cbn [Write WriteByte WriteString Buffer].
  intros [= <- <- <- <-]. pose proof (base64_covers (Data e1)). count_bytes.
Qed.

Lemma rwString_counted (w : bytes) (src : R) : counted w (rwString w src).
Proof.
  intros w' src' n err. unfold rwString.
  assert (forall (src0 : R) (read : Z),
             counted w (let '(src1, (p, err)) := R_Next read src0 in
                        match err with
                        | Some x => Some (w, src1, (0, Some x))
                        | None =>
                            match rwQuoted w p with
                            | Some (dst, r) => Some (dst, src1, r)
                            | None => None
                            end
                        end)) as Hbody.
  { intros src0 read w1 src1 n1 err1.
    destruct (R_Next read src0) as [src2 [p [e|]]].
    { intros [= <- <- <- <-]. count_bytes. }
    destruct (rwQuoted_on_buffer w p) as (body & ->).
    intros [= <- <- <- <-]. count_bytes. }
  destruct (R_Peek 1 src) as [src1 [p [e|]]].
  { intros [= <- <- <- <-]. count_bytes. }
  cbv zeta.
  repeat match goal with
         | |- context [if ?c then _ else _] => destruct c
         end.
  - destruct (R_Skip 1 src1) as [src2 ?]. apply Hbody.
  - destruct (R_Next 2 src1) as [src2 [q [e|]]]; [|apply Hbody].
    intros [= <- <- <- <-]. count_bytes.
  - destruct (R_Next 3 src1) as [src2 [q [e|]]]; [|apply Hbody].
    intros [= <- <- <- <-]. count_bytes.
  - destruct (R_Next 5 src1) as [src2 [q [e|]]]; [|apply Hbody].
    intros [= <- <- <- <-]. count_bytes.
  - intros [= <- <- <- <-]. count_bytes.
Qed.

Lemma appended_from_intro (n : Z) (w out : bytes) (n' : Z) :
  0 <= n' - n <= len out -> appended_from n w (w ++ out) n'.
Proof. intros Hn. exists out. split; [reflexivity|exact Hn]. Qed.

Lemma appended_from_refl (n : Z) (w : bytes) : appended_from n w w n.
Proof.
  exists []. rewrite app_nil_r. split; [reflexivity|].
  change (len (@nil byte)) with 0. lia.
Qed.

Lemma appended_from_step (n m : Z) (w out w' : bytes) (n' : Z) :
  0 <= m - n <= len out -> appended_from m (w ++ out) w' n' ->
  appended_from n w w' n'.
Proof.
  intros Hm (out' & -> & Hn). exists (out ++ out').
  rewrite <- List.app_assoc, len_app. split; [reflexivity|lia].
Qed.

Section Loops.
Variable next : bytes -> R -> option (@tres bytes R).
Hypothesis Hnext : forall (w : bytes) (src : R), counted w (next w src).

Lemma rwArray_loop_counted (count : nat) :
  forall (comma : bool) (w : bytes) (src : R) (n : Z)
         (w' : bytes) (src' : R) (n' : Z) (err : option error),
    rwArray_loop next count comma w src n = Some (w', src', (n', err)) ->
    appended_from n w w' n'.
Proof.
  induction count as [|count IH]; intros comma w src n w' src' n' err.
  - cbn [rwArray_loop]. unfold tbyte. cbn [WriteByte Buffer].
    intros [= <- <- <- <-]. apply appended_from_intro.
    change (len [x5d]) with 1. lia.
  - cbn [rwArray_loop].
    assert (forall (w0 : bytes) (n0 : Z),
               match next w0 src with
               | None => None
               | Some (dst, src0, (nn, err0)) =>
                   match err0 with
                   | Some x => Some (dst, src0, (n0 + nn, Some x))
                   | None => rwArray_loop next count true dst src0 (n0 + nn)
                   end
               end = Some (w', src', (n', err)) ->
               appended_from n0 w0 w' n') as Helem.
    { intros w0 n0. destruct (next w0 src) as [[[w1 src1] [nn e]]|] eqn:Hn;
        [|discriminate].
      destruct (Hnext _ _ _ _ _ _ Hn) as (out & -> & Hnn).
      destruct e as [e|].
      - intros [= <- <- <- <-]. apply appended_from_intro. lia.
      - intros Hl. apply IH in Hl.
        apply (appended_from_step n0 (n0 + nn) w0 out); [lia|exact Hl]. }
    destruct comma; [|apply Helem].
    unfold tbyte. cbn [WriteByte Buffer]. intros Hl. apply Helem in Hl.
    apply (appended_from_step n (n + 1) w [x2c]); [|exact Hl].
    change (len [x2c]) with 1. lia.
Qed.

Lemma rwMap_loop_counted (count : nat) :
  forall (comma : bool) (w : bytes) (src : R) (n : Z)
         (w' : bytes) (src' : R) (n' : Z) (err : option error),
    rwMap_loop next count comma w src n = Some (w', src', (n', err)) ->
    appended_from n w w' n'.
Proof.
  induction count as [|count IH]; intros comma w src n w' src' n' err.
  - cbn [rwMap_loop]. unfold tbyte. cbn [WriteByte Buffer].
    intros [= <- <- <- <-]. apply appended_from_intro.
    change (len [x7d]) with 1. lia.
  - cbn [rwMap_loop].
    assert (forall (w0 : bytes) (n0 : Z),
               (let '(src0, (field, err0)) := ReadMapKeyPtr src in
                match err0 with
                | Some x => Some (w0, src0, (n0, Some x))
                | None =>
                    match rwQuoted w0 field with
                    | None => None
                    | Some (dst, (nn, err1)) =>
                        match err1 with
                        | Some x => Some (dst, src0, (n0 + nn, Some x))
                        | None =>
                            tbyte x3a
                              (fun dst n1 =>
                                 match next dst src0 with
                                 | None => None
                                 | Some (dst, src1, (nn, err2)) =>
                                     match err2 with
                                     | Some x => Some (dst, src1, (n1 + nn, Some x))
                                     | None =>
                                         rwMap_loop next count true dst src1 (n1 + nn)
                                     end
                                 end) dst src0 (n0 + nn)
                        end
                    end
                end) = Some (w', src', (n', err)) ->
               appended_from n0 w0 w' n') as Hfield.
    { intros w0 n0. destruct (ReadMapKeyPtr src) as [src0 [field [e|]]].
      { intros [= <- <- <- <-]. apply appended_from_refl. }
      destruct (rwQuoted_on_buffer w0 field) as (body & ->).
      unfold tbyte. cbn [WriteByte Buffer].
      destruct (next _ src0) as [[[w1 src1] [nn e]]|] eqn:Hn; [|discriminate].
      destruct (Hnext _ _ _ _ _ _ Hn) as (out & -> & Hnn).
      pose proof (len_nonneg body).
      destruct e as [e|].
      - intros [= <- <- <- <-]. rewrite <- !List.app_assoc.
        apply appended_from_intro. repeat (rewrite len_app || rewrite len_cons).
        change (len (@nil byte)) with 0. lia.
      - intros Hl. apply IH in Hl. rewrite <- !List.app_assoc in Hl.
        eapply appended_from_step; [|exact Hl].
        repeat (rewrite len_app || rewrite len_cons).
        change (len (@nil byte)) with 0. lia. }
    destruct comma; [|apply Hfield].
    unfold tbyte at 1. cbn [WriteByte Buffer]. intros Hl. apply Hfield in Hl.
    apply (appended_from_step n (n + 1) w [x2c]); [|exact Hl].
    change (len [x2c]) with 1. lia.
Qed.

Lemma appended_from_0 (w w' : bytes) (n : Z) :
  appended_from 0 w w' n -> appended w w' n.
Proof. intros (out & -> & Hn). exists out. split; [reflexivity|lia]. Qed.

Lemma rwMap_counted (w : bytes) (src : R) : counted w (rwMap next w src).
Proof.
  intros w' src' n err. unfold rwMap.
  destruct (ReadMapHeader src) as [src1 [sz [e|]]].
  { intros [= <- <- <- <-]. count_bytes. }
  destruct (sz =? 0).
  { cbn [WriteString Buffer]. intros [= <- <- <- <-]. count_bytes. }
  unfold tbyte. cbn [WriteByte Buffer]. intros Hl.
  apply rwMap_loop_counted in Hl. apply appended_from_0.
  apply (appended_from_step 0 (0 + 1) w [x7b]); [|exact Hl].
  change (len [x7b]) with 1. lia.
Qed.

(** [rwArray] has written at least one byte more than it counts. *)
Lemma rwArray_short (w : bytes) (src : R) (w' : bytes) (src' : R) (n : Z)
    (err : option error) :
  rwArray next w src = Some (w', src', (n, err)) ->
  exists out : bytes, w' = w ++ out /\ 0 <= n < len out.
Proof.
  unfold rwArray. cbn [WriteByte Buffer].
  destruct (ReadArrayHeader src) as [src1 [sz [e|]]].
  { intros [= <- <- <- <-]. exists [x5b]. split; [reflexivity|].
    change (len [x5b]) with 1. lia. }
  intros Hl. apply rwArray_loop_counted in Hl as (out & -> & Hn).
  exists ([x5b] ++ out). rewrite <- List.app_assoc. split; [reflexivity|].
  rewrite len_app. change (len [x5b]) with 1. lia.
Qed.

Lemma rwArray_counted (w : bytes) (src : R) : counted w (rwArray next w src).
Proof.
  intros w' src' n err Hl. apply rwArray_short in Hl as (out & -> & Hn).
  exists out. split; [reflexivity|lia].
Qed.

End Loops.

Lemma rwNext_counted (fuel : nat) :
  forall (w : bytes) (src : R),
    counted w (rwNext extensionReg json_Marshal digits Time_MarshalJSON fuel w src).
Proof.
  induction fuel as [|fuel IH]; intros w src; [discriminate|].
  cbn [rwNext]. destruct (NextType src) as [src1 [t [e|]]].
  { intros w' src' n err [= <- <- <- <-]. count_bytes. }
  destruct t.
  - intros w' src' n err [= <- <- <- <-]. count_bytes.
  - apply rwString_counted.
  - apply rwBytes_counted.
  - apply rwMap_counted, IH.
  - apply rwArray_counted, IH.
  - apply rwFloat64_counted.
  - apply rwFloat32_counted.
  - apply rwBool_counted.
  - apply rwInt_counted.
  - apply rwUint_counted.
  - apply rwNil_counted.
  - apply rwExtension_counted.
  - apply rwExtension_counted.
  - apply rwExtension_counted.
  - apply rwTime_counted.
Qed.

Lemma to_int_64_le (x : Z) :
  - 2 ^ 63 <= x -> - 2 ^ 63 <= to_int 64 x <= x.
Proof.
  intros Hx. unfold to_int. cbv zeta.
  change (2 ^ (64 - 1)) with (2 ^ 63).
  assert (2 ^ 64 = 2 * 2 ^ 63) as Hp by reflexivity.
  assert (0 < 2 ^ 63) by reflexivity.
  pose proof (Z.mod_pos_bound x (2 ^ 64) ltac:(lia)) as Hu.
  pose proof (Z.div_mod x (2 ^ 64) ltac:(lia)) as Hd.
  assert (-1 <= x / 2 ^ 64) by (apply Z.div_le_lower_bound; lia).
  destruct (Z.ltb_spec (x mod 2 ^ 64) (2 ^ 63)); nia.
Qed.

Lemma WriteToJSON_loop_counted (depth rounds : nat) :
  forall (w : bytes) (r : R) (n : Z) (w' : bytes) (r' : R) (n' : Z) (e : error),
    - 2 ^ 63 <= n ->
    WriteToJSON_loop extensionReg json_Marshal digits Time_MarshalJSON
      depth rounds w r n = Some (w', r', n', e) ->
    exists out : bytes, w' = w ++ out /\ n' - n <= len out /\ - 2 ^ 63 <= n'.
Proof.
  induction rounds as [|rounds IH]; intros w r n w' r' n' e Hn; [discriminate|].
  cbn [WriteToJSON_loop].
  destruct (rwNext _ _ _ _ depth w r) as [[[w1 r1] [nn err]]|] eqn:Hs;
    [|discriminate].
  apply rwNext_counted in Hs as (out & -> & Hnn).
  pose proof (to_int_64_le (n + nn) ltac:(lia)) as Hw.
  destruct err as [e1|].
  - intros [= <- <- <- <-]. exists out. split; [reflexivity|lia].
  - intros Hl. apply IH in Hl as (out' & -> & Hn' & Hlow); [|lia].
    exists (out ++ out'). rewrite <- List.app_assoc, len_app.
    split; [reflexivity|lia].
Qed.

(** X27.  Through a [bytes.Buffer], [WriteToJSON] never reports more than it
    has written: nothing that was in the buffer is touched, and the count
    returned is at most the number of bytes appended, whatever the stream
    holds and whether or not an error is returned. *)
Theorem WriteToJSON_never_overcounts (depth rounds : nat) (w : bytes) (r : R)
    (w' : bytes) (r' : R) (n : Z) (err : option error) :
  WriteToJSON extensionReg json_Marshal digits Time_MarshalJSON (Some Buffer)
    depth rounds w r = Some (w', r', (n, err)) ->
  exists out : bytes, w' = w ++ out /\ n <= len out.
Proof.
  unfold WriteToJSON.
  destruct (WriteToJSON_loop _ _ _ _ depth rounds w r 0)
    as [[[[w1 r1] n1] e]|] eqn:Hl; [|discriminate].
  apply WriteToJSON_loop_counted in Hl as (out & -> & Hn & _); [|lia].
  destruct (negb (is_EOF e)); intros [= <- <- <- <-]; exists out;
    (split; [reflexivity|lia]).
Qed.

(** X28.  For an array the count is always short: what [rwArray] returns is
    less than the number of bytes it has written to the buffer, by the
    opening bracket at least, with or without an error. *)
Theorem rwArray_count_is_short (fuel : nat) (w : bytes) (src : R)
    (w' : bytes) (src' : R) (n : Z) (err : option error) :
  rwArray (rwNext extensionReg json_Marshal digits Time_MarshalJSON fuel) w src
    = Some (w', src', (n, err)) ->
  exists out : bytes, w' = w ++ out /\ 0 <= n < len out.
Proof. apply rwArray_short. intros w0 src0. apply rwNext_counted. Qed.

(** X29.  For a [bin] object the count is that of the bytes read, not of the
    bytes written: with a payload of [len p] bytes, [rwBytes] writes the
    standard base64 text of [p] between two quotes,
    [4 * ceil(len p / 3) + 2] bytes, and returns [len p + 2]. *)
Theorem rwBytes_counts_input (w : bytes) (src src' : R) (p : bytes) :
  ReadBytes [] src = (src', (p, None)) ->
  rwBytes w src = (w ++ [x22] ++ base64_std p ++ [x22], src', (len p + 2, None)) /\
  len ([x22] ++ base64_std p ++ [x22]) = 4 * ((len p + 2) / 3) + 2.
Proof.
  intros Hr. split.
  - unfold rwBytes. cbn [WriteByte Buffer]. rewrite Hr.
    rewrite enc_Write_Buffer, enc_Close_Buffer. cbn [WriteByte Buffer].
    unfold base64_std. rewrite <- !List.app_assoc. cbn [app].
    replace (0 + 1 + len p + 1) with (len p + 2) by lia. reflexivity.
  - rewrite !len_app, base64_std_length.
    change (len [x22]) with 1. lia.
Qed.

End Counts.
Lemma WriteToJSON_never_overcounts_witness :
  exists out : bytes, lit "[null]" = [] ++ out /\ 5 <= len out.
Proof.
  apply (WriteToJSON_never_overcounts (HR := in_memory) no_extensions no_json
           no_digits no_time 3 2 [] [x91; xc0] (lit "[null]") [] 5 None).
  reflexivity.
Defined.

Lemma rwArray_count_is_short_witness :
  exists out : bytes, lit "[null]" = [] ++ out /\ 0 <= 5 < len out.
Proof.
  apply (rwArray_count_is_short (HR := in_memory) no_extensions no_json
           no_digits no_time 1 [] [x91; xc0] (lit "[null]") [] 5 None).
  reflexivity.
Defined.

Lemma rwBytes_counts_input_witness :
  rwBytes (H0 := in_memory) [] [xc4; x01; x61] =
    ([] ++ [x22] ++ base64_std [x61] ++ [x22], [], (len [x61] + 2, None)) /\
  len ([x22] ++ base64_std [x61] ++ [x22]) = 4 * ((len [x61] + 2) / 3) + 2.
Proof.
  apply (rwBytes_counts_input (HR := in_memory) [] [xc4; x01; x61] [] [x61]).
  reflexivity.
Defined.

(** *** A byte that is no prefix *)

Section Invalid.
Variables TimeExtension Complex64Extension Complex128Extension : Z.
Context {E : Type} `{HE : Extension E}.
Variable extensionReg : gmap Z E.
Variable json_Marshal : E -> bytes * option error.
Variable digits : Z -> Z -> byte -> Z -> bytes.
Variable Time_MarshalJSON : Z * Z -> bytes * option error.

Local Abbreviation stream :=
  (BytesStream TimeExtension Complex64Extension Complex128Extension).

Lemma NextType_c1 (rest : bytes) :
  NextType (StreamReader := stream) (xc1 :: rest) =
  (xc1 :: rest, (Wire.InvalidType, None)).
Proof.
  cbn [NextType BytesStream]. unfold bytes_NextType, NextType_bytes.
  rewrite len_cons. pose proof (len_nonneg rest).
  destruct (Z.eqb_spec (1 + len rest) 0); [lia|]. reflexivity.
Qed.

Lemma WriteToJSON_loop_c1 {J : Type} {HJ : jsWriter J} (depth rounds : nat)
    (j : J) (rest : bytes) :
  forall n : Z,
    WriteToJSON_loop (H := stream) extensionReg json_Marshal digits
      Time_MarshalJSON depth rounds j (xc1 :: rest) n = None.
Proof.
  induction rounds as [|rounds IH]; intros n; [reflexivity|].
  cbn [WriteToJSON_loop]. destruct depth as [|depth]; [reflexivity|].
  cbn [rwNext]. rewrite NextType_c1. apply IH.
Qed.


End Invalid.

End Counting.
